(** * The bulk loader of dgraph: [loader/loader.go]

    A shallow embedding of the three-stage pipeline of [LoadEdges]: the
    line source [readLines], the parse workers [parseStream], the mutation
    workers [handleNQuads] and [LoadEdges] itself, as an interleaving
    transition system.  A step is what one goroutine does up to and
    including its next access to the shared state (a channel, a counter,
    the error register) or call of a collaborator; the scheduler, the draws
    of [rand.Intn] and the answers of [nq.ToEdge()] are the actions of a
    run, and a run records what was done as a trace.  [printCounters] only
    reads the counters; of it the model keeps the [pending] figure, and a
    second system runs it and its ticker beside the pipeline.  [readLine] is
    also given over the pieces that [bufio.Reader.ReadLine] returns.

    The collaborators outside the package ([rdf.Parse], [farm.Fingerprint64],
    [posting.Key], the triple and edge types) are parameters.  Proved of the
    model: the sharding rule, the counters, the error register, the shutdown
    order, the line source, the retry loop and the lease discipline; then
    the bounds of the queues, what the counters hold at a return, where
    lines and triples come from, the protocol of the queues, the absence of
    panics and of deadlock while no error is registered, a way to the return
    from every such state, what is left to do after an error, and a state
    from which [LoadEdges] does not return. *)

From Stdlib Require Import ZArith Lia ZifyBool Ascii String.
From stdpp Require Import base list.

Local Open Scope Z_scope.

(** ** Machine integers *)

(** A [uint64] is a [Z] kept in [0, 2^64); arithmetic wraps. *)
Definition u64 (x : Z) : Z := x mod 2 ^ 64.

(** [atomic.AddUint64(&c, 1)]. *)
Definition AddUint64 (c delta : Z) : Z := u64 (c + delta).

(** ** Errors *)

(** A non-nil Go [error]: the sentinel [posting.E_TMP_ERROR], compared by
    identity at loader.go:217, or any other error.  The nil error is [None]
    of [option error]. *)
Inductive error : Type :=
| E_TMP_ERROR
| OtherError (msg : string).

Definition is_tmp (e : error) : bool :=
  match e with E_TMP_ERROR => true | OtherError _ => false end.

(** What [readLine] returns when it has no line: [io.EOF] or a read failure. *)
Inductive io_error : Type := EOF | ReadFailure.

(** ** The shared state *)

(** [type counters struct]. *)
Record counters : Type := Counters {
  read : Z;
  parsed : Z;
  processed : Z;
  ignored : Z
}.

(** A buffered Go channel: the queued items, [cap] and whether it was closed. *)
Record chan (A : Type) : Type := Chan {
  items : list A;
  capacity : Z;
  closed : bool
}.
Arguments Chan {A} _ _ _.
Arguments items {A} _.
Arguments capacity {A} _.
Arguments closed {A} _.

Definition make_chan {A : Type} (n : Z) : chan A := Chan [] n false.

Inductive send_result (A : Type) : Type :=
| SendOk (c : chan A)
| SendBlocks
| SendPanics.
Arguments SendOk {A} _.
Arguments SendBlocks {A}.
Arguments SendPanics {A}.

(** [c <- x]: panics on a closed channel, blocks while the buffer is full. *)
Definition chan_send {A : Type} (c : chan A) (x : A) : send_result A :=
  if closed c then SendPanics
  else if Z.of_nat (length (items c)) <? capacity c
       then SendOk (Chan (items c ++ [x]) (capacity c) (closed c))
       else SendBlocks.

Inductive recv_result (A : Type) : Type :=
| RecvOk (x : A) (c : chan A)
| RecvClosed
| RecvBlocks.
Arguments RecvOk {A} _ _.
Arguments RecvClosed {A}.
Arguments RecvBlocks {A}.

(** One iteration of [for x := range c]: the oldest item, or the end of the
    loop once the channel is closed and drained, or a wait. *)
Definition chan_recv {A : Type} (c : chan A) : recv_result A :=
  match items c with
  | x :: rest => RecvOk x (Chan rest (capacity c) (closed c))
  | [] => if closed c then RecvClosed else RecvBlocks
  end.

(** [close(c)]: panics when [c] is closed already. *)
Definition chan_close {A : Type} (c : chan A) : option (chan A) :=
  if closed c then None else Some (Chan (items c) (capacity c) true).

(** ** [strings.Trim(line, " \t")] *)

Definition in_cutset (c : ascii) : bool :=
  (Ascii.eqb c " " || Ascii.eqb c "009")%bool.

Fixpoint TrimLeft (l : list ascii) : list ascii :=
  match l with
  | c :: rest => if in_cutset c then TrimLeft rest else l
  | [] => []
  end.

Definition Trim (s : string) : string :=
  string_of_list_ascii
    (rev (TrimLeft (rev (TrimLeft (list_ascii_of_string s))))).

(** ** Goroutines *)

(** Control points of [readLines] (loader.go:130-170). *)
Inductive reader_pc : Type :=
| RFill (i : nat)                 (* line 136: the first loop, [i] rounds done *)
| RNext                           (* line 151: head of the second loop *)
| RSend (k : nat) (line : string) (* line 157: [s.input <- buf[k]], [strBuf = line] *)
| RCount                          (* line 159 *)
| RDrain (i : nat)                (* line 166 *)
| RDone.                          (* after line 169 *)

(** The line source: the lines its [bufio.Reader] still holds, the error the
    reader gives after them, the window [buf] and the control point. *)
Record reader : Type := Reader {
  rlines : list string;
  rend : io_error;
  buf : list string;
  rpc : reader_pc
}.

(** Control points of [LoadEdges] once every goroutine is started. *)
Inductive coord_pc : Type :=
| CWaitParse                          (* line 271: [pwg.Wait()] *)
| CClose                              (* line 272: [close(s.cnq)] *)
| CWaitMut                            (* line 275: [wg.Wait()] *)
| CReturn                             (* lines 277-278 *)
| CDone (n : Z) (e : option error).   (* returned [(n, e)] *)

Inductive thread : Type :=
| TReader
| TParse (i : nat)
| TMut (i : nat)
| TMain.

(** The run-time parameters that are not arguments of [LoadEdges]: the
    window of [readLines] (1000 in the source), [runtime.GOMAXPROCS(-1)],
    which is at least one, and the flag [*maxRoutines]. *)
Record config : Type := Config {
  window : nat;
  gomaxprocs : positive;
  maxRoutines : Z
}.

(** Modelled from the spec: the posting store, [posting.GetOrCreate] and the
    posting lists, which are outside this package.  Of the store the loader
    sees [getOrCreate(key) -> (ListHandle, releaseFn)], a handle for one
    mutation call with its release callback.  The store is the number of
    handles it has given out, and that number is the next handle. *)
Definition store : Type := nat.
Definition GetOrCreate (d : store) : nat * store := (d, S d).

(** The source's values: a window of 1000 lines and 3000 mutation workers. *)
Definition default_config (procs : positive) : config := Config 1000 procs 3000.

Section Loader.

(** The collaborators outside this package: the triple and edge types, the
    parser [rdf.Parse], [farm.Fingerprint64] and [posting.Key]. *)
Context {NQuad Edge : Type}.
Variable Predicate : NQuad -> string.
Variable rdf_Parse : string -> NQuad + error.
Variable Fingerprint64 : string -> Z.
Variable posting_Key : Edge -> string.
Variable cfg : config.

(** [type state struct], with the package variable [dataStore] next to it. *)
Record state : Type := State {
  input : chan string;
  cnq : chan NQuad;
  ctr : counters;
  instanceIdx : Z;
  numInstances : Z;
  err : option error;
  dataStore : store
}.

Definition set_input (s : state) (c : chan string) : state :=
  State c (cnq s) (ctr s) (instanceIdx s) (numInstances s) (err s) (dataStore s).
Definition set_cnq (s : state) (c : chan NQuad) : state :=
  State (input s) c (ctr s) (instanceIdx s) (numInstances s) (err s) (dataStore s).
Definition set_ctr (s : state) (c : counters) : state :=
  State (input s) (cnq s) c (instanceIdx s) (numInstances s) (err s) (dataStore s).
Definition set_err (s : state) (e : option error) : state :=
  State (input s) (cnq s) (ctr s) (instanceIdx s) (numInstances s) e (dataStore s).
Definition set_dataStore (s : state) (n : store) : state :=
  State (input s) (cnq s) (ctr s) (instanceIdx s) (numInstances s) (err s) n.

(** [func (s *state) Error() error]. *)
Definition Error (s : state) : option error := err s.

(** [func (s *state) SetError(err error)]; the argument may be nil. *)
Definition SetError (s : state) (e : option error) : state :=
  match err s with
  | None => set_err s e
  | Some _ => s
  end.

Inductive counter : Type := c_read | c_parsed | c_processed | c_ignored.

Definition add_counter (c : counter) (s : state) : state :=
  let k := ctr s in
  set_ctr s
    match c with
    | c_read => Counters (AddUint64 (read k) 1) (parsed k) (processed k) (ignored k)
    | c_parsed => Counters (read k) (AddUint64 (parsed k) 1) (processed k) (ignored k)
    | c_processed => Counters (read k) (parsed k) (AddUint64 (processed k) 1) (ignored k)
    | c_ignored => Counters (read k) (parsed k) (processed k) (AddUint64 (ignored k) 1)
    end.

(** The [pending] figure of [printCounters] (loader.go:95), in [uint64]. *)
Definition pending (k : counters) : Z :=
  u64 (u64 (parsed k - ignored k) - processed k).

(** What a goroutine does to the shared state and to its collaborators. *)
Inductive op : Type :=
| OpSendLine (line : string)            (* [s.input <- line] *)
| OpCloseInput
| OpSendNQuad (nq : NQuad)              (* [s.cnq <- nq] *)
| OpCloseCnq
| OpAdd (c : counter)                   (* [atomic.AddUint64(&s.ctr.c, 1)] *)
| OpSetError (e : error)
| OpToEdge (nq : NQuad)
| OpSleep
| OpGetOrCreate (h : nat) (key : string)
| OpAddMutation (h : nat) (e : Edge)
| OpDecr (h : nat)
| OpReturn (n : Z) (e : option error)
| OpDie.                                (* a panic or [log.Fatalf] *)

(** One atomic step of a goroutine: the new shared state, its new control
    point and what it did; or it waits; or it takes the process down. *)
Inductive outcome (L : Type) : Type :=
| Step (s : state) (l : L) (ops : list op)
| Waits
| Dies.
Arguments Step {L} _ _ _.
Arguments Waits {L}.
Arguments Dies {L}.

(** *** [readLines] *)

(** [readLine] on the lines the reader still holds. *)
Definition readLine (r : reader) : (string + io_error) * list string :=
  match rlines r with
  | l :: rest => (inl l, rest)
  | [] => (inr (rend r), [])
  end.

(** The second loop of [readLines] at its head: read a line, draw [k]. *)
Definition readLines_next (k : nat) (s : state) (r : reader) : outcome reader :=
  match readLine r with
  | (inl l, rest) =>
      match buf r with
      | [] => Dies                                  (* [rand.Intn(0)] panics *)
      | _ :: _ =>
          if (k <? length (buf r))%nat
          then Step s (Reader rest (rend r) (buf r) (RSend k l)) []
          else Waits                                (* not a value of [rand.Intn] *)
      end
  | (inr EOF, rest) => Step s (Reader rest (rend r) (buf r) (RDrain 0)) []
  | (inr ReadFailure, _) => Dies                    (* [log.Fatalf], line 164 *)
  end.

(** One step of [readLines] with a window of [window] lines (1000 in the
    source); [k] is what [rand.Intn(len(buf))] gives if it is called. *)
Definition readLines_step (window : nat) (k : nat) (s : state) (r : reader)
  : outcome reader :=
  match rpc r with
  | RFill i =>
      if (i <? window)%nat then
        match readLine r with
        | (inl l, rest) =>
            Step (add_counter c_read s)
                 (Reader rest (rend r) (buf r ++ [l]) (RFill (S i)))
                 [OpAdd c_read]
        | (inr EOF, rest) => Step s (Reader rest (rend r) (buf r) (RDrain 0)) []
        | (inr ReadFailure, _) => Dies              (* [log.Fatalf], line 147 *)
        end
      else readLines_next k s r
  | RNext => readLines_next k s r
  | RSend k' l =>
      match buf r !! k' with
      | Some x =>
          match chan_send (input s) x with
          | SendOk c =>
              Step (set_input s c)
                   (Reader (rlines r) (rend r) (<[k' := l]> (buf r)) RCount)
                   [OpSendLine x]
          | SendBlocks => Waits
          | SendPanics => Dies
          end
      | None => Dies
      end
  | RCount =>
      Step (add_counter c_read s)
           (Reader (rlines r) (rend r) (buf r) RNext) [OpAdd c_read]
  | RDrain i =>
      match buf r !! i with
      | Some x =>
          match chan_send (input s) x with
          | SendOk c =>
              Step (set_input s c)
                   (Reader (rlines r) (rend r) (buf r) (RDrain (S i)))
                   [OpSendLine x]
          | SendBlocks => Waits
          | SendPanics => Dies
          end
      | None =>
          match chan_close (input s) with
          | Some c =>
              Step (set_input s c)
                   (Reader (rlines r) (rend r) (buf r) RDone) [OpCloseInput]
          | None => Dies
          end
      end
  | RDone => Waits
  end.

(** *** [parseStream] *)

Inductive parse_pc : Type :=
| PRecv                     (* line 177: [for line := range s.input] *)
| PCheck (line : string)    (* lines 178-188 *)
| PSetErr (e : error)       (* line 190 *)
| PSend (nq : NQuad)        (* line 193 *)
| PCount                    (* line 194 *)
| PExit.                    (* returned; [wg.Done] has run *)

Definition parseStream_step (s : state) (pc : parse_pc) : outcome parse_pc :=
  match pc with
  | PRecv =>
      match chan_recv (input s) with
      | RecvOk line c => Step (set_input s c) (PCheck line) []
      | RecvClosed => Step s PExit []
      | RecvBlocks => Waits
      end
  | PCheck line =>
      match Error s with
      | Some _ => Step s PExit []
      | None =>
          let line := Trim line in
          if (String.length line =? 0)%nat then Step s PRecv []
          else match rdf_Parse line with
               | inl nq => Step s (PSend nq) []
               | inr e => Step s (PSetErr e) []
               end
      end
  | PSetErr e => Step (SetError s (Some e)) PExit [OpSetError e]
  | PSend nq =>
      match chan_send (cnq s) nq with
      | SendOk c => Step (set_cnq s c) PCount [OpSendNQuad nq]
      | SendBlocks => Waits
      | SendPanics => Dies
      end
  | PCount => Step (add_counter c_parsed s) PRecv [OpAdd c_parsed]
  | PExit => Waits
  end.

(** *** [handleNQuads] *)

Inductive mut_pc : Type :=
| MRecv                          (* line 204: [for nq := range s.cnq] *)
| MCheck (nq : NQuad)            (* lines 205-209 *)
| MIgnore                        (* line 210 *)
| MToEdge (nq : NQuad)           (* lines 214 and 226: [nq.ToEdge()] *)
| MSetErr (e : error)            (* line 221 *)
| MGet (e : Edge)                (* lines 229-231 *)
| MMutate (h : nat) (e : Edge)   (* line 232 *)
| MDecr (h : nat)                (* line 233 *)
| MCount                         (* line 235 *)
| MExit.                         (* returned; [wg.Done] has run *)

(** The modulo rule of line 209; [None] is the division by zero. *)
Definition owns (s : state) (nq : NQuad) : option bool :=
  if numInstances s =? 0 then None
  else Some (u64 (Fingerprint64 (Predicate nq)) mod numInstances s =? instanceIdx s).

(** One step of [handleNQuads]; [ans] is what [nq.ToEdge()] answers if the
    step calls it. *)
Definition handleNQuads_step (ans : Edge + error) (s : state) (pc : mut_pc)
  : outcome mut_pc :=
  match pc with
  | MRecv =>
      match chan_recv (cnq s) with
      | RecvOk nq c => Step (set_cnq s c) (MCheck nq) []
      | RecvClosed => Step s MExit []
      | RecvBlocks => Waits
      end
  | MCheck nq =>
      match Error s with
      | Some _ => Step s MExit []
      | None =>
          match owns s nq with
          | None => Dies
          | Some false => Step s MIgnore []
          | Some true => Step s (MToEdge nq) []
          end
      end
  | MIgnore => Step (add_counter c_ignored s) MRecv [OpAdd c_ignored]
  | MToEdge nq =>
      match ans with
      | inl e => Step s (MGet e) [OpToEdge nq]
      | inr e =>
          if is_tmp e then Step s (MToEdge nq) [OpToEdge nq; OpSleep]
          else Step s (MSetErr e) [OpToEdge nq]
      end
  | MSetErr e => Step (SetError s (Some e)) MExit [OpSetError e]
  | MGet e =>
      let (h, d) := GetOrCreate (dataStore s) in
      Step (set_dataStore s d) (MMutate h e) [OpGetOrCreate h (posting_Key e)]
  | MMutate h e => Step s (MDecr h) [OpAddMutation h e]
  | MDecr h => Step s MCount [OpDecr h]
  | MCount => Step (add_counter c_processed s) MRecv [OpAdd c_processed]
  | MExit => Waits
  end.


(** ** The whole pipeline *)

Definition event : Type := thread * op.

(** The process: the shared state and where every goroutine stands. *)
Record sys : Type := Sys {
  st : state;
  rdr : reader;
  pws : list parse_pc;
  mws : list mut_pc;
  co : coord_pc;
  dead : bool
}.

(** Which goroutine runs next, with what its environment answers:
    the draw of [rand.Intn] and the result of [nq.ToEdge()]. *)
Inductive action : Type :=
| AReader (k : nat)
| AParse (i : nat)
| AMut (i : nat) (ans : Edge + error)
| AMain.

Definition is_PExit (pc : parse_pc) : bool :=
  match pc with PExit => true | _ => false end.
Definition is_MExit (pc : mut_pc) : bool :=
  match pc with MExit => true | _ => false end.

(** [LoadEdges] at the point where all its goroutines have been started
    (loader.go:244-268).  A negative [*maxRoutines] makes [wg.Add] panic. *)
Definition LoadEdges_start (lines : list string) (lend : io_error)
    (instanceIdx numInstances : Z) : sys :=
  Sys (State (make_chan 10000) (make_chan 10000) (Counters 0 0 0 0)
             instanceIdx numInstances None 0%nat)
      (Reader lines lend [] (RFill 0))
      (replicate (Pos.to_nat (gomaxprocs cfg)) PRecv)
      (replicate (Z.to_nat (maxRoutines cfg)) MRecv)
      CWaitParse
      (maxRoutines cfg <? 0).

(** The rest of [LoadEdges] (loader.go:270-278). *)
Definition LoadEdges_step (y : sys) : outcome coord_pc :=
  let s := st y in
  match co y with
  | CWaitParse => if forallb is_PExit (pws y) then Step s CClose [] else Waits
  | CClose =>
      match chan_close (cnq s) with
      | Some c => Step (set_cnq s c) CWaitMut [OpCloseCnq]
      | None => Dies
      end
  | CWaitMut => if forallb is_MExit (mws y) then Step s CReturn [] else Waits
  | CReturn =>
      let n := processed (ctr s) in
      Step s (CDone n (Error s)) [OpReturn n (Error s)]
  | CDone _ _ => Waits
  end.

Definition by_thread (t : thread) (ops : list op) : list event :=
  map (pair t) ops.

Definition die (t : thread) (y : sys) : sys * list event :=
  (Sys (st y) (rdr y) (pws y) (mws y) (co y) true, [(t, OpDie)]).

(** One step of the process: goroutine [a] runs up to its next access to
    the shared state.  [None]: that goroutine cannot run now. *)
Definition step (a : action) (y : sys) : option (sys * list event) :=
  if dead y then None else
  match a with
  | AReader k =>
      match readLines_step (window cfg) k (st y) (rdr y) with
      | Step s r ops => Some (Sys s r (pws y) (mws y) (co y) false, by_thread TReader ops)
      | Waits => None
      | Dies => Some (die TReader y)
      end
  | AParse i =>
      match pws y !! i with
      | None => None
      | Some pc =>
          match parseStream_step (st y) pc with
          | Step s pc' ops =>
              Some (Sys s (rdr y) (<[i := pc']> (pws y)) (mws y) (co y) false,
                    by_thread (TParse i) ops)
          | Waits => None
          | Dies => Some (die (TParse i) y)
          end
      end
  | AMut i ans =>
      match mws y !! i with
      | None => None
      | Some pc =>
          match handleNQuads_step ans (st y) pc with
          | Step s pc' ops =>
              Some (Sys s (rdr y) (pws y) (<[i := pc']> (mws y)) (co y) false,
                    by_thread (TMut i) ops)
          | Waits => None
          | Dies => Some (die (TMut i) y)
          end
      end
  | AMain =>
      match LoadEdges_step y with
      | Step s pc' ops => Some (Sys s (rdr y) (pws y) (mws y) pc' false, by_thread TMain ops)
      | Waits => None
      | Dies => Some (die TMain y)
      end
  end.

(** A schedule run from [y]: the state reached and everything done. *)
Fixpoint run (acts : list action) (y : sys) : option (sys * list event) :=
  match acts with
  | [] => Some (y, [])
  | a :: rest =>
      match step a y with
      | None => None
      | Some (y', evs) =>
          match run rest y' with
          | None => None
          | Some (y'', evs') => Some (y'', evs ++ evs')
          end
      end
  end.

(** Reachability, one step at a time, with the trace so far. *)
Inductive reach (y0 : sys) : sys -> list event -> Prop :=
| reach_refl : reach y0 y0 []
| reach_step a y tr y' evs :
    reach y0 y tr -> step a y = Some (y', evs) -> reach y0 y' (tr ++ evs).

(** *** Readings of a trace *)

Definition sent_line (ev : event) : option string :=
  match ev.2 with OpSendLine l => Some l | _ => None end.
Definition sent_lines (tr : list event) : list string := omap sent_line tr.

Definition set_error (ev : event) : option error :=
  match ev.2 with OpSetError e => Some e | _ => None end.
Definition set_errors (tr : list event) : list error := omap set_error tr.

Definition counter_eqb (a b : counter) : bool :=
  match a, b with
  | c_read, c_read | c_parsed, c_parsed
  | c_processed, c_processed | c_ignored, c_ignored => true
  | _, _ => false
  end.

Definition is_add (c : counter) (ev : event) : nat :=
  match ev.2 with OpAdd c' => if counter_eqb c c' then 1 else 0 | _ => 0 end.
(** How often counter [c] was incremented in [tr]. *)
Definition adds (c : counter) (tr : list event) : nat := sum_list_with (is_add c) tr.

(** *** Readings of a state *)

(** A parse worker that has sent its triple and not yet counted it. *)
Definition p_uncounted (pc : parse_pc) : nat :=
  match pc with PCount => 1 | _ => 0 end.
(** A parse worker that holds a line it has received. *)
Definition p_holding (pc : parse_pc) : nat :=
  match pc with PCheck _ | PSetErr _ | PSend _ => 1 | _ => 0 end.
(** A mutation worker that holds a triple it has received. *)
Definition m_holding (pc : mut_pc) : nat :=
  match pc with MRecv | MExit => 0 | _ => 1 end.

(** The lines the line source has read and not yet sent. *)
Definition window_lines (r : reader) : list string :=
  match rpc r with
  | RFill _ | RNext | RCount => buf r
  | RSend _ l => buf r ++ [l]
  | RDrain i => drop i (buf r)
  | RDone => []
  end.

(** How far [LoadEdges] has got. *)
Definition co_rank (pc : coord_pc) : nat :=
  match pc with
  | CWaitParse => 0 | CClose => 1 | CWaitMut => 2 | CReturn => 3 | CDone _ _ => 4
  end.

(** ** Measures of a state and the invariants of a run *)

(** Workers are counted by weight: a worker that has not returned, a
    mutation worker that has. *)
Definition p_alive (pc : parse_pc) : nat := match pc with PExit => 0 | _ => 1 end.
Definition m_alive (pc : mut_pc) : nat := match pc with MExit => 0 | _ => 1 end.
Definition m_exited (pc : mut_pc) : nat := match pc with MExit => 1 | _ => 0 end.

(** The coordinator is past [close(s.cnq)]. *)
Definition cnq_closed_at (pc : coord_pc) : bool :=
  match pc with CWaitParse | CClose => false | _ => true end.

(** Shutdown: past [pwg.Wait()] no parse worker is left, past [wg.Wait()]
    no mutation worker; the triple queue is closed exactly from line 272
    on; what [LoadEdges] has returned is what the state holds. *)
Definition inv_ctl (y : sys) : Prop :=
  (1 <= co_rank (co y) -> sum_list_with p_alive (pws y) = 0)%nat /\
  (3 <= co_rank (co y) -> sum_list_with m_alive (mws y) = 0)%nat /\
  closed (cnq (st y)) = cnq_closed_at (co y) /\
  (forall k e, co y = CDone k e -> k = processed (ctr (st y)) /\ e = err (st y)).

(** The register holds the argument of the first [SetError] of the trace. *)
Definition inv_err (y : sys) (tr : list event) : Prop :=
  err (st y) = head (set_errors tr).

(** Every counter is the number of its increments, wrapped to 64 bits. *)
Definition inv_ctr (y : sys) (tr : list event) : Prop :=
  let k := ctr (st y) in
  read k = u64 (Z.of_nat (adds c_read tr)) /\
  parsed k = u64 (Z.of_nat (adds c_parsed tr)) /\
  processed k = u64 (Z.of_nat (adds c_processed tr)) /\
  ignored k = u64 (Z.of_nat (adds c_ignored tr)).

(** Triples in flight: every increment of [processed] or [ignored], every
    queued triple and every triple a mutation worker holds is matched by an
    increment of [parsed] or by a parse worker about to make it; nothing
    else is, while the register is empty. *)
Definition inv_flow (y : sys) (tr : list event) : Prop :=
  (adds c_processed tr + adds c_ignored tr + length (items (cnq (st y)))
     + sum_list_with m_holding (mws y)
   <= adds c_parsed tr + sum_list_with p_uncounted (pws y))%nat /\
  (err (st y) = None ->
   adds c_processed tr + adds c_ignored tr + length (items (cnq (st y)))
     + sum_list_with m_holding (mws y)
   = adds c_parsed tr + sum_list_with p_uncounted (pws y))%nat.

(** Lines in flight: every triple counted or awaiting its count, every line
    a parse worker holds and every queued line was sent by the line source. *)
Definition inv_lines (y : sys) (tr : list event) : Prop :=
  (adds c_parsed tr + sum_list_with p_uncounted (pws y)
     + sum_list_with p_holding (pws y) + length (items (input (st y)))
   <= length (sent_lines tr))%nat.

(** A mutation worker that left its loop with the register empty saw the
    triple queue closed and drained, and so it stays. *)
Definition inv_exit (y : sys) : Prop :=
  err (st y) = None -> (0 < sum_list_with m_exited (mws y))%nat ->
  closed (cnq (st y)) = true /\ items (cnq (st y)) = [].

Definition is_RDone (pc : reader_pc) : bool :=
  match pc with RDone => true | _ => false end.

(** The line source neither loses nor duplicates a line: what it has sent,
    what its window holds and what it has not read yet make up the input.
    The raw-line queue is closed exactly when the source is done; the window
    is never empty when a slot is drawn. *)
Definition inv_reader (lines : list string) (lend : io_error)
    (y : sys) (tr : list event) : Prop :=
  let r := rdr y in
  sent_lines tr ++ window_lines r ++ rlines r ≡ₚ lines /\
  closed (input (st y)) = is_RDone (rpc r) /\
  rend r = lend /\
  match rpc r with
  | RFill i => length (buf r) = i
  | RNext | RCount => buf r <> []
  | RSend k _ => (k < length (buf r))%nat
  | RDrain _ | RDone => rlines r = []
  end.

Definition thread_eqb (a b : thread) : bool :=
  match a, b with
  | TReader, TReader | TMain, TMain => true
  | TParse i, TParse j | TMut i, TMut j => (i =? j)%nat
  | _, _ => false
  end.

(** What goroutine [t] did, in order. *)
Definition ops_of (t : thread) (tr : list event) : list op :=
  omap (fun ev : event => if thread_eqb ev.1 t then Some ev.2 else None) tr.

(** Where a worker stands with its lease: none, handle [h] taken and not
    used yet, or used and not given back yet. *)
Inductive lease : Type :=
| LFree
| LTaken (h : nat)
| LUsed (h : nat).

(** The discipline of one worker: [GetOrCreate], then the one mutation on
    that handle, then [decr] on it, with no other call of the worker between
    them; a mutation or a release with no lease, or of another handle,
    breaks it. *)
Definition lease_op (l : lease) (o : op) : option lease :=
  match l, o with
  | LFree, OpGetOrCreate h _ => Some (LTaken h)
  | LFree, (OpAddMutation _ _ | OpDecr _) => None
  | LFree, _ => Some LFree
  | LTaken h, OpAddMutation h' _ => if (h =? h')%nat then Some (LUsed h) else None
  | LUsed h, OpDecr h' => if (h =? h')%nat then Some LFree else None
  | _, _ => None
  end.

Fixpoint lease_run (l : lease) (ops : list op) : option lease :=
  match ops with
  | [] => Some l
  | o :: rest =>
      match lease_op l o with
      | Some l' => lease_run l' rest
      | None => None
      end
  end.

(** The lease a mutation worker holds at a control point. *)
Definition lease_of (pc : mut_pc) : lease :=
  match pc with
  | MMutate h _ => LTaken h
  | MDecr h => LUsed h
  | _ => LFree
  end.

Definition is_get (h : nat) (ev : event) : nat :=
  match ev.2 with OpGetOrCreate h' _ => if (h =? h')%nat then 1 else 0 | _ => 0 end.
Definition is_decr (h : nat) (ev : event) : nat :=
  match ev.2 with OpDecr h' => if (h =? h')%nat then 1 else 0 | _ => 0 end.
(** How often handle [h] was given out, and given back, in [tr]. *)
Definition gets (h : nat) (tr : list event) : nat := sum_list_with (is_get h) tr.
Definition decrs (h : nat) (tr : list event) : nat := sum_list_with (is_decr h) tr.

(** A worker between taking handle [h] and giving it back. *)
Definition m_leases (h : nat) (pc : mut_pc) : nat :=
  match pc with
  | MMutate h' _ | MDecr h' => if (h =? h')%nat then 1 else 0
  | _ => 0
  end.

(** Every worker keeps the discipline and stands where its calls left it;
    the handles given out are those below the store's count, each once, and
    each is either held by one worker or was given back once. *)
Definition inv_lease (y : sys) (tr : list event) : Prop :=
  (forall i pc, mws y !! i = Some pc ->
     lease_run LFree (ops_of (TMut i) tr) = Some (lease_of pc)) /\
  (forall h,
     gets h tr = (if (h <? dataStore (st y))%nat then 1 else 0)%nat /\
     (decrs h tr + sum_list_with (m_leases h) (mws y) = gets h tr)%nat).

(** What is left for the line source to do, in steps of its own. *)
Definition reader_work (r : reader) : nat :=
  match rpc r with
  | RFill _ | RNext => 3 * length (rlines r) + length (buf r) + 2
  | RSend _ _ => 3 * length (rlines r) + length (buf r) + 4
  | RCount => 3 * length (rlines r) + length (buf r) + 3
  | RDrain i => length (buf r) - i + 1
  | RDone => 0
  end%nat.

(** The calls of [k] failed attempts of [nq.ToEdge()]. *)
Fixpoint retries (nq : NQuad) (k : nat) : list op :=
  match k with
  | O => []
  | S k' => OpToEdge nq :: OpSleep :: retries nq k'
  end.

(** [s] as instance [idx] of [n]. *)
Definition as_instance (s : state) (idx n : Z) : state :=
  State (input s) (cnq s) (ctr s) idx n (err s) (dataStore s).

(** The answers of [nq.ToEdge()] that a schedule keeps for mutation worker
    [i], one per step of that worker. *)
Definition answers_of (i : nat) (acts : list action) : list (Edge + error) :=
  omap (fun a : action =>
          match a with
          | AMut j ans => if (j =? i)%nat then Some ans else None
          | _ => None
          end) acts.

(** The calls a mutation worker makes from one control point to another
    over a list of answers, whatever the shared state is at each step and
    whatever the other goroutines do in between. *)
Inductive wpath : mut_pc -> list (Edge + error) -> list op -> mut_pc -> Prop :=
| wpath_stay pc : wpath pc [] [] pc
| wpath_step pc ans s s' pc1 ops rest ops' pc2 :
    handleNQuads_step ans s pc = Step s' pc1 ops ->
    wpath pc1 rest ops' pc2 ->
    wpath pc (ans :: rest) (ops ++ ops') pc2
| wpath_die pc ans s :
    handleNQuads_step ans s pc = Dies ->
    wpath pc [ans] [OpDie] pc.


(** ** [readLine] over [bufio.Reader.ReadLine] *)

(** What a call of [r.ReadLine()] that does not fail gives: a piece of the
    line and [isPrefix], set when the line goes on in the next call. *)
Definition fragment : Type := string * bool.

(** The loop of [readLine] (loader.go:115-124) over the answers [frs] the
    reader has before it fails with [e], from a buffer holding [buf]: the
    error returned, the buffer and what is left of the reader. *)
Fixpoint readLine_loop (frs : list fragment) (e : io_error) (buf : string)
  : option io_error * string * list fragment :=
  match frs with
  | [] => (Some e, buf, [])
  | (line, isPrefix) :: rest =>
      let buf := (buf ++ line)%string in
      if isPrefix then readLine_loop rest e buf else (None, buf, rest)
  end.

(** [readLine(r, buf)] (loader.go:111-126): [buf.Reset()], then the loop. *)
Definition readLine_buf (frs : list fragment) (e : io_error) (buf : string)
  : option io_error * string * list fragment :=
  readLine_loop frs e EmptyString.

(** The lines a stream of fragments holds, [acc] being the pieces of the
    line under way: a line ends with the fragment whose [isPrefix] is unset,
    and pieces that no such fragment follows make no line. *)
Fixpoint lines_of (acc : string) (frs : list fragment) : list string :=
  match frs with
  | [] => []
  | (line, isPrefix) :: rest =>
      if isPrefix then lines_of (acc ++ line)%string rest
      else (acc ++ line)%string :: lines_of EmptyString rest
  end.

(** A line cut into the pieces [pieces] and [last]. *)
Definition in_pieces (pieces : list string) (last : string) : list fragment :=
  map (fun p => (p, true)) pieces ++ [(last, false)].

(** ** What becomes of a line *)

(** Lines 181-188 of [parseStream] on one line: nothing for a line that is
    blank once trimmed, else what [rdf.Parse] makes of the trimmed line. *)
Definition parse_line (line : string) : option (NQuad + error) :=
  let line := Trim line in
  if (String.length line =? 0)%nat then None else Some (rdf_Parse line).

Definition nonblank (line : string) : bool :=
  match parse_line line with None => false | Some _ => true end.
Definition malformed (line : string) : bool :=
  match parse_line line with Some (inr _) => true | _ => false end.
Definition well_formed (line : string) : bool :=
  match parse_line line with Some (inl _) => true | _ => false end.

(** The modulo rule of line 209 for instance [idx] of [n]; the rest of the
    state has no part in it. *)
Definition modulo_rule (idx n : Z) (nq : NQuad) : option bool :=
  owns (State (make_chan 0) (make_chan 0) (Counters 0 0 0 0) idx n None 0%nat) nq.

(** Triples that instance [idx] of [n] keeps, and triples it leaves to the
    other instances. *)
Definition mine (idx n : Z) (nq : NQuad) : bool :=
  match modulo_rule idx n nq with Some true => true | _ => false end.
Definition not_mine (idx n : Z) (nq : NQuad) : bool :=
  match modulo_rule idx n nq with Some false => true | _ => false end.

Definition line_mine (idx n : Z) (line : string) : bool :=
  match parse_line line with Some (inl nq) => mine idx n nq | _ => false end.
Definition line_not_mine (idx n : Z) (line : string) : bool :=
  match parse_line line with Some (inl nq) => not_mine idx n nq | _ => false end.

(** How many items of [l] satisfy [p]. *)
Definition tally {A : Type} (p : A -> bool) (l : list A) : nat :=
  sum_list_with (fun x => if p x then 1%nat else 0%nat) l.

(** *** More measures of a state *)

Definition p_exited (pc : parse_pc) : nat := match pc with PExit => 1 | _ => 0 end.

(** Parse workers by the line they hold: a line that is not blank, a line
    that does not parse, a line whose triple this instance keeps or leaves. *)
Definition p_nonblank (pc : parse_pc) : nat :=
  match pc with
  | PCheck l => if nonblank l then 1 else 0
  | PSetErr _ | PSend _ | PCount => 1
  | _ => 0
  end.
Definition p_malformed (pc : parse_pc) : nat :=
  match pc with
  | PCheck l => if malformed l then 1 else 0
  | PSetErr _ => 1
  | _ => 0
  end.
Definition p_mine (idx n : Z) (pc : parse_pc) : nat :=
  match pc with
  | PCheck l => if line_mine idx n l then 1 else 0
  | PSend nq => if mine idx n nq then 1 else 0
  | _ => 0
  end.
Definition p_not_mine (idx n : Z) (pc : parse_pc) : nat :=
  match pc with
  | PCheck l => if line_not_mine idx n l then 1 else 0
  | PSend nq => if not_mine idx n nq then 1 else 0
  | _ => 0
  end.

(** Mutation workers by the triple they hold. *)
Definition m_mine (idx n : Z) (pc : mut_pc) : nat :=
  match pc with
  | MCheck nq => if mine idx n nq then 1 else 0
  | MRecv | MIgnore | MExit => 0
  | _ => 1
  end.
Definition m_not_mine (idx n : Z) (pc : mut_pc) : nat :=
  match pc with
  | MCheck nq => if not_mine idx n nq then 1 else 0
  | MIgnore => 1
  | _ => 0
  end.

(** Mutation workers by where they stand between line 231 and line 235. *)
Definition m_got (pc : mut_pc) : nat := match pc with MMutate _ _ => 1 | _ => 0 end.
Definition m_applied (pc : mut_pc) : nat := match pc with MDecr _ => 1 | _ => 0 end.
Definition m_released (pc : mut_pc) : nat := match pc with MCount => 1 | _ => 0 end.

(** Parse workers by what they can do next. *)
Definition p_ready (pc : parse_pc) : nat :=
  match pc with PCheck _ | PSetErr _ | PCount => 1 | _ => 0 end.
Definition p_receiving (pc : parse_pc) : nat := match pc with PRecv => 1 | _ => 0 end.
Definition p_sending (pc : parse_pc) : nat := match pc with PSend _ => 1 | _ => 0 end.

(** *** More readings of a trace *)

Definition is_lookup (ev : event) : nat :=
  match ev.2 with OpGetOrCreate _ _ => 1 | _ => 0 end.
Definition is_mutation (ev : event) : nat :=
  match ev.2 with OpAddMutation _ _ => 1 | _ => 0 end.
Definition is_release (ev : event) : nat :=
  match ev.2 with OpDecr _ => 1 | _ => 0 end.
(** The calls of [posting.GetOrCreate], of [AddMutationWithIndex] and of
    [decr] in [tr]. *)
Definition lookups (tr : list event) : nat := sum_list_with is_lookup tr.
Definition mutations (tr : list event) : nat := sum_list_with is_mutation tr.
Definition releases (tr : list event) : nat := sum_list_with is_release tr.

(** *** More invariants of a run *)

(** A line the source has read and not yet counted (lines 157-159). *)
Definition r_uncounted (pc : reader_pc) : nat :=
  match pc with RSend _ _ | RCount => 1 | _ => 0 end.

(** [read] counts the lines taken from the stream: those sent and those in
    the window, but for the one between lines 157 and 159. *)
Definition inv_read (y : sys) (tr : list event) : Prop :=
  (adds c_read tr + r_uncounted (rpc (rdr y))
   = length (sent_lines tr) + length (window_lines (rdr y)))%nat.

(** Both queues keep their capacity of 10000 and never hold more; the
    window never holds more than [window] lines; [instanceIdx] and
    [numInstances] stay what [LoadEdges] was given. *)
Definition inv_bounds (idx n : Z) (y : sys) : Prop :=
  capacity (input (st y)) = 10000 /\
  capacity (cnq (st y)) = 10000 /\
  Z.of_nat (length (items (input (st y)))) <= 10000 /\
  Z.of_nat (length (items (cnq (st y)))) <= 10000 /\
  (length (buf (rdr y)) <= window cfg)%nat /\
  instanceIdx (st y) = idx /\
  numInstances (st y) = n.

(** A parse worker that left its loop with the register empty saw the
    raw-line queue closed and drained, and so it stays. *)
Definition inv_pexit (y : sys) : Prop :=
  err (st y) = None -> (0 < sum_list_with p_exited (pws y))%nat ->
  closed (input (st y)) = true /\ items (input (st y)) = [].

(** While the register is empty no line is lost on the way: the lines sent
    that are not blank are queued, held by a parse worker or counted in
    [parsed]; those that do not parse are queued or held; those whose triple
    this instance keeps are queued, held, or counted in [processed]; those
    whose triple it leaves are queued, held, or counted in [ignored]. *)
Definition inv_class (idx n : Z) (y : sys) (tr : list event) : Prop :=
  err (st y) = None ->
  (tally nonblank (sent_lines tr)
   = tally nonblank (items (input (st y))) + sum_list_with p_nonblank (pws y)
     + adds c_parsed tr)%nat /\
  (tally malformed (sent_lines tr)
   = tally malformed (items (input (st y))) + sum_list_with p_malformed (pws y))%nat /\
  (tally (line_mine idx n) (sent_lines tr)
   = tally (line_mine idx n) (items (input (st y)))
     + sum_list_with (p_mine idx n) (pws y)
     + tally (mine idx n) (items (cnq (st y)))
     + sum_list_with (m_mine idx n) (mws y)
     + adds c_processed tr)%nat /\
  (tally (line_not_mine idx n) (sent_lines tr)
   = tally (line_not_mine idx n) (items (input (st y)))
     + sum_list_with (p_not_mine idx n) (pws y)
     + tally (not_mine idx n) (items (cnq (st y)))
     + sum_list_with (m_not_mine idx n) (mws y)
     + adds c_ignored tr)%nat.

(** The store has given out one handle per call of [GetOrCreate]; every
    handle is used by one mutation, then released, then counted in
    [processed], but for the workers on the way. *)
Definition inv_muts (y : sys) (tr : list event) : Prop :=
  lookups tr = dataStore (st y) /\
  (lookups tr = mutations tr + sum_list_with m_got (mws y))%nat /\
  (mutations tr = releases tr + sum_list_with m_applied (mws y))%nat /\
  (releases tr = adds c_processed tr + sum_list_with m_released (mws y))%nat.

(** An input that fits the window leaves in the order it came in: the
    second loop of [readLines] never draws a slot. *)
Definition inv_order (lines : list string) (y : sys) (tr : list event) : Prop :=
  sent_lines tr ++ window_lines (rdr y) ++ rlines (rdr y) = lines /\
  match rpc (rdr y) with
  | RFill _ => sent_lines tr = []
  | RNext | RSend _ _ | RCount => False
  | RDrain _ | RDone => True
  end.

(** ** [printCounters] beside the pipeline *)

(** The fields of one [Info("Counters")] entry (loader.go:96-103). *)
Record report : Type := Report {
  r_read : Z;
  r_processed : Z;
  r_parsed : Z;
  r_ignored : Z;
  r_pending : Z;
  r_len_cnq : Z
}.

(** Control points of [printCounters] (loader.go:85-105), with the values
    loaded so far. *)
Inductive print_pc : Type :=
| KRange                                      (* line 87: [range ticker.C] *)
| KProcessed                                  (* line 88 *)
| KParsed (processed : Z)                     (* line 93 *)
| KIgnored (processed parsed : Z)             (* line 94 *)
| KRead (processed parsed ignored : Z)        (* line 97 *)
| KLen (processed parsed ignored read : Z)    (* line 102, and the entry *)
| KExit.                                      (* after the loop *)

Record printer : Type := Printer {
  prev : Z;
  kpc : print_pc
}.

(** One step of [printCounters]: a receive on [ticker.C] or one load; it
    reads the shared state and never writes it. *)
Definition printCounters_step (s : state) (C : chan unit) (p : printer)
  : option (chan unit * printer * list report) :=
  match kpc p with
  | KRange =>
      match chan_recv C with
      | RecvOk _ C' => Some (C', Printer (prev p) KProcessed, [])
      | RecvClosed => Some (C, Printer (prev p) KExit, [])
      | RecvBlocks => None
      end
  | KProcessed =>
      let processed := processed (ctr s) in
      if prev p =? processed then Some (C, Printer (prev p) KRange, [])
      else Some (C, Printer processed (KParsed processed), [])
  | KParsed processed =>
      Some (C, Printer (prev p) (KIgnored processed (parsed (ctr s))), [])
  | KIgnored processed parsed =>
      Some (C, Printer (prev p) (KRead processed parsed (ignored (ctr s))), [])
  | KRead processed parsed ignored =>
      Some (C, Printer (prev p) (KLen processed parsed ignored (read (ctr s))), [])
  | KLen processed parsed ignored read =>
      Some (C, Printer (prev p) KRange,
            [Report read processed parsed ignored
                    (pending (Counters read parsed processed ignored))
                    (Z.of_nat (length (items (cnq s))))])
  | KExit => None
  end.

(** The process with its ticker ([time.NewTicker], line 246: a channel of
    capacity one) and the goroutine of [printCounters]. *)
Record psys : Type := PSys {
  base : sys;
  ticker_C : chan unit;
  prt : printer
}.

(** [ticker.Stop()] is in the last step of [LoadEdges] (line 277). *)
Definition ticker_stopped (y : sys) : bool :=
  match co y with CDone _ _ => true | _ => false end.

Inductive paction : Type :=
| PDo (a : action)      (* a goroutine of the pipeline *)
| PTick                 (* the ticker fires *)
| PPrint.               (* [printCounters] *)

Inductive pevent : Type :=
| PEv (ev : event)
| PLog (r : report).

Definition LoadEdges_printing (lines : list string) (lend : io_error)
    (instanceIdx numInstances : Z) : psys :=
  PSys (LoadEdges_start lines lend instanceIdx numInstances)
       (make_chan 1) (Printer 0 KRange).

(** One step of the process.  A tick that finds the channel full is
    dropped; a stopped ticker does not fire. *)
Definition pstep (a : paction) (m : psys) : option (psys * list pevent) :=
  if dead (base m) then None else
  match a with
  | PDo a =>
      match step a (base m) with
      | Some (y, evs) => Some (PSys y (ticker_C m) (prt m), map PEv evs)
      | None => None
      end
  | PTick =>
      if ticker_stopped (base m) then None else
      match chan_send (ticker_C m) tt with
      | SendOk C => Some (PSys (base m) C (prt m), [])
      | SendBlocks => Some (m, [])
      | SendPanics => None
      end
  | PPrint =>
      match printCounters_step (st (base m)) (ticker_C m) (prt m) with
      | Some (C, p, rs) => Some (PSys (base m) C p, map PLog rs)
      | None => None
      end
  end.

Fixpoint prun (acts : list paction) (m : psys) : option (psys * list pevent) :=
  match acts with
  | [] => Some (m, [])
  | a :: rest =>
      match pstep a m with
      | None => None
      | Some (m', evs) =>
          match prun rest m' with
          | None => None
          | Some (m'', evs') => Some (m'', evs ++ evs')
          end
      end
  end.

Inductive preach (m0 : psys) : psys -> list pevent -> Prop :=
| preach_refl : preach m0 m0 []
| preach_step a m tr m' evs :
    preach m0 m tr -> pstep a m = Some (m', evs) -> preach m0 m' (tr ++ evs).

(** The pipeline's part of a schedule and of a trace, and the entries
    printed. *)
Definition pipeline_action (a : paction) : option action :=
  match a with PDo a => Some a | _ => None end.
Definition pipeline_event (ev : pevent) : option event :=
  match ev with PEv ev => Some ev | PLog _ => None end.
Definition printed (ev : pevent) : option report :=
  match ev with PLog r => Some r | PEv _ => None end.
Definition reports (tr : list pevent) : list report := omap printed tr.

(** What [printCounters] has to exceed to print again. *)
Definition print_floor (p : printer) : Z :=
  match kpc p with
  | KParsed _ | KIgnored _ _ | KRead _ _ _ | KLen _ _ _ _ => prev p - 1
  | _ => prev p
  end.

(** The value of [processed] that the entry under way will show. *)
Definition print_holds (p : printer) : Prop :=
  match kpc p with
  | KParsed x | KIgnored x _ | KRead x _ _ | KLen x _ _ _ => prev p = x
  | _ => True
  end.

(** A list of numbers that goes up from above [lo], and where it ends. *)
Fixpoint ascending (lo : Z) (l : list Z) : Prop :=
  match l with
  | [] => True
  | x :: rest => lo < x /\ ascending x rest
  end.
Definition top (lo : Z) (l : list Z) : Z := foldl (fun _ x => x) lo l.

(** The entries show ever greater values of [processed], none above the
    value last loaded, which is none above the counter; [len_cnq] is within
    the capacity of the queue and [pending] is the difference of line 95. *)
Definition inv_print (m : psys) (tr : list pevent) : Prop :=
  let procs := map r_processed (reports tr) in
  ascending 0 procs /\
  top 0 procs <= print_floor (prt m) /\
  0 <= prev (prt m) <= Z.of_nat (adds c_processed (omap pipeline_event tr)) /\
  print_holds (prt m) /\
  Forall (fun r => 0 <= r_len_cnq r <= 10000 /\
                  r_pending r = u64 (u64 (r_parsed r - r_ignored r) - r_processed r))
         (reports tr).

(** ** A full queue and no consumer *)

(** The triple queue is full, every mutation worker has returned and parse
    worker [i] stands at line 193 with a triple to send, while [LoadEdges]
    is at [pwg.Wait()]. *)
Definition stuck_sending (i : nat) (y : sys) : bool :=
  match co y, pws y !! i with
  | CWaitParse, Some (PSend _) =>
      forallb is_MExit (mws y)
      && (capacity (cnq (st y)) <=? Z.of_nat (length (items (cnq (st y)))))
  | _, _ => false
  end.

(** ** After an error *)

(** Mutation workers by what they have yet to do with the triple they
    hold: the mutation of line 232, the count of line 235, the count of
    line 210; parse workers that have yet to count a triple. *)
Definition m_before_mutation (pc : mut_pc) : nat :=
  match pc with MToEdge _ | MGet _ | MMutate _ _ => 1 | _ => 0 end.
Definition m_before_count (pc : mut_pc) : nat :=
  match pc with MToEdge _ | MGet _ | MMutate _ _ | MDecr _ | MCount => 1 | _ => 0 end.
Definition m_before_ignore (pc : mut_pc) : nat :=
  match pc with MIgnore => 1 | _ => 0 end.
Definition p_before_count (pc : parse_pc) : nat :=
  match pc with PSend _ | PCount => 1 | _ => 0 end.

Definition is_send_nq (ev : event) : nat :=
  match ev.2 with OpSendNQuad _ => 1 | _ => 0 end.
(** The triples sent on the triple queue in [tr]. *)
Definition triples_sent (tr : list event) : nat := sum_list_with is_send_nq tr.

(** ** The protocol of the queues *)

(** What the raw-line queue allows, [c] telling whether it is closed:
    sends by the line source while it is open, and its close by the line
    source. *)
Definition input_op (c : bool) (ev : event) : option bool :=
  match ev with
  | (TReader, OpSendLine _) => if c then None else Some false
  | (TReader, OpCloseInput) => if c then None else Some true
  | (_, (OpSendLine _ | OpCloseInput)) => None
  | _ => Some c
  end.

(** What the triple queue allows: sends by parse workers while it is open,
    and its close by [LoadEdges]. *)
Definition cnq_op (c : bool) (ev : event) : option bool :=
  match ev with
  | (TParse _, OpSendNQuad _) => if c then None else Some false
  | (TMain, OpCloseCnq) => if c then None else Some true
  | (_, (OpSendNQuad _ | OpCloseCnq)) => None
  | _ => Some c
  end.

(** A trace by the protocol [op] of a queue: whether the queue is closed
    after it, or [None] when the trace breaks the protocol. *)
Fixpoint protocol (op : bool -> event -> option bool) (c : bool) (tr : list event)
  : option bool :=
  match tr with
  | [] => Some c
  | ev :: rest =>
      match op c ev with
      | Some c' => protocol op c' rest
      | None => None
      end
  end.

Definition inv_protocol (y : sys) (tr : list event) : Prop :=
  protocol input_op false tr = Some (closed (input (st y))) /\
  protocol cnq_op false tr = Some (closed (cnq (st y))).

(** ** Where a triple comes from *)

(** [nq] is what [rdf.Parse] made of a line of [lines]. *)
Definition from_input (lines : list string) (nq : NQuad) : Prop :=
  exists l, l ∈ lines /\ parse_line l = Some (inl nq).

Definition p_ok (lines : list string) (pc : parse_pc) : Prop :=
  match pc with
  | PCheck l => l ∈ lines
  | PSend nq => from_input lines nq
  | _ => True
  end.

Definition m_ok (idx n : Z) (lines : list string) (pc : mut_pc) : Prop :=
  match pc with
  | MCheck nq => from_input lines nq
  | MToEdge nq => from_input lines nq /\ mine idx n nq = true
  | _ => True
  end.

Definition ev_ok (idx n : Z) (lines : list string) (ev : event) : Prop :=
  match ev.2 with
  | OpSendLine l => l ∈ lines
  | OpSendNQuad nq => from_input lines nq
  | OpToEdge nq => from_input lines nq /\ mine idx n nq = true
  | _ => True
  end.

(** Every line queued or held is a line of the input, every triple queued
    or held is the parse of one, and [nq.ToEdge()] is called only on such
    triples that satisfy the modulo rule of this instance. *)
Definition inv_prov (idx n : Z) (lines : list string) (y : sys) (tr : list event)
  : Prop :=
  Forall (fun l => l ∈ lines) (items (input (st y))) /\
  Forall (p_ok lines) (pws y) /\
  Forall (from_input lines) (items (cnq (st y))) /\
  Forall (m_ok idx n lines) (mws y) /\
  Forall (ev_ok idx n lines) tr.

(** ** The work left *)

(** The steps a worker has yet to take with what it holds, those of the
    stages after it included, and the step by which it returns. *)
Definition p_work (pc : parse_pc) : nat :=
  match pc with
  | PRecv => 1 | PCheck _ => 11 | PSetErr _ => 1 | PSend _ => 10 | PCount => 2
  | PExit => 0
  end.
Definition m_work (pc : mut_pc) : nat :=
  match pc with
  | MRecv => 1 | MCheck _ => 7 | MIgnore => 2 | MToEdge _ => 6 | MSetErr _ => 1
  | MGet _ => 5 | MMutate _ _ => 4 | MDecr _ => 3 | MCount => 2 | MExit => 0
  end.

(** A bound on the steps left to the return of [LoadEdges] when [ToEdge]
    does not fail: three for the line source, four for a parse worker and
    seven for a mutation worker on every line. *)
Definition work (y : sys) : nat :=
  (reader_work (rdr y)
   + 11 * (length (window_lines (rdr y)) + length (rlines (rdr y))
           + length (items (input (st y))))
   + sum_list_with p_work (pws y)
   + 7 * length (items (cnq (st y)))
   + sum_list_with m_work (mws y)
   + (4 - co_rank (co y)))%nat.

(** Workers about to register an error. *)
Definition p_failing (pc : parse_pc) : nat := match pc with PSetErr _ => 1 | _ => 0 end.
Definition m_failing (pc : mut_pc) : nat := match pc with MSetErr _ => 1 | _ => 0 end.

(** An action in which [nq.ToEdge()], if called, gives an edge. *)
Definition edge_given (a : action) : Prop :=
  match a with AMut _ (inr _) => False | _ => True end.

(** ** Reasoning about runs *)

Lemma run_app acts1 acts2 y y1 tr1 :
  run acts1 y = Some (y1, tr1) ->
  run (acts1 ++ acts2) y =
    match run acts2 y1 with
    | Some (y2, tr2) => Some (y2, tr1 ++ tr2)
    | None => None
    end.
Proof.
  revert y y1 tr1. induction acts1 as [|a acts1 IH]; intros y y1 tr1 H; simpl in *.
  - injection H as <- <-. destruct (run acts2 y) as [[? ?]|]; reflexivity.
  - destruct (step a y) as [[y' evs]|]; [|discriminate].
    destruct (run acts1 y') as [[y'' evs']|] eqn:E; [|discriminate].
    injection H as <- <-. rewrite (IH _ _ _ E).
    destruct (run acts2 y'') as [[? ?]|]; [|reflexivity].
    by rewrite app_assoc.
Qed.

Lemma run_cons_inv a acts y y' tr :
  run (a :: acts) y = Some (y', tr) ->
  exists y1 evs tr', step a y = Some (y1, evs) /\ run acts y1 = Some (y', tr')
    /\ tr = evs ++ tr'.
Proof.
  simpl. destruct (step a y) as [[y1 evs]|] eqn:Hs; [|done].
  destruct (run acts y1) as [[y2 tr']|] eqn:Hr; [|done].
  intros [= <- <-]. by exists y1, evs, tr'.
Qed.

Lemma reach_trans y0 y1 y2 tr1 tr2 :
  reach y0 y1 tr1 -> reach y1 y2 tr2 -> reach y0 y2 (tr1 ++ tr2).
Proof.
  intros H1 H2. induction H2 as [|a y tr y' evs _ IH Hs].
  - by rewrite app_nil_r.
  - rewrite app_assoc. by eapply reach_step.
Qed.

Lemma run_reach acts y0 y tr : run acts y0 = Some (y, tr) -> reach y0 y tr.
Proof.
  revert y0 y tr. induction acts as [|a acts IH]; intros y0 y tr H; simpl in H.
  - injection H as <- <-. constructor.
  - destruct (step a y0) as [[y' evs]|] eqn:Hs; [|discriminate].
    destruct (run acts y') as [[y'' evs']|] eqn:E; [|discriminate].
    injection H as <- <-.
    eapply (reach_trans _ y'); [|by apply IH].
    change evs with ([] ++ evs). eapply reach_step; [constructor|done].
Qed.

Lemma reach_run y0 y tr : reach y0 y tr -> exists acts, run acts y0 = Some (y, tr).
Proof.
  induction 1 as [|a y tr y' evs _ [acts IH] Hs].
  - by exists [].
  - exists (acts ++ [a]). rewrite (run_app _ _ _ _ _ IH). simpl. by rewrite Hs, app_nil_r.
Qed.

(** Sums over the workers. *)
Lemma sum_insert {A} (w : A -> nat) (l : list A) i x y :
  l !! i = Some x ->
  (sum_list_with w (<[i := y]> l) + w x = sum_list_with w l + w y)%nat.
Proof.
  revert i. induction l as [|a l IH]; intros [|i] H; simpl in *; try discriminate.
  - injection H as ->. lia.
  - specialize (IH _ H). lia.
Qed.

Lemma sum_replicate {A} (w : A -> nat) n x :
  sum_list_with w (replicate n x) = (n * w x)%nat.
Proof. induction n; simpl; lia. Qed.

Lemma forallb_sum {A} (f : A -> bool) (w : A -> nat) (l : list A) :
  (forall x, f x = true <-> w x = 0%nat) ->
  forallb f l = true <-> sum_list_with w l = 0%nat.
Proof.
  intros Hfw. induction l as [|a l IH]; simpl; [done|].
  rewrite andb_true_iff, IH, Hfw. lia.
Qed.

Lemma pwg_Wait l : forallb is_PExit l = true <-> sum_list_with p_alive l = 0%nat.
Proof. apply forallb_sum. intros []; simpl; split; done. Qed.

Lemma wg_Wait l : forallb is_MExit l = true <-> sum_list_with m_alive l = 0%nat.
Proof. apply forallb_sum. intros []; simpl; split; done. Qed.

Ltac unfold_steps H :=
  unfold step, die, by_thread, readLines_step, readLines_next, readLine,
    parseStream_step, handleNQuads_step, LoadEdges_step, owns, GetOrCreate,
    chan_send, chan_recv, chan_close, Error, SetError in H; simpl in H.

Ltac sum_ins :=
  repeat match goal with
  | H : ?l !! ?i = Some ?x |- context [sum_list_with ?w (<[?i:=?y]> ?l)] =>
      let E := fresh "E" in
      let n := fresh "n" in
      pose proof (sum_insert w l i x y H) as E; simpl in E;
      set (n := sum_list_with w (<[i:=y]> l)) in *; clearbody n
  | H : ?l !! ?i = Some ?x, H' : context [sum_list_with ?w (<[?i:=?y]> ?l)] |- _ =>
      let E := fresh "E" in
      let n := fresh "n" in
      pose proof (sum_insert w l i x y H) as E; simpl in E;
      set (n := sum_list_with w (<[i:=y]> l)) in *; clearbody n
  end.

Lemma sum_lookup {A} (w : A -> nat) (l : list A) i x :
  l !! i = Some x -> (w x <= sum_list_with w l)%nat.
Proof.
  revert i. induction l as [|a l IH]; intros [|i] H; simpl in *; try discriminate.
  - injection H as ->. lia.
  - specialize (IH _ H). lia.
Qed.

Ltac sum_look :=
  repeat match goal with
  | H : ?l !! ?i = Some ?x, S : context [sum_list_with ?w ?l] |- _ =>
      lazymatch goal with
      | _ : (w x <= sum_list_with w l)%nat |- _ => fail
      | _ => pose proof (sum_lookup w l i x H)
      end
  | H : ?l !! ?i = Some ?x |- context [sum_list_with ?w ?l] =>
      lazymatch goal with
      | _ : (w x <= sum_list_with w l)%nat |- _ => fail
      | _ => pose proof (sum_lookup w l i x H)
      end
  end.

Ltac waits :=
  repeat match goal with
  | H : forallb is_PExit _ = true |- _ => apply pwg_Wait in H
  | H : forallb is_MExit _ = true |- _ => apply wg_Wait in H
  end.

Ltac use_items :=
  repeat match goal with
  | H : items ?c = _ |- context [items ?c] => rewrite H
  | H : closed ?c = _ |- context [closed ?c] => rewrite H
  end.

Ltac step_cases H :=
  unfold_steps H; repeat case_match; simplify_eq; simpl in *; use_items.

(** ** The workers on one item *)

Lemma step_mut (y : sys) i pc ans :
  dead y = false -> mws y !! i = Some pc ->
  step (AMut i ans) y =
    match handleNQuads_step ans (st y) pc with
    | Step s pc' ops =>
        Some (Sys s (rdr y) (pws y) (<[i := pc']> (mws y)) (co y) false,
              by_thread (TMut i) ops)
    | Waits => None
    | Dies => Some (die (TMut i) y)
    end.
Proof. intros Hd Hi. unfold step. by rewrite Hd, Hi. Qed.

Lemma step_parse (y : sys) i pc :
  dead y = false -> pws y !! i = Some pc ->
  step (AParse i) y =
    match parseStream_step (st y) pc with
    | Step s pc' ops =>
        Some (Sys s (rdr y) (<[i := pc']> (pws y)) (mws y) (co y) false,
              by_thread (TParse i) ops)
    | Waits => None
    | Dies => Some (die (TParse i) y)
    end.
Proof. intros Hd Hi. unfold step. by rewrite Hd, Hi. Qed.

Lemma run_cons a acts y y1 tr1 :
  step a y = Some (y1, tr1) ->
  run (a :: acts) y =
    match run acts y1 with
    | Some (y2, tr2) => Some (y2, tr1 ++ tr2)
    | None => None
    end.
Proof. intros H. simpl. by rewrite H. Qed.

(** A transient failure of [nq.ToEdge()] leaves everything as it was: the
    worker sleeps and calls again. *)
Lemma retry_step (y : sys) i nq :
  dead y = false -> mws y !! i = Some (MToEdge nq) ->
  step (AMut i (inr E_TMP_ERROR)) y =
    Some (y, by_thread (TMut i) [OpToEdge nq; OpSleep]).
Proof.
  intros Hd Hi. rewrite (step_mut _ _ _ _ Hd Hi). simpl.
  rewrite list_insert_id by done. destruct y; simpl in *. by subst.
Qed.

Lemma retry_run (y : sys) i nq k :
  dead y = false -> mws y !! i = Some (MToEdge nq) ->
  run (replicate k (AMut i (inr E_TMP_ERROR))) y =
    Some (y, by_thread (TMut i) (retries nq k)).
Proof.
  intros Hd Hi. induction k as [|k IH]; simpl; [done|].
  rewrite (retry_step _ _ _ Hd Hi).
  fold (replicate k (AMut i (inr (B:=error) (A:=Edge) E_TMP_ERROR))).
  by rewrite IH.
Qed.

Local Arguments run : simpl never.
Local Arguments step : simpl never.

Lemma lookup_insert_here {A} (l : list A) i x y :
  l !! i = Some x -> <[i := y]> l !! i = Some y.
Proof. intros H. apply list_lookup_insert_eq. by eapply lookup_lt_Some. Qed.

Lemma run_mut acts (y : sys) i pc ans s pc' ops :
  dead y = false -> mws y !! i = Some pc ->
  handleNQuads_step ans (st y) pc = Step s pc' ops ->
  run (AMut i ans :: acts) y =
    match run acts (Sys s (rdr y) (pws y) (<[i := pc']> (mws y)) (co y) false) with
    | Some (y2, tr2) => Some (y2, by_thread (TMut i) ops ++ tr2)
    | None => None
    end.
Proof. intros Hd Hi Hs. apply run_cons. by rewrite (step_mut _ _ _ _ Hd Hi), Hs. Qed.

Lemma run_parse acts (y : sys) i pc s pc' ops :
  dead y = false -> pws y !! i = Some pc ->
  parseStream_step (st y) pc = Step s pc' ops ->
  run (AParse i :: acts) y =
    match run acts (Sys s (rdr y) (<[i := pc']> (pws y)) (mws y) (co y) false) with
    | Some (y2, tr2) => Some (y2, by_thread (TParse i) ops ++ tr2)
    | None => None
    end.
Proof. intros Hd Hi Hs. apply run_cons. by rewrite (step_parse _ _ _ Hd Hi), Hs. Qed.

(** Runs the next action of a schedule, which is a step of worker [i]
    standing at a known control point. *)
Ltac mut_step :=
  erewrite run_mut;
  [| done | first [ eassumption | by eapply lookup_insert_here ]
   | simpl; unfold Error in *;
     try match goal with H : is_tmp _ = _ |- _ => rewrite H end;
     try match goal with H : err _ = _ |- _ => rewrite H end;
     try match goal with H : owns _ _ = _ |- _ => rewrite H end;
     reflexivity ];
  simpl; rewrite ?list_insert_insert_eq.

Ltac parse_step :=
  erewrite run_parse;
  [| done | first [ eassumption | by eapply lookup_insert_here ]
   | simpl; unfold Error in *;
     try match goal with H : err _ = _ |- _ => rewrite H end;
     reflexivity ];
  simpl; rewrite ?list_insert_insert_eq.

(** *** A worker among the others *)

Lemma ops_of_own t ops : ops_of t (by_thread t ops) = ops.
Proof.
  assert (Ht : thread_eqb t t = true) by (destruct t; simpl; lia).
  induction ops as [|o ops IH]; [done|].
  change (ops_of t (by_thread t (o :: ops)))
    with (match (if thread_eqb t t then Some o else None) with
          | Some x => x :: ops_of t (by_thread t ops)
          | None => ops_of t (by_thread t ops)
          end).
  by rewrite Ht, IH.
Qed.

Lemma ops_of_other t t' ops : thread_eqb t' t = false -> ops_of t (by_thread t' ops) = [].
Proof.
  intros Ht. induction ops as [|o ops IH]; [done|].
  change (ops_of t (by_thread t' (o :: ops)))
    with (match (if thread_eqb t' t then Some o else None) with
          | Some x => x :: ops_of t (by_thread t' ops)
          | None => ops_of t (by_thread t' ops)
          end).
  by rewrite Ht, IH.
Qed.

Lemma ops_of_split t tr1 tr2 : ops_of t (tr1 ++ tr2) = ops_of t tr1 ++ ops_of t tr2.
Proof. apply omap_app. Qed.

(** A step of another goroutine leaves worker [i] where it is and adds
    nothing to its calls. *)
Lemma step_frame a y y' evs i :
  step a y = Some (y', evs) ->
  (forall ans, a <> AMut i ans) ->
  mws y' !! i = mws y !! i /\ ops_of (TMut i) evs = [].
Proof.
  intros Hs Hne. unfold step, die in Hs.
  destruct (dead y); [done|]. destruct a as [k|j|j ans|].
  - destruct (readLines_step _ _ _ _); simplify_eq; simpl; split; try done.
    by apply ops_of_other.
  - destruct (pws y !! j); [|done].
    destruct (parseStream_step _ _); simplify_eq; simpl; split; try done.
    by apply ops_of_other.
  - assert (Hj : j <> i) by (intros ->; by eapply Hne).
    assert (Ht : thread_eqb (TMut j) (TMut i) = false) by (simpl; lia).
    destruct (mws y !! j); [|done].
    destruct (handleNQuads_step _ _ _); simplify_eq; simpl.
    + split; [by apply list_lookup_insert_ne|by apply ops_of_other].
    + split; [done|]. unfold ops_of. simpl.
      destruct (Nat.eqb_spec j i); [done|done].
  - destruct (LoadEdges_step y); simplify_eq; simpl; split; try done.
    by apply ops_of_other.
Qed.

Lemma run_dead acts y y' tr :
  dead y = true -> run acts y = Some (y', tr) -> acts = [].
Proof.
  intros Hd Hr. destruct acts as [|a acts]; [done|].
  apply run_cons_inv in Hr as (y1 & evs & tr' & Hs & _).
  unfold step in Hs. by rewrite Hd in Hs.
Qed.

(** In every run, through every interleaving, the calls of worker [i] are
    a path of [handleNQuads] over the answers it was given. *)
Lemma worker_path acts y y' tr i pc :
  run acts y = Some (y', tr) ->
  mws y !! i = Some pc ->
  exists pc', mws y' !! i = Some pc'
    /\ wpath pc (answers_of i acts) (ops_of (TMut i) tr) pc'.
Proof.
  revert y tr pc. induction acts as [|a acts IH]; intros y tr pc Hr Hi.
  - injection Hr as <- <-. exists pc. split; [done|constructor].
  - apply run_cons_inv in Hr as (y1 & evs & tr' & Hs & Hr & ->).
    rewrite ops_of_split.
    destruct a as [k|j|j ans|].
    1,2,4: destruct (step_frame _ _ _ _ i Hs ltac:(done)) as [Hm ->];
           rewrite <- Hm in Hi; exact (IH _ _ _ Hr Hi).
    destruct (Nat.eqb_spec j i) as [->|Hne].
    + unfold answers_of. simpl. rewrite Nat.eqb_refl. fold (answers_of i acts).
      assert (Hd : dead y = false).
      { unfold step in Hs. by destruct (dead y). }
      rewrite (step_mut _ _ _ _ Hd Hi) in Hs.
      destruct (handleNQuads_step ans (st y) pc) as [s1 pc1 ops| |] eqn:Hw;
        simplify_eq.
      * destruct (IH _ _ pc1 Hr) as (pc' & Hi' & Hp).
        { simpl. by eapply lookup_insert_here. }
        exists pc'. split; [done|]. rewrite ops_of_own. by econstructor.
      * unfold die in Hs. injection Hs as <- <-.
        assert (acts = []) as -> by (eapply run_dead; [|exact Hr]; done).
        injection Hr as <- <-. exists pc. split; [done|].
        unfold ops_of. simpl. rewrite Nat.eqb_refl. simpl.
        by eapply wpath_die.
    + destruct (step_frame _ _ _ _ i Hs) as [Hm ->].
      { intros ans' [= ? ?]. done. }
      unfold answers_of. simpl.
      destruct (Nat.eqb_spec j i) as [|_]; [done|]. fold (answers_of i acts).
      rewrite <- Hm in Hi. exact (IH _ _ _ Hr Hi).
Qed.

Ltac wpath_inv :=
  repeat match goal with
  | H : wpath _ (_ :: _) _ _ |- _ =>
      inversion H; clear H; simplify_eq; simpl in *; simplify_eq
  | H : wpath _ [] _ _ |- _ =>
      inversion H; clear H; simplify_eq
  end.

(** The path of the retry loop over [k] transient failures and an edge. *)
Lemma retry_path nq k e a1 a2 a3 a4 ops pc' :
  wpath (MToEdge nq)
    (replicate k (inr E_TMP_ERROR) ++ [inl e; a1; a2; a3; a4]) ops pc' ->
  pc' = MRecv /\
  exists h, ops = retries nq k ++
    [OpToEdge nq; OpGetOrCreate h (posting_Key e); OpAddMutation h e;
     OpDecr h; OpAdd c_processed].
Proof.
  revert ops. induction k as [|k IH]; intros ops Hp; simpl in Hp.
  - wpath_inv. split; [done|]. by eexists.
  - inversion Hp as [|? ? s1 ? ? ? ? ? ? H1 Hp1|]; simplify_eq.
    simpl in H1. simplify_eq.
    destruct (IH _ Hp1) as [-> [h ->]]. split; [done|]. by exists h.
Qed.

(** The same over [k] transient failures and another error. *)
Lemma failure_path nq k f a1 ops pc' :
  is_tmp f = false ->
  wpath (MToEdge nq) (replicate k (inr E_TMP_ERROR) ++ [inr f; a1]) ops pc' ->
  pc' = MExit /\ ops = retries nq k ++ [OpToEdge nq; OpSetError f].
Proof.
  intros Hf. revert ops. induction k as [|k IH]; intros ops Hp; simpl in Hp.
  - inversion Hp as [|? ? s1 ? ? ? ? ? ? H1 Hp1|]; simplify_eq.
    simpl in H1. rewrite Hf in H1. simplify_eq. wpath_inv. done.
  - inversion Hp as [|? ? s1 ? ? ? ? ? ? H1 Hp1|]; simplify_eq.
    simpl in H1. simplify_eq.
    destruct (IH _ Hp1) as [-> ->]. done.
Qed.

(** C6. Retry convergence.  A mutation worker holds a triple [nq] that this
    instance owns, with the error register empty.  If [nq.ToEdge()] fails
    with [posting.E_TMP_ERROR] exactly [k] times and then gives the edge
    [e], the retry loop ends after those [k + 1] calls, the worker takes the
    lease, applies the mutation, releases the lease and increments
    [processed] once, and is back at the head of its loop: the final state
    and the whole trace are given.  If instead the call after the [k]
    transient failures fails with another error [f], the worker records [f]
    with [SetError] and returns, and [processed] is not touched.  Whatever
    the other goroutines do in between, the calls of a worker that stands
    at [nq.ToEdge()] and gets these answers are the same: [k] failed
    attempts, then the edge, one lease, one mutation, one release and one
    increment of [processed]; or [k] failed attempts, the failure and
    [SetError]. *)
Theorem retry_converges (y : sys) (i : nat) (nq : NQuad) (k : nat)
    (e : Edge) (f : error) (a : Edge + error) :
  dead y = false ->
  mws y !! i = Some (MCheck nq) ->
  Error (st y) = None ->
  owns (st y) nq = Some true ->
  let tmp := AMut i (inr E_TMP_ERROR) in
  let h := dataStore (st y) in
  run (AMut i a :: replicate k tmp ++ AMut i (inl e) :: replicate 4 (AMut i a)) y =
    Some (Sys (add_counter c_processed (set_dataStore (st y) (S h)))
              (rdr y) (pws y) (<[i := MRecv]> (mws y)) (co y) false,
          by_thread (TMut i)
            (retries nq k ++
             [OpToEdge nq; OpGetOrCreate h (posting_Key e); OpAddMutation h e;
              OpDecr h; OpAdd c_processed]))
  /\ processed (ctr (add_counter c_processed (set_dataStore (st y) (S h))))
     = AddUint64 (processed (ctr (st y))) 1
  /\ (is_tmp f = false ->
      run (AMut i a :: replicate k tmp ++ [AMut i (inr f); AMut i a]) y =
        Some (Sys (SetError (st y) (Some f))
                  (rdr y) (pws y) (<[i := MExit]> (mws y)) (co y) false,
              by_thread (TMut i) (retries nq k ++ [OpToEdge nq; OpSetError f]))
      /\ Error (SetError (st y) (Some f)) = Some f
      /\ ctr (SetError (st y) (Some f)) = ctr (st y))
  /\ (forall y1 acts y' tr a1 a2 a3 a4,
      mws y1 !! i = Some (MToEdge nq) ->
      run acts y1 = Some (y', tr) ->
      answers_of i acts = replicate k (inr E_TMP_ERROR) ++ [inl e; a1; a2; a3; a4] ->
      mws y' !! i = Some MRecv
      /\ exists h',
          ops_of (TMut i) tr =
            retries nq k ++
            [OpToEdge nq; OpGetOrCreate h' (posting_Key e); OpAddMutation h' e;
             OpDecr h'; OpAdd c_processed])
  /\ (forall y1 acts y' tr a1,
      is_tmp f = false ->
      mws y1 !! i = Some (MToEdge nq) ->
      run acts y1 = Some (y', tr) ->
      answers_of i acts = replicate k (inr E_TMP_ERROR) ++ [inr f; a1] ->
      mws y' !! i = Some MExit
      /\ ops_of (TMut i) tr = retries nq k ++ [OpToEdge nq; OpSetError f]).
Proof.
  intros Hd Hi He Ho tmp h.
  assert (Hfirst : step (AMut i a) y =
            Some (Sys (st y) (rdr y) (pws y) (<[i := MToEdge nq]> (mws y)) (co y) false, [])).
  { rewrite (step_mut _ _ _ _ Hd Hi). unfold handleNQuads_step. by rewrite He, Ho. }
  pose proof (lookup_insert_here _ _ _ (MToEdge nq) Hi) as Hi'.
  split; [|split; [done|split; [intros Hf; split; [|split]|split]]].
  - rewrite (run_cons _ _ _ _ _ Hfirst).
    erewrite run_app by (by apply retry_run).
    do 5 mut_step.
    unfold by_thread. rewrite !map_app. simpl. by rewrite <- ?app_assoc.
  - rewrite (run_cons _ _ _ _ _ Hfirst).
    erewrite run_app by (by apply retry_run).
    do 2 mut_step.
    unfold by_thread. rewrite !map_app. simpl. by rewrite <- ?app_assoc.
  - unfold Error, SetError. unfold Error in He. by rewrite He.
  - unfold SetError. unfold Error in He. by rewrite He.
  - intros y1 acts y' tr a1 a2 a3 a4 H1 Hrun Hans.
    destruct (worker_path _ _ _ _ _ _ Hrun H1) as (pc' & Hpc & Hp).
    rewrite Hans in Hp. apply retry_path in Hp as [-> Hops]. by split.
  - intros y1 acts y' tr a1 Hf H1 Hrun Hans.
    destruct (worker_path _ _ _ _ _ _ Hrun H1) as (pc' & Hpc & Hp).
    rewrite Hans in Hp. apply (failure_path _ _ _ _ _ _ Hf) in Hp as [-> Hops].
    by split.
Qed.

(** C1. The sharding rule.  A mutation worker has dequeued the triple [nq]
    with the register empty and [numInstances >= 1].  The triple is owned
    exactly when the 64-bit fingerprint of its predicate modulo
    [numInstances] equals [instanceIdx]; an owned triple goes on to edge
    construction; for a triple that is not owned the worker's next two steps
    increment [ignored] and nothing else, and bring it back to the head of
    its loop.  For a fixed predicate and [numInstances], exactly one
    [instanceIdx] in [[0, numInstances)] owns the triple. *)
Theorem sharding_rule (y : sys) (i : nat) (nq : NQuad) (a1 a2 : Edge + error) :
  dead y = false ->
  mws y !! i = Some (MCheck nq) ->
  Error (st y) = None ->
  1 <= numInstances (st y) ->
  let n := numInstances (st y) in
  let h := u64 (Fingerprint64 (Predicate nq)) in
  (owns (st y) nq = Some true <-> h mod n = instanceIdx (st y))
  /\ (owns (st y) nq = Some false <-> h mod n <> instanceIdx (st y))
  /\ (owns (st y) nq = Some true ->
      step (AMut i a1) y =
        Some (Sys (st y) (rdr y) (pws y) (<[i := MToEdge nq]> (mws y)) (co y) false, []))
  /\ (owns (st y) nq = Some false ->
      run [AMut i a1; AMut i a2] y =
        Some (Sys (add_counter c_ignored (st y))
                  (rdr y) (pws y) (<[i := MRecv]> (mws y)) (co y) false,
              [(TMut i, OpAdd c_ignored)]))
  /\ (exists idx, 0 <= idx < n
        /\ owns (as_instance (st y) idx n) nq = Some true
        /\ forall idx', owns (as_instance (st y) idx' n) nq = Some true -> idx' = idx).
Proof.
  intros Hd Hi He Hn n h.
  assert (Hz : (n =? 0) = false) by (subst n; lia).
  assert (Ho : owns (st y) nq = Some (h mod n =? instanceIdx (st y))).
  { unfold owns. fold n. by rewrite Hz. }
  split; [|split; [|split; [|split]]].
  - rewrite Ho. split; [intros [= H]|intros H; f_equal]; lia.
  - rewrite Ho. split; [intros [= H]|intros H; f_equal]; lia.
  - intros Ht. rewrite (step_mut _ _ _ _ Hd Hi). unfold handleNQuads_step.
    by rewrite He, Ht.
  - intros Hf. do 2 mut_step. done.
  - exists (h mod n). split; [apply Z.mod_pos_bound; lia|].
    unfold owns, as_instance; simpl. rewrite Hz. split.
    + f_equal. apply Z.eqb_refl.
    + intros idx' [= H]. apply Z.eqb_eq in H. by subst h n.
Qed.

(** C9. The modulo of line 209 is not guarded.  With [numInstances = 0] a
    mutation worker that has dequeued a triple and found the register empty
    divides by zero on its next step, which takes the process down: no
    goroutine takes a step after it.  With [numInstances <> 0] that step
    never does. *)
Theorem modulo_by_zero (y : sys) (i : nat) (nq : NQuad) (ans : Edge + error) :
  dead y = false ->
  mws y !! i = Some (MCheck nq) ->
  Error (st y) = None ->
  (numInstances (st y) = 0 <-> owns (st y) nq = None)
  /\ (numInstances (st y) = 0 ->
      step (AMut i ans) y = Some (die (TMut i) y)
      /\ dead (die (TMut i) y).1 = true
      /\ forall a, step a (die (TMut i) y).1 = None)
  /\ (numInstances (st y) <> 0 ->
      exists pc, (pc = MIgnore \/ pc = MToEdge nq)
        /\ step (AMut i ans) y =
             Some (Sys (st y) (rdr y) (pws y) (<[i := pc]> (mws y)) (co y) false, [])).
Proof.
  intros Hd Hi He. split; [|split].
  - unfold owns. destruct (Z.eqb_spec (numInstances (st y)) 0); split; done.
  - intros Hz. split; [|split; [done|done]].
    rewrite (step_mut _ _ _ _ Hd Hi). unfold handleNQuads_step, owns.
    by rewrite He, Hz.
  - intros Hz. rewrite (step_mut _ _ _ _ Hd Hi). unfold handleNQuads_step, owns.
    rewrite He. destruct (Z.eqb_spec (numInstances (st y)) 0) as [|_]; [done|].
    destruct (_ =? instanceIdx (st y)); eauto.
Qed.

(** With the register set, a worker at the head of its loop still takes
    the next item off its queue and then returns. *)
Lemma error_discards_item (y : sys) (i : nat) (e : error) (a : Edge + error) :
  dead y = false ->
  Error (st y) = Some e ->
  (forall line rest,
     pws y !! i = Some PRecv ->
     items (input (st y)) = line :: rest ->
     run [AParse i; AParse i] y =
       Some (Sys (set_input (st y)
                    (Chan rest (capacity (input (st y))) (closed (input (st y)))))
                 (rdr y) (<[i := PExit]> (pws y)) (mws y) (co y) false, []))
  /\ (forall nq rest,
     mws y !! i = Some MRecv ->
     items (cnq (st y)) = nq :: rest ->
     run [AMut i a; AMut i a] y =
       Some (Sys (set_cnq (st y)
                    (Chan rest (capacity (cnq (st y))) (closed (cnq (st y)))))
                 (rdr y) (pws y) (<[i := MExit]> (mws y)) (co y) false, [])).
Proof.
  intros Hd He. split.
  - intros line rest Hi Hq.
    erewrite run_parse; [| done | done | unfold parseStream_step, chan_recv; by rewrite Hq ].
    parse_step. done.
  - intros nq rest Hi Hq.
    erewrite run_mut; [| done | done | unfold handleNQuads_step, chan_recv; by rewrite Hq ].
    mut_step. done.
Qed.
(** *** Invariants of the runs of [LoadEdges] *)

Section Invariants.

Variable lines : list string.
Variable lend : io_error.
Variables idx n : Z.

Local Abbreviation y0 := (LoadEdges_start lines lend idx n).

Lemma inv_ctl_reach y tr : reach y0 y tr -> inv_ctl y.
Proof.
  induction 1 as [|a y tr y' evs _ IH Hs].
  - unfold inv_ctl; simpl. repeat split; try lia; try done.
  - destruct y as [[inp cn ct ii ni er ds] [rl re bf pc] pw mw c d].
    destruct IH as (I1 & I2 & I3 & I4); simpl in *.
    step_cases Hs; waits.
    all: unfold inv_ctl; simpl.
    all: split; [|split; [|split]]; try done; try congruence.
    all: try (intros; sum_ins; sum_look; simpl in *; lia).
    all: try (intros k0 e0 ->; simpl in *; sum_ins; sum_look;
              simpl in *; exfalso; lia).
    all: try (intros k0 e0; injection 1 as <- <-; done).
Qed.

Lemma set_errors_app tr1 tr2 : set_errors (tr1 ++ tr2) = set_errors tr1 ++ set_errors tr2.
Proof. apply omap_app. Qed.

Lemma inv_err_reach y tr : reach y0 y tr -> inv_err y tr.
Proof.
  induction 1 as [|a y tr y' evs _ IH Hs]; [done|].
  destruct y as [[inp cn ct ii ni er ds] [rl re bf pc] pw mw c d].
  unfold inv_err in *; simpl in *.
  step_cases Hs; rewrite set_errors_app; simpl; rewrite ?app_nil_r; try done.
  all: unfold set_err; simpl; destruct (set_errors tr); simpl in *; congruence.
Qed.

Lemma adds_app c tr1 tr2 : adds c (tr1 ++ tr2) = (adds c tr1 + adds c tr2)%nat.
Proof. apply sum_list_with_app. Qed.

Lemma AddUint64_count a : AddUint64 (u64 (Z.of_nat a)) 1 = u64 (Z.of_nat (a + 1)).
Proof.
  unfold AddUint64, u64. rewrite Zplus_mod_idemp_l. f_equal. lia.
Qed.

Lemma inv_ctr_reach y tr : reach y0 y tr -> inv_ctr y tr.
Proof.
  induction 1 as [|a y tr y' evs _ IH Hs]; [done|].
  destruct y as [[inp cn [cr cp cd ci] ii ni er ds] [rl re bf pc] pw mw c d].
  unfold inv_ctr in *; simpl in *. destruct IH as (-> & -> & -> & ->).
  step_cases Hs; rewrite !adds_app; simpl; rewrite ?Nat.add_0_r, ?AddUint64_count; done.
Qed.

Lemma inv_flow_reach y tr : reach y0 y tr -> inv_flow y tr.
Proof.
  induction 1 as [|a y tr y' evs _ IH Hs].
  - unfold inv_flow; simpl. rewrite !sum_replicate; simpl. lia.
  - destruct y as [[inp cn ct ii ni er ds] [rl re bf pc] pw mw c d].
    destruct IH as [I1 I2]. unfold inv_flow in *; simpl in *.
    step_cases Hs; rewrite !adds_app; simpl; rewrite ?length_app; simpl.
    all: sum_ins; simpl in *; split; [lia|].
    all: intros He; try specialize (I2 He); try discriminate; lia.
Qed.

Lemma sent_lines_app tr1 tr2 : sent_lines (tr1 ++ tr2) = sent_lines tr1 ++ sent_lines tr2.
Proof. apply omap_app. Qed.

Lemma inv_lines_reach y tr : reach y0 y tr -> inv_lines y tr.
Proof.
  induction 1 as [|a y tr y' evs _ IH Hs].
  - unfold inv_lines; simpl. rewrite !sum_replicate; simpl. lia.
  - destruct y as [[inp cn ct ii ni er ds] [rl re bf pc] pw mw c d].
    unfold inv_lines in *; simpl in *.
    step_cases Hs; rewrite !adds_app, sent_lines_app; simpl; rewrite ?length_app; simpl.
    all: sum_ins; simpl in *; lia.
Qed.

Lemma inv_exit_reach y tr : reach y0 y tr -> inv_exit y.
Proof.
  induction 1 as [|a y tr y' evs _ IH Hs].
  - unfold inv_exit; simpl. rewrite !sum_replicate; simpl. intros _ Hx. exfalso. lia.
  - destruct y as [[inp cn ct ii ni er ds] [rl re bf pc] pw mw c d].
    unfold inv_exit in *; simpl in *.
    step_cases Hs; try done.
    all: intros He Hx; sum_ins; simpl in *.
    all: try (apply IH; solve [done | lia]).
    all: try (exfalso; lia).
    all: try (destruct IH as [IHa IHb]; [done | lia | simpl in *; congruence]).
    all: try done.
Qed.

Lemma insert_swap_out {A} (l : list A) k x z :
  l !! k = Some x -> x :: <[k := z]> l ≡ₚ l ++ [z].
Proof.
  revert k. induction l as [|a l IH]; intros [|k] H; simpl in *; try discriminate.
  - injection H as ->. by rewrite <- Permutation_cons_append.
  - rewrite perm_swap. by rewrite IH.
Qed.

Lemma inv_reader_reach y tr : reach y0 y tr -> inv_reader lines lend y tr.
Proof.
  induction 1 as [|a y tr y' evs _ IH Hs]; [done|].
  destruct y as [[inp cn ct ii ni er ds] [rl re bf pc] pw mw c d].
  destruct IH as (I1 & I2 & I3 & I4). unfold inv_reader in *; simpl in *.
  unfold window_lines in *; simpl in *.
  destruct pc; step_cases Hs; rewrite sent_lines_app; simpl; rewrite ?app_nil_r in *.
  all: simplify_eq; simpl in *.
  all: split; [|split; [|split]]; try done; try congruence.
  all: try (rewrite <- I1, <- ?app_assoc; simpl; done).
  all: try (rewrite length_app; simpl; lia).
  all: try (rewrite <- I1, <- ?app_assoc; apply Permutation_app_head;
            rewrite !app_assoc; apply Permutation_app_tail; simpl;
            by apply insert_swap_out).
  all: try (intros E; apply (f_equal length) in E; rewrite length_insert in E;
            simpl in E; lia).
  all: try (erewrite drop_S in I1 by done; rewrite <- I1, <- ?app_assoc; done).
  all: try (rewrite drop_ge in I1 by (by apply lookup_ge_None); by rewrite app_nil_r in I1).
  all: lia.
Qed.
(** *** Leases on posting lists *)

Lemma lease_run_app l ops1 ops2 :
  lease_run l (ops1 ++ ops2) =
    match lease_run l ops1 with
    | Some l' => lease_run l' ops2
    | None => None
    end.
Proof.
  revert l. induction ops1 as [|o ops1 IH]; intros l; simpl; [done|].
  destruct (lease_op l o); [apply IH | done].
Qed.

Lemma ops_of_app t tr1 tr2 : ops_of t (tr1 ++ tr2) = ops_of t tr1 ++ ops_of t tr2.
Proof. apply omap_app. Qed.

Lemma gets_app h tr1 tr2 : gets h (tr1 ++ tr2) = (gets h tr1 + gets h tr2)%nat.
Proof. apply sum_list_with_app. Qed.

Lemma decrs_app h tr1 tr2 : decrs h (tr1 ++ tr2) = (decrs h tr1 + decrs h tr2)%nat.
Proof. apply sum_list_with_app. Qed.

Ltac lease_worker I1 :=
  let i0 := fresh "i0" in
  let pc0 := fresh "pc0" in
  let Hl := fresh "Hl" in
  intros i0 pc0 Hl; rewrite ops_of_app, lease_run_app; simpl;
  try (rewrite (I1 _ _ Hl); by rewrite ?app_nil_r);
  match goal with
  | Hi : ?mw !! ?i = Some _ |- _ =>
      destruct (Nat.eqb_spec i i0) as [->|Hne];
      [ first [ rewrite list_lookup_insert_eq in Hl by (by eapply lookup_lt_Some)
              | rewrite Hi in Hl ];
        injection Hl as <-; rewrite (I1 _ _ Hi); simpl; by rewrite ?Nat.eqb_refl
      | rewrite ?list_lookup_insert_ne in Hl by done;
        by rewrite (I1 _ _ Hl) ]
  end.

Lemma inv_lease_reach y tr : reach y0 y tr -> inv_lease y tr.
Proof.
  induction 1 as [|a y tr y' evs _ IH Hs].
  - split.
    + simpl. intros i pc Hl. apply lookup_replicate in Hl as [-> _]. done.
    + intros h. simpl. rewrite sum_replicate. simpl. lia.
  - destruct y as [[inp cn ct ii ni er ds] [rl re bf pc] pw mw c d].
    destruct IH as [I1 I2]. unfold inv_lease in *; simpl in *.
    step_cases Hs.
    all: split; [lease_worker I1|].
    all: intros h'; destruct (I2 h') as [G D]; rewrite gets_app, decrs_app; simpl.
    all: sum_ins; unfold is_get, is_decr; simpl in *; repeat case_match; lia.
Qed.


Lemma inv_len_reach y tr :
  reach y0 y tr ->
  length (pws y) = Pos.to_nat (gomaxprocs cfg) /\
  length (mws y) = Z.to_nat (maxRoutines cfg).
Proof.
  induction 1 as [|a y tr y' evs _ IH Hs].
  - simpl. by rewrite !length_replicate.
  - destruct y as [s r pw mw c d]. simpl in *.
    unfold step, die in Hs; simpl in Hs. repeat case_match; simplify_eq; simpl;
      rewrite ?length_insert; done.
Qed.

Lemma sum_zero_Forall {A} (w : A -> nat) (P : A -> Prop) (l : list A) :
  (forall x, w x = 0%nat <-> P x) ->
  sum_list_with w l = 0%nat <-> Forall P l.
Proof.
  intros Hw. induction l as [|a l IH]; simpl.
  - split; [constructor|done].
  - rewrite Forall_cons, <- IH, <- Hw. lia.
Qed.

Lemma sum_le {A} (f g : A -> nat) (l : list A) :
  (forall x, (f x <= g x)%nat) -> (sum_list_with f l <= sum_list_with g l)%nat.
Proof. intros H. induction l as [|a l IH]; simpl; [lia|]. specialize (H a). lia. Qed.

Lemma m_exited_alive (l : list mut_pc) :
  (sum_list_with m_exited l + sum_list_with m_alive l = length l)%nat.
Proof. induction l as [|[] l IH]; simpl; lia. Qed.

Lemma u64_small x : 0 <= x < 2 ^ 64 -> u64 x = x.
Proof. intros H. unfold u64. by apply Z.mod_small. Qed.

Lemma u64_add a b : u64 (a + b) = u64 (u64 a + u64 b).
Proof. unfold u64. apply Zplus_mod. Qed.

(** Every line that became a triple was one of the input's. *)
Lemma parsed_bounded y tr :
  reach y0 y tr ->
  (adds c_parsed tr + sum_list_with p_uncounted (pws y) <= length lines)%nat.
Proof.
  intros Hr. pose proof (inv_lines_reach _ _ Hr) as Hl.
  destruct (inv_reader_reach _ _ Hr) as [Hp _].
  apply Permutation_length in Hp. rewrite !length_app in Hp.
  unfold inv_lines in Hl. lia.
Qed.

Lemma co_done_step a y y' evs k e :
  step a y = Some (y', evs) -> co y = CDone k e -> co y' = CDone k e.
Proof.
  destruct y as [s r pw mw c d]. simpl. intros Hs ->.
  unfold step, die, LoadEdges_step in Hs; simpl in Hs.
  repeat case_match; by simplify_eq.
Qed.

Lemma co_done_run acts y y' tr k e :
  run acts y = Some (y', tr) -> co y = CDone k e -> co y' = CDone k e.
Proof.
  revert y tr. induction acts as [|a acts IH]; intros y tr H Hc.
  - injection H as <- <-. done.
  - apply run_cons_inv in H as (y1 & evs & tr' & Hs & Hr & ->).
    eapply IH; [done|]. by eapply co_done_step.
Qed.

(** C4. Shutdown order.  In every state of every run of [LoadEdges]: the
    triple queue is closed only when every parse worker has returned, so a
    parse worker never sends on a closed queue (its steps never panic); the
    coordinator is past [wg.Wait()] only when every mutation worker has
    returned; and once [LoadEdges] has returned [(k, e)], [k] is the value
    of the [processed] counter and [e] the content of the register, and
    they stay so whatever runs afterwards. *)
Theorem shutdown_order acts y tr :
  run acts y0 = Some (y, tr) ->
  (closed (cnq (st y)) = true -> Forall (fun pc => pc = PExit) (pws y))
  /\ (forall i y' evs, step (AParse i) y = Some (y', evs) -> dead y' = false)
  /\ ((3 <= co_rank (co y))%nat -> Forall (fun pc => pc = MExit) (mws y))
  /\ (forall k e, co y = CDone k e ->
        k = processed (ctr (st y)) /\ e = Error (st y) /\
        forall acts' y' tr', run acts' y = Some (y', tr') ->
          co y' = CDone k e /\ processed (ctr (st y')) = k /\ Error (st y') = e).
Proof.
  intros Hrun. pose proof (run_reach _ _ _ _ Hrun) as Hr.
  destruct (inv_ctl_reach _ _ Hr) as (I1 & I2 & I3 & I4).
  assert (Hclosed : closed (cnq (st y)) = true -> sum_list_with p_alive (pws y) = 0%nat).
  { intros Hc. apply I1. rewrite Hc in I3. destruct (co y); simpl in *; (done || lia). }
  split; [|split; [|split]].
  - intros Hc. apply (sum_zero_Forall p_alive); [by intros []|]. auto.
  - intros i y' evs Hs. destruct y as [s r pw mw c d]. simpl in *.
    step_cases Hs; try done.
    specialize (Hclosed eq_refl). sum_look. simpl in *. lia.
  - intros Hc. apply (sum_zero_Forall m_alive); [by intros []|]. auto.
  - intros k e Hc. destruct (I4 _ _ Hc) as [-> ->]. split; [done|split; [done|]].
    intros acts' y' tr' Hrun'.
    pose proof (co_done_run _ _ _ _ _ _ Hrun' Hc) as Hc'.
    assert (Hr' : reach y0 y' (tr ++ tr')).
    { eapply reach_trans; [done|]. by eapply run_reach. }
    destruct (inv_ctl_reach _ _ Hr') as (_ & _ & _ & I4').
    destruct (I4' _ _ Hc') as [E1 E2]. unfold Error in *.
    split; [done|]. split; congruence.
Qed.

(** C2, amended.  With at least one mutation worker ([*maxRoutines >= 1]),
    every run of [LoadEdges] that returns a nil error leaves the triple
    queue empty and the counters with [parsed == processed + ignored], in
    the [uint64] arithmetic of the counters and, for an input of fewer than
    [2^64] lines, as integers. *)
Theorem completed_run_counts acts y tr k :
  0 < maxRoutines cfg ->
  run acts y0 = Some (y, tr) ->
  co y = CDone k None ->
  let c := ctr (st y) in
  parsed c = u64 (processed c + ignored c)
  /\ (Z.of_nat (length lines) < 2 ^ 64 -> parsed c = processed c + ignored c)
  /\ items (cnq (st y)) = [].
Proof.
  intros Hm Hrun Hc c. pose proof (run_reach _ _ _ _ Hrun) as Hr.
  destruct (inv_ctl_reach _ _ Hr) as (I1 & I2 & _ & I4).
  destruct (I4 _ _ Hc) as [_ He]. symmetry in He.
  rewrite Hc in I1, I2. simpl in I1, I2.
  specialize (I1 ltac:(lia)). specialize (I2 ltac:(lia)).
  destruct (inv_len_reach _ _ Hr) as [_ Hlen].
  pose proof (m_exited_alive (mws y)) as Hx.
  destruct (inv_exit_reach _ _ Hr He ltac:(lia)) as [_ Hq].
  destruct (inv_flow_reach _ _ Hr) as [_ Hf]. specialize (Hf He).
  pose proof (sum_le p_uncounted p_alive (pws y) ltac:(intros []; simpl; lia)) as Hp.
  pose proof (sum_le m_holding m_alive (mws y) ltac:(intros []; simpl; lia)) as Hh.
  rewrite Hq in Hf. simpl in Hf.
  assert (Hn : adds c_parsed tr = (adds c_processed tr + adds c_ignored tr)%nat) by lia.
  destruct (inv_ctr_reach _ _ Hr) as (_ & Ep & Ed & Ei). fold c in Ep, Ed, Ei.
  split; [|split; [|done]].
  - rewrite Ep, Ed, Ei, <- u64_add, Hn. f_equal. lia.
  - intros Hlines. pose proof (parsed_bounded _ _ Hr) as Hb.
    rewrite Ep, Ed, Ei, !u64_small; lia.
Qed.

(** C7, amended.  For an input of fewer than [2^64] lines, in every state
    of every run [processed + ignored] is at most [parsed] plus the number
    of parse workers that have sent their triple (line 193) and not yet
    incremented [parsed] (line 194); so [parsed >= processed + ignored]
    holds whenever no parse worker stands between these two lines. *)
Theorem counters_order acts y tr :
  Z.of_nat (length lines) < 2 ^ 64 ->
  run acts y0 = Some (y, tr) ->
  let c := ctr (st y) in
  processed c + ignored c
    <= parsed c + Z.of_nat (sum_list_with p_uncounted (pws y))
  /\ (Forall (fun pc => pc <> PCount) (pws y) ->
      parsed c >= processed c + ignored c).
Proof.
  intros Hlines Hrun c. pose proof (run_reach _ _ _ _ Hrun) as Hr.
  destruct (inv_flow_reach _ _ Hr) as [Hf _].
  pose proof (parsed_bounded _ _ Hr) as Hb.
  destruct (inv_ctr_reach _ _ Hr) as (_ & Ep & Ed & Ei). fold c in Ep, Ed, Ei.
  rewrite !u64_small in Ep, Ed, Ei by lia.
  split; [lia|].
  intros Hall. apply (sum_zero_Forall p_uncounted) in Hall; [lia|].
  intros []; simpl; split; done.
Qed.

(** C3. The error register.  It is empty when [LoadEdges] starts; in every
    state of every run it holds the argument of the first [SetError] call of
    the run (nil if there was none); a register that holds an error keeps
    it through every later step; and what [LoadEdges] returns is that first
    error (or nil) together with the value of [processed].  As a function:
    after [SetError(e)] on an empty register, any further [SetError] calls
    leave [e] in it. *)
Theorem first_error_wins acts y tr :
  run acts y0 = Some (y, tr) ->
  Error (st y0) = None
  /\ Error (st y) = head (set_errors tr)
  /\ (forall e a y' evs,
        Error (st y) = Some e -> step a y = Some (y', evs) -> Error (st y') = Some e)
  /\ (forall k e, co y = CDone k e ->
        e = head (set_errors tr) /\ k = processed (ctr (st y)))
  /\ (forall (s : state) e args,
        Error s = None ->
        Error (SetError s (Some e)) = Some e /\
        Error (foldl SetError (SetError s (Some e)) args) = Some e).
Proof.
  intros Hrun. pose proof (run_reach _ _ _ _ Hrun) as Hr.
  pose proof (inv_err_reach _ _ Hr) as He. unfold inv_err in He.
  split; [done|]. split; [done|]. split; [|split].
  - intros e a y' evs Hy Hs.
    pose proof (inv_err_reach _ _ (reach_step _ _ _ _ _ _ Hr Hs)) as He'.
    unfold inv_err, Error in *. rewrite He', set_errors_app.
    rewrite Hy in He. by destruct (set_errors tr).
  - intros k e Hc. destruct (inv_ctl_reach _ _ Hr) as (_ & _ & _ & I4).
    destruct (I4 _ _ Hc) as [-> ->]. by rewrite He.
  - intros s e args Hs.
    assert (H1 : Error (SetError s (Some e)) = Some e).
    { unfold Error, SetError in *. by rewrite Hs. }
    split; [done|]. revert H1. generalize (SetError s (Some e)).
    induction args as [|a args IH]; intros s' H1; simpl; [done|].
    apply IH. unfold Error, SetError in *. by rewrite H1.
Qed.

(** C8. Leases.  In every state of every run, the calls of every mutation
    worker follow the lease discipline from the start and leave it where
    its control point says: a handle is taken with [GetOrCreate], then used
    by the one mutation, then released by [decr], with no other call of that
    worker in between, and a worker anywhere but between lines 231 and 233
    holds no lease.  No handle is given out twice or released twice, and a
    handle that was given out and that no worker holds any more has been
    released exactly once. *)
Theorem lease_released_once acts y tr :
  run acts y0 = Some (y, tr) ->
  (forall i pc, mws y !! i = Some pc ->
     lease_run LFree (ops_of (TMut i) tr) = Some (lease_of pc))
  /\ (forall h,
        (gets h tr <= 1)%nat /\ (decrs h tr <= gets h tr)%nat
        /\ (decrs h tr + sum_list_with (m_leases h) (mws y) = gets h tr)%nat)
  /\ (forall h,
        Forall (fun pc => m_leases h pc = 0%nat) (mws y) -> decrs h tr = gets h tr).
Proof.
  intros Hrun. pose proof (run_reach _ _ _ _ Hrun) as Hr.
  destruct (inv_lease_reach _ _ Hr) as [I1 I2].
  split; [done|]. split.
  - intros h. destruct (I2 h) as [G D]. repeat split; [|lia|done].
    rewrite G. case_match; lia.
  - intros h Hall. destruct (I2 h) as [_ D].
    apply (sum_zero_Forall (m_leases h)) in Hall; [lia|done].
Qed.

(** What the raw-line queue still has to take: the lines queued, in the
    window and unread. *)
Lemma reader_step_load k y y' evs tr :
  inv_reader lines lend y tr ->
  step (AReader k) y = Some (y', evs) ->
  capacity (input (st y')) = capacity (input (st y)) /\
  (length (items (input (st y'))) + length (window_lines (rdr y'))
     + length (rlines (rdr y'))
   <= length (items (input (st y))) + length (window_lines (rdr y))
     + length (rlines (rdr y)))%nat.
Proof.
  intros (_ & _ & _ & I4) Hs.
  destruct y as [[inp cn ct ii ni er ds] [rl re bf pc] pw mw c d]. simpl in *.
  unfold window_lines in *; simpl in *.
  destruct pc; step_cases Hs; simplify_eq; simpl in *.
  all: rewrite ?length_app, ?length_insert, ?length_drop; simpl.
  all: repeat match goal with
       | H : _ !! _ = Some _ |- _ => apply lookup_lt_Some in H
       | H : _ !! _ = None |- _ => apply lookup_ge_None in H
       end.
  all: split; [done|lia].
Qed.

(** The line source takes the process down only on a failing stream or on
    an empty window. *)
Lemma reader_never_dies k y y' evs tr :
  (1 <= window cfg)%nat -> lend = EOF ->
  reach y0 y tr ->
  step (AReader k) y = Some (y', evs) -> dead y' = false.
Proof.
  intros Hw Hend Hr Hs.
  destruct (inv_reader_reach _ _ Hr) as (I1 & I2 & I3 & I4).
  destruct y as [[inp cn ct ii ni er ds] [rl re bf pc] pw mw c d]. simpl in *.
  destruct pc; step_cases Hs; try done; try lia; try congruence.
  all: try (match goal with H : _ !! _ = None |- _ =>
              apply lookup_ge_None in H end; lia).
Qed.

(** While it is not done and the queue has room, the line source can take
    a step, and the step brings it nearer to the end. *)
Lemma reader_progress y tr :
  (1 <= window cfg)%nat -> lend = EOF ->
  reach y0 y tr ->
  dead y = false -> rpc (rdr y) <> RDone ->
  Z.of_nat (length (items (input (st y)))) < capacity (input (st y)) ->
  exists y' evs, step (AReader 0) y = Some (y', evs)
    /\ (reader_work (rdr y') < reader_work (rdr y))%nat.
Proof.
  intros Hw Hend Hr Hd Hpc Hroom.
  destruct (inv_reader_reach _ _ Hr) as (I1 & I2 & I3 & I4).
  destruct y as [[inp cn ct ii ni er ds] [rl re bf pc] pw mw c d]. simpl in *.
  subst d. unfold step, readLines_step, readLines_next, readLine, chan_send,
    chan_close, reader_work; simpl.
  destruct pc; simpl in *; subst; try done.
  all: repeat (case_match; simplify_eq; simpl in * ).
  all: repeat match goal with
       | H : _ !! _ = Some _ |- _ => apply lookup_lt_Some in H
       | H : _ !! _ = None |- _ => apply lookup_ge_None in H
       end.
  all: try (exfalso; simpl in *; lia); try congruence.
  all: eexists _, _; split; [done|]; simpl;
       rewrite ?length_app, ?length_insert; simpl; lia.
Qed.

(** With room in the queue for all that is left, the line source runs to
    the end on its own. *)
Lemma reader_completes m y tr :
  (1 <= window cfg)%nat -> lend = EOF ->
  reach y0 y tr ->
  dead y = false ->
  (reader_work (rdr y) <= m)%nat ->
  Z.of_nat (length (items (input (st y))) + length (window_lines (rdr y))
            + length (rlines (rdr y))) < capacity (input (st y)) ->
  exists acts y' tr', run acts y = Some (y', tr') /\ rpc (rdr y') = RDone.
Proof.
  intros Hw Hend. revert y tr.
  induction m as [|m IH]; intros y tr Hr Hd Hm Hload.
  - exists [], y, []. split; [done|].
    unfold reader_work in Hm. destruct (rpc (rdr y)); (done || lia).
  - destruct (is_RDone (rpc (rdr y))) eqn:Hpc.
    { exists [], y, []. split; [done|]. by destruct (rpc (rdr y)). }
    assert (Hnot : rpc (rdr y) <> RDone) by (intros E; by rewrite E in Hpc).
    destruct (reader_progress _ _ Hw Hend Hr Hd Hnot ltac:(lia))
      as (y1 & evs & Hs & Hlt).
    destruct (reader_step_load _ _ _ _ _ (inv_reader_reach _ _ Hr) Hs) as [Hc Hl].
    destruct (IH y1 (tr ++ evs)) as (acts & y2 & tr2 & Hrun & Hdone).
    + by eapply reach_step.
    + by eapply reader_never_dies.
    + lia.
    + rewrite Hc. lia.
    + exists (AReader 0 :: acts), y2, (evs ++ tr2). split; [|done].
      by rewrite (run_cons _ _ _ _ _ Hs), Hrun.
Qed.

(** C5. The line source keeps the multiset of lines.  For every window of
    at least one line and every input that ends in end-of-file, in every
    state of every run the lines sent on the raw-line queue, the lines in
    the window and the lines not read yet are a permutation of the input;
    once the line source has closed the queue, the lines sent are a
    permutation of the input.  The line source never takes the process
    down, and it gets there: while it is not done and the queue has room it
    can take a step that brings it nearer to the end, and with room in the
    queue for all that is left it runs to the end on its own. *)
Theorem line_source_keeps_lines acts y tr :
  (1 <= window cfg)%nat ->
  lend = EOF ->
  run acts y0 = Some (y, tr) ->
  sent_lines tr ++ window_lines (rdr y) ++ rlines (rdr y) ≡ₚ lines
  /\ (rpc (rdr y) = RDone -> sent_lines tr ≡ₚ lines)
  /\ (forall k y' evs, step (AReader k) y = Some (y', evs) -> dead y' = false)
  /\ (dead y = false -> rpc (rdr y) <> RDone ->
      Z.of_nat (length (items (input (st y)))) < capacity (input (st y)) ->
      exists y' evs, step (AReader 0) y = Some (y', evs)
        /\ (reader_work (rdr y') < reader_work (rdr y))%nat)
  /\ (dead y = false ->
      Z.of_nat (length (items (input (st y))) + length (window_lines (rdr y))
                + length (rlines (rdr y))) < capacity (input (st y)) ->
      exists acts' y' tr',
        run acts' y = Some (y', tr') /\ rpc (rdr y') = RDone
        /\ sent_lines (tr ++ tr') ≡ₚ lines).
Proof.
  intros Hw Hend Hrun. pose proof (run_reach _ _ _ _ Hrun) as Hr.
  assert (Hdone : forall y1 tr1, reach y0 y1 tr1 -> rpc (rdr y1) = RDone ->
             sent_lines tr1 ≡ₚ lines).
  { intros y1 tr1 Hr1 Hd. destruct (inv_reader_reach _ _ Hr1) as (I1 & _ & _ & I4).
    rewrite Hd in I4. unfold window_lines in I1.
    rewrite Hd, I4 in I1. by rewrite !app_nil_r in I1. }
  destruct (inv_reader_reach _ _ Hr) as (I1 & _).
  split; [done|]. split; [by apply Hdone|]. split; [|split].
  - intros k y' evs Hs. by eapply reader_never_dies.
  - intros Hd Hpc Hroom. by eapply reader_progress.
  - intros Hd Hload.
    destruct (reader_completes _ _ _ Hw Hend Hr Hd (le_n _) Hload)
      as (acts' & y' & tr' & Hrun' & Hd').
    exists acts', y', tr'. split; [done|]. split; [done|].
    apply (Hdone y'); [|done]. eapply reach_trans; [done|]. by eapply run_reach.
Qed.

(** C10. The register is read only after a dequeue.  In every state of
    every run with the register set: a parse worker at the head of its loop
    still takes the next line off the raw-line queue, and then returns; a
    mutation worker at the head of its loop still takes the next triple off
    the triple queue, and then returns.  The item is gone from its queue, no
    counter has moved and nothing else was done; so strictly fewer lines
    are queued, held or counted than were sent, and strictly fewer triples
    are queued, held, processed or ignored than were parsed. *)
Theorem error_checked_after_dequeue acts y tr (i : nat) (e : error)
    (a : Edge + error) :
  run acts y0 = Some (y, tr) ->
  dead y = false ->
  Error (st y) = Some e ->
  (forall line rest,
     pws y !! i = Some PRecv ->
     items (input (st y)) = line :: rest ->
     let y' := Sys (set_input (st y)
                      (Chan rest (capacity (input (st y))) (closed (input (st y)))))
                   (rdr y) (<[i := PExit]> (pws y)) (mws y) (co y) false in
     run [AParse i; AParse i] y = Some (y', [])
     /\ (adds c_parsed tr + sum_list_with p_uncounted (pws y')
           + sum_list_with p_holding (pws y') + length (items (input (st y')))
         < length (sent_lines tr))%nat)
  /\ (forall nq rest,
     mws y !! i = Some MRecv ->
     items (cnq (st y)) = nq :: rest ->
     let y' := Sys (set_cnq (st y)
                      (Chan rest (capacity (cnq (st y))) (closed (cnq (st y)))))
                   (rdr y) (pws y) (<[i := MExit]> (mws y)) (co y) false in
     run [AMut i a; AMut i a] y = Some (y', [])
     /\ (adds c_processed tr + adds c_ignored tr + length (items (cnq (st y')))
           + sum_list_with m_holding (mws y')
         < adds c_parsed tr + sum_list_with p_uncounted (pws y'))%nat).
Proof.
  intros Hrun Hd He. pose proof (run_reach _ _ _ _ Hrun) as Hr.
  destruct (error_discards_item y i e a Hd He) as [H1 H2].
  split.
  - intros line rest Hi Hq y'. split; [by apply (H1 line)|].
    pose proof (inv_lines_reach _ _ Hr) as Hl. unfold inv_lines in Hl.
    rewrite Hq in Hl. subst y'. simpl in *. sum_ins. simpl in *. lia.
  - intros nq rest Hi Hq y'. split; [by apply (H2 nq)|].
    destruct (inv_flow_reach _ _ Hr) as [Hf _].
    rewrite Hq in Hf. subst y'. simpl in *. sum_ins. simpl in *. lia.
Qed.

(** *** Bounds, the [read] counter and the exits of the parse workers *)

(** Only the line source moves the line source, sends lines and counts
    them as read. *)
Lemma step_other_reader a y y' evs :
  step a y = Some (y', evs) ->
  match a with AReader _ => False | _ => True end ->
  rdr y' = rdr y /\ sent_lines evs = [] /\ adds c_read evs = 0%nat.
Proof.
  intros Hs Ha. destruct y as [[inp cn ct ii ni er ds] r pw mw c d].
  destruct a; try done; step_cases Hs; done.
Qed.

Lemma inv_bounds_reach y tr : reach y0 y tr -> inv_bounds idx n y.
Proof.
  induction 1 as [|a y tr y' evs Hr IH Hs].
  - unfold inv_bounds; simpl. repeat split; lia.
  - pose proof (inv_reader_reach _ _ Hr) as (_ & _ & _ & J4).
    destruct y as [[inp cn ct ii ni er ds] [rl re bf pc] pw mw c d].
    destruct IH as (B1 & B2 & B3 & B4 & B5 & B6 & B7).
    unfold inv_bounds in *; simpl in *.
    destruct a as [k|i|i ans|]; [|clear J4..].
    all: step_cases Hs; rewrite ?length_app, ?length_insert; simpl.
    all: repeat split; try done; try lia.
Qed.

Lemma inv_read_reach y tr : reach y0 y tr -> inv_read y tr.
Proof.
  induction 1 as [|a y tr y' evs _ IH Hs]; [done|].
  destruct a as [k|i|i ans|].
  2-4: destruct (step_other_reader _ _ _ _ Hs I) as (Er & Es & Ea);
       unfold inv_read in *;
       rewrite adds_app, sent_lines_app, Er, Es, Ea, app_nil_r, Nat.add_0_r;
       exact IH.
  destruct y as [[inp cn ct ii ni er ds] [rl re bf pc] pw mw c d].
  unfold inv_read, window_lines in *; simpl in *.
  destruct pc; step_cases Hs; rewrite adds_app, sent_lines_app; simpl.
  all: simplify_eq; simpl in *.
  all: rewrite ?length_app, ?length_insert, ?length_drop in *; simpl in *.
  all: repeat match goal with
       | H : _ !! _ = Some _ |- _ => apply lookup_lt_Some in H
       | H : _ !! _ = None |- _ => apply lookup_ge_None in H
       end.
  all: lia.
Qed.

Lemma inv_pexit_reach y tr : reach y0 y tr -> inv_pexit y.
Proof.
  induction 1 as [|a y tr y' evs _ IH Hs].
  - unfold inv_pexit; simpl. rewrite !sum_replicate; simpl. intros _ Hx. exfalso. lia.
  - destruct y as [[inp cn ct ii ni er ds] [rl re bf pc] pw mw c d].
    unfold inv_pexit in *; simpl in *.
    step_cases Hs; try done.
    all: intros He Hx; sum_ins; simpl in *.
    all: try (apply IH; solve [done | lia]).
    all: try (exfalso; lia).
    all: try (destruct IH as [IHa IHb]; [done | lia | simpl in *; congruence]).
    all: try done.
Qed.

(** *** Calls to the store *)

Lemma inv_muts_reach y tr : reach y0 y tr -> inv_muts y tr.
Proof.
  induction 1 as [|a y tr y' evs _ IH Hs].
  - unfold inv_muts; simpl. rewrite !sum_replicate; simpl. lia.
  - destruct y as [[inp cn ct ii ni er ds] [rl re bf pc] pw mw c d].
    destruct IH as (I1 & I2 & I3 & I4).
    unfold inv_muts, lookups, mutations, releases in *; simpl in *.
    step_cases Hs; rewrite ?adds_app, !sum_list_with_app; simpl.
    all: sum_ins; simpl in *; lia.
Qed.

(** *** Lines by what becomes of them *)

Lemma tally_app {A} (p : A -> bool) l1 l2 :
  tally p (l1 ++ l2) = (tally p l1 + tally p l2)%nat.
Proof. apply sum_list_with_app. Qed.

Lemma tally_perm {A} (p : A -> bool) l1 l2 : l1 ≡ₚ l2 -> tally p l1 = tally p l2.
Proof. intros H. unfold tally. by rewrite H. Qed.

Lemma tally_le {A} (p : A -> bool) l : (tally p l <= length l)%nat.
Proof. induction l as [|x l IH]; simpl; [done|]. unfold tally in *. simpl. case_match; lia. Qed.

Ltac by_class :=
  unfold nonblank, malformed, well_formed, line_mine, line_not_mine, mine,
    not_mine, modulo_rule, owns, parse_line in *; simpl in *;
  repeat case_match; simplify_eq; try congruence; try lia.

Lemma inv_class_reach y tr : reach y0 y tr -> inv_class idx n y tr.
Proof.
  induction 1 as [|a y tr y' evs Hr IH Hs].
  - intros _. unfold tally. simpl. rewrite !sum_replicate. simpl. lia.
  - destruct (inv_bounds_reach _ _ Hr) as (_ & _ & _ & _ & _ & B6 & B7).
    destruct y as [[inp cn ct ii ni er ds] [rl re bf pc] pw mw c d].
    simpl in B6, B7. subst ii ni.
    unfold inv_class, tally in *; simpl in *.
    step_cases Hs; rewrite ?adds_app, ?sent_lines_app, ?sum_list_with_app; simpl.
    all: intros He; try discriminate; try specialize (IH He).
    all: try (unfold set_err in He; simpl in He; try discriminate).
    all: try destruct IH as (I1 & I2 & I3 & I4).
    all: rewrite ?sum_list_with_app in *; simpl in *.
    all: sum_ins; simpl in *.
    all: by_class.
Qed.

(** *** An input that fits the window *)

Lemma inv_order_reach y tr :
  (length lines <= window cfg)%nat -> reach y0 y tr -> inv_order lines y tr.
Proof.
  intros Hw. induction 1 as [|a y tr y' evs Hr IH Hs]; [done|].
  destruct a as [k|i|i ans|].
  2-4: destruct (step_other_reader _ _ _ _ Hs I) as (Er & Es & Ea);
       unfold inv_order in *; rewrite sent_lines_app, Er, Es, app_nil_r;
       exact IH.
  destruct (inv_reader_reach _ _ Hr) as (_ & _ & _ & J4).
  destruct y as [[inp cn ct ii ni er ds] [rl re bf pc] pw mw c d].
  destruct IH as [I1 I2]. unfold inv_order, window_lines in *; simpl in *.
  destruct pc; step_cases Hs; rewrite sent_lines_app; simpl; rewrite ?app_nil_r in *.
  all: simplify_eq; simpl in *; try done.
  all: try (exfalso; rewrite !length_app in Hw; simpl in Hw;
            rewrite ?length_app in Hw; simpl in Hw; lia).
  all: split; try done.
  all: try (rewrite <- ?app_assoc; simpl; done).
  all: try (by rewrite I2).
  all: try (match goal with H : ?l !! ?i = Some ?x |- _ => rewrite (drop_S l x i H) end;
            rewrite <- ?app_assoc; done).
  all: try (rewrite drop_ge by (by apply lookup_ge_None); by rewrite app_nil_r).
Qed.

Lemma inv_eof_reach y tr :
  reach y0 y tr ->
  match rpc (rdr y) with RDrain _ | RDone => lend = EOF | _ => True end.
Proof.
  induction 1 as [|a y tr y' evs Hr IH Hs]; [done|].
  destruct a as [k|i|i ans|].
  2-4: destruct (step_other_reader _ _ _ _ Hs I) as (Er & _); rewrite Er;
       exact IH.
  destruct (inv_reader_reach _ _ Hr) as (_ & _ & J3 & _).
  destruct y as [[inp cn ct ii ni er ds] [rl re bf pc] pw mw c d]. simpl in *.
  destruct pc; step_cases Hs; simplify_eq; simpl in *; done.
Qed.

(** *** What the counters hold *)

Lemma tally_split {A} (p : A -> bool) l :
  (tally p l + tally (fun x => negb (p x)) l = length l)%nat.
Proof.
  unfold tally. induction l as [|x l IH]; simpl; [done|]. destruct (p x); simpl; lia.
Qed.

Lemma tally_zero {A} (p : A -> bool) l :
  tally p l = 0%nat <-> Forall (fun x => p x = false) l.
Proof.
  unfold tally. apply sum_zero_Forall. intros x. destruct (p x); split; (done || lia).
Qed.

(** No counter wraps on an input of fewer than [2^64] lines. *)
Lemma counters_exact y tr :
  Z.of_nat (length lines) < 2 ^ 64 ->
  reach y0 y tr ->
  let c := ctr (st y) in
  read c = Z.of_nat (adds c_read tr) /\
  parsed c = Z.of_nat (adds c_parsed tr) /\
  processed c = Z.of_nat (adds c_processed tr) /\
  ignored c = Z.of_nat (adds c_ignored tr).
Proof.
  intros Hlines Hr c.
  destruct (inv_ctr_reach _ _ Hr) as (Er & Ep & Ed & Ei). fold c in Er, Ep, Ed, Ei.
  pose proof (parsed_bounded _ _ Hr) as Hb.
  destruct (inv_flow_reach _ _ Hr) as [Hf _].
  pose proof (inv_read_reach _ _ Hr) as Hrd. unfold inv_read in Hrd.
  destruct (inv_reader_reach _ _ Hr) as (Hp & _).
  apply Permutation_length in Hp. rewrite !length_app in Hp.
  rewrite Er, Ep, Ed, Ei, !u64_small; [done|lia..].
Qed.

(** What a return with a nil error tells of the state. *)
Lemma success_state y tr k :
  reach y0 y tr ->
  co y = CDone k None ->
  err (st y) = None
  /\ sum_list_with p_alive (pws y) = 0%nat
  /\ sum_list_with m_alive (mws y) = 0%nat
  /\ items (input (st y)) = []
  /\ rpc (rdr y) = RDone
  /\ sent_lines tr ≡ₚ lines
  /\ k = processed (ctr (st y)).
Proof.
  intros Hr Hc.
  destruct (inv_ctl_reach _ _ Hr) as (I1 & I2 & _ & I4).
  destruct (I4 _ _ Hc) as [Hk He]. symmetry in He.
  rewrite Hc in I1, I2. simpl in I1, I2.
  specialize (I1 ltac:(lia)). specialize (I2 ltac:(lia)).
  destruct (inv_len_reach _ _ Hr) as [Hlen _].
  assert (Hx : (sum_list_with p_exited (pws y) + sum_list_with p_alive (pws y)
                = length (pws y))%nat).
  { clear. induction (pws y) as [|[] l IH]; simpl; lia. }
  destruct (inv_pexit_reach _ _ Hr He ltac:(lia)) as [Hcl Hq].
  destruct (inv_reader_reach _ _ Hr) as (Hp & Hd & _ & H4).
  rewrite Hcl in Hd.
  assert (Hdone : rpc (rdr y) = RDone) by (by destruct (rpc (rdr y))).
  unfold window_lines in Hp. rewrite Hdone in Hp, H4. rewrite H4 in Hp.
  rewrite !app_nil_r in Hp. done.
Qed.

(** What a return with a nil error tells of the input. *)
Lemma success_tallies y tr k :
  0 < maxRoutines cfg ->
  reach y0 y tr ->
  co y = CDone k None ->
  tally malformed lines = 0%nat
  /\ adds c_processed tr = tally (line_mine idx n) lines
  /\ adds c_ignored tr = tally (line_not_mine idx n) lines.
Proof.
  intros Hm Hr Hc.
  destruct (success_state _ _ _ Hr Hc) as (He & HP & HM & Hq & Hd & Hp & Hk).
  destruct (inv_class_reach _ _ Hr He) as (_ & I2 & I3 & I4).
  destruct (inv_len_reach _ _ Hr) as [_ Hlen].
  pose proof (m_exited_alive (mws y)) as Hx.
  destruct (inv_exit_reach _ _ Hr He ltac:(lia)) as [_ Hcq].
  pose proof (sum_le p_malformed p_alive (pws y)
                ltac:(intros []; simpl; try case_match; lia)) as Hl0.
  pose proof (sum_le (p_mine idx n) p_alive (pws y)
                ltac:(intros []; simpl; try case_match; lia)) as Hl1.
  pose proof (sum_le (p_not_mine idx n) p_alive (pws y)
                ltac:(intros []; simpl; try case_match; lia)) as Hl2.
  pose proof (sum_le (m_mine idx n) m_alive (mws y)
                ltac:(intros []; simpl; try case_match; lia)) as Hl3.
  pose proof (sum_le (m_not_mine idx n) m_alive (mws y)
                ltac:(intros []; simpl; try case_match; lia)) as Hl4.
  rewrite Hq in I2. rewrite Hq, Hcq in I3, I4.
  rewrite (tally_perm malformed _ _ Hp) in I2.
  rewrite (tally_perm (line_mine idx n) _ _ Hp) in I3.
  rewrite (tally_perm (line_not_mine idx n) _ _ Hp) in I4.
  unfold tally in *; simpl in *. lia.
Qed.

(** X3. Backpressure.  In every state of every run the raw-line queue and
    the triple queue have their capacity of 10000 and hold no more than
    that, and the window of the line source holds at most [window] lines
    (1000 in the source); [instanceIdx] and [numInstances] stay what
    [LoadEdges] was called with. *)
Theorem queues_bounded acts y tr :
  run acts y0 = Some (y, tr) ->
  capacity (input (st y)) = 10000
  /\ capacity (cnq (st y)) = 10000
  /\ Z.of_nat (length (items (input (st y)))) <= 10000
  /\ Z.of_nat (length (items (cnq (st y)))) <= 10000
  /\ (length (buf (rdr y)) <= window cfg)%nat
  /\ instanceIdx (st y) = idx
  /\ numInstances (st y) = n.
Proof.
  intros Hrun. by apply (inv_bounds_reach y tr), (run_reach acts).
Qed.

(** X6. The [read] counter.  For an input of fewer than [2^64] lines, in
    every state of every run [read] is the number of lines taken from the
    stream, but for the one line that the second loop of [readLines] has
    read and not yet counted (lines 152-159); once the line source is done
    [read] is the number of lines of the input. *)
Theorem read_counts_lines acts y tr :
  Z.of_nat (length lines) < 2 ^ 64 ->
  run acts y0 = Some (y, tr) ->
  read (ctr (st y)) + Z.of_nat (r_uncounted (rpc (rdr y)))
    + Z.of_nat (length (rlines (rdr y))) = Z.of_nat (length lines)
  /\ (rpc (rdr y) = RDone -> read (ctr (st y)) = Z.of_nat (length lines)).
Proof.
  intros Hlines Hrun. pose proof (run_reach _ _ _ _ Hrun) as Hr.
  destruct (counters_exact _ _ Hlines Hr) as (Er & _).
  pose proof (inv_read_reach _ _ Hr) as Hrd. unfold inv_read in Hrd.
  destruct (inv_reader_reach _ _ Hr) as (Hp & _ & _ & H4).
  apply Permutation_length in Hp. rewrite !length_app in Hp.
  split; [lia|]. intros Hd. rewrite Hd in *. simpl in *. rewrite H4 in Hp. simpl in Hp. lia.
Qed.

(** X7. A malformed line is never passed over.  If [LoadEdges] returns a
    nil error, every line of the input that is not blank was accepted by
    [rdf.Parse]: a run on an input with a line that [rdf.Parse] rejects
    returns an error or does not return. *)
Theorem malformed_line_is_reported acts y tr k :
  run acts y0 = Some (y, tr) ->
  co y = CDone k None ->
  Forall (fun l => malformed l = false) lines
  /\ tally nonblank lines = tally well_formed lines.
Proof.
  intros Hrun Hc. pose proof (run_reach _ _ _ _ Hrun) as Hr.
  destruct (success_state _ _ _ Hr Hc) as (He & HP & _ & Hq & _ & Hp & _).
  destruct (inv_class_reach _ _ Hr He) as (_ & I2 & _).
  pose proof (sum_le p_malformed p_alive (pws y)
                ltac:(intros []; simpl; try case_match; lia)) as Hle.
  rewrite Hq in I2. rewrite (tally_perm _ _ _ Hp) in I2.
  assert (H0 : tally malformed lines = 0%nat) by (unfold tally in *; simpl in *; lia).
  apply tally_zero in H0. split; [done|].
  clear -H0. unfold tally. induction H0 as [|l ls Hl _ IH]; simpl; [done|].
  rewrite IH. f_equal. unfold malformed, nonblank, well_formed in *.
  destruct (parse_line l) as [[?|?]|]; done.
Qed.

(** X8. Lines read, lines parsed.  If [LoadEdges] returns a nil error on
    an input of fewer than [2^64] lines, then [read] is the number of lines
    of the input and [parsed] the number of those that are not blank once
    trimmed: [read == parsed + blank lines]. *)
Theorem success_counts_lines acts y tr k :
  Z.of_nat (length lines) < 2 ^ 64 ->
  run acts y0 = Some (y, tr) ->
  co y = CDone k None ->
  let c := ctr (st y) in
  read c = Z.of_nat (length lines)
  /\ parsed c = Z.of_nat (tally nonblank lines)
  /\ read c = parsed c + Z.of_nat (tally (fun l => negb (nonblank l)) lines).
Proof.
  intros Hlines Hrun Hc c. pose proof (run_reach _ _ _ _ Hrun) as Hr.
  destruct (success_state _ _ _ Hr Hc) as (He & HP & _ & Hq & Hd & Hp & _).
  destruct (inv_class_reach _ _ Hr He) as (I1 & _).
  pose proof (sum_le p_nonblank p_alive (pws y)
                ltac:(intros []; simpl; try case_match; lia)) as Hle.
  rewrite Hq in I1. rewrite (tally_perm _ _ _ Hp) in I1.
  destruct (counters_exact _ _ Hlines Hr) as (Er & Ep & _). fold c in Er, Ep.
  pose proof (inv_read_reach _ _ Hr) as Hrd. unfold inv_read, window_lines in Hrd.
  rewrite Hd in Hrd. simpl in Hrd. apply Permutation_length in Hp.
  pose proof (tally_split nonblank lines) as Hs.
  assert (tally nonblank [] = 0%nat) by done.
  repeat split; lia.
Qed.

(** X9. The share of an instance.  With at least one mutation worker, if
    [LoadEdges] returns [(k, nil)] on an input of fewer than [2^64] lines,
    then [k] is the value of [processed], which is the number of lines of
    the input whose triple satisfies the modulo rule of this instance, and
    [ignored] is the number of lines whose triple does not. *)
Theorem success_counts_share acts y tr k :
  0 < maxRoutines cfg ->
  Z.of_nat (length lines) < 2 ^ 64 ->
  run acts y0 = Some (y, tr) ->
  co y = CDone k None ->
  let c := ctr (st y) in
  k = processed c
  /\ processed c = Z.of_nat (tally (line_mine idx n) lines)
  /\ ignored c = Z.of_nat (tally (line_not_mine idx n) lines).
Proof.
  intros Hm Hlines Hrun Hc c. pose proof (run_reach _ _ _ _ Hrun) as Hr.
  destruct (success_state _ _ _ Hr Hc) as (He & HP & HM & Hq & Hd & Hp & Hk).
  destruct (inv_class_reach _ _ Hr He) as (_ & _ & I3 & I4).
  destruct (inv_len_reach _ _ Hr) as [_ Hlen].
  pose proof (m_exited_alive (mws y)) as Hx.
  destruct (inv_exit_reach _ _ Hr He ltac:(lia)) as [_ Hcq].
  pose proof (sum_le (p_mine idx n) p_alive (pws y)
                ltac:(intros []; simpl; try case_match; lia)) as Hl1.
  pose proof (sum_le (p_not_mine idx n) p_alive (pws y)
                ltac:(intros []; simpl; try case_match; lia)) as Hl2.
  pose proof (sum_le (m_mine idx n) m_alive (mws y)
                ltac:(intros []; simpl; try case_match; lia)) as Hl3.
  pose proof (sum_le (m_not_mine idx n) m_alive (mws y)
                ltac:(intros []; simpl; try case_match; lia)) as Hl4.
  rewrite Hq, Hcq in I3, I4.
  rewrite (tally_perm _ _ _ Hp) in I3. rewrite (tally_perm _ _ _ Hp) in I4.
  destruct (counters_exact _ _ Hlines Hr) as (_ & _ & Ed & Ei). fold c in Ed, Ei.
  unfold tally in *; simpl in *.
  repeat split; [done|lia..].
Qed.

(** X11. What the returned count counts.  Whenever [LoadEdges] returns
    [(k, e)], with or without an error, on an input of fewer than [2^64]
    lines, [k] is the number of calls of [AddMutationWithIndex] of the run;
    every one of them was on a handle taken by a call of [GetOrCreate] of
    its own, and every handle taken was given back. *)
Theorem returned_count_is_mutations acts y tr k e :
  Z.of_nat (length lines) < 2 ^ 64 ->
  run acts y0 = Some (y, tr) ->
  co y = CDone k e ->
  k = Z.of_nat (mutations tr)
  /\ lookups tr = mutations tr
  /\ releases tr = mutations tr.
Proof.
  intros Hlines Hrun Hc. pose proof (run_reach _ _ _ _ Hrun) as Hr.
  destruct (inv_ctl_reach _ _ Hr) as (_ & I2 & _ & I4).
  destruct (I4 _ _ Hc) as [Hk _].
  rewrite Hc in I2. simpl in I2. specialize (I2 ltac:(lia)).
  destruct (inv_muts_reach _ _ Hr) as (_ & J2 & J3 & J4).
  pose proof (sum_le m_got m_alive (mws y) ltac:(intros []; simpl; lia)).
  pose proof (sum_le m_applied m_alive (mws y) ltac:(intros []; simpl; lia)).
  pose proof (sum_le m_released m_alive (mws y) ltac:(intros []; simpl; lia)).
  destruct (counters_exact _ _ Hlines Hr) as (_ & _ & Ed & _).
  repeat split; lia.
Qed.

(** X12. A stream that fails.  [LoadEdges] returns a nil error only after
    the line source has read its stream to [io.EOF], sent every line and
    closed the raw-line queue, and the parse workers have emptied it: on a
    stream that ends in a read failure no run returns a nil error. *)
Theorem failed_read_never_succeeds acts y tr k :
  run acts y0 = Some (y, tr) ->
  co y = CDone k None ->
  lend = EOF
  /\ rpc (rdr y) = RDone
  /\ closed (input (st y)) = true
  /\ items (input (st y)) = []
  /\ sent_lines tr ≡ₚ lines.
Proof.
  intros Hrun Hc. pose proof (run_reach _ _ _ _ Hrun) as Hr.
  destruct (success_state _ _ _ Hr Hc) as (_ & _ & _ & Hq & Hd & Hp & _).
  pose proof (inv_eof_reach _ _ Hr) as He. rewrite Hd in He.
  destruct (inv_reader_reach _ _ Hr) as (_ & Hcl & _). rewrite Hd in Hcl.
  done.
Qed.

(** X13. A short input keeps its order.  When the input has no more lines
    than the window ([window], 1000 in the source), the second loop of
    [readLines] never draws a slot: in every state of every run the lines
    sent are a prefix of the input, in the order of the input, and once the
    line source is done they are the input. *)
Theorem short_input_in_order acts y tr :
  (length lines <= window cfg)%nat ->
  run acts y0 = Some (y, tr) ->
  sent_lines tr `prefix_of` lines
  /\ sent_lines tr ++ window_lines (rdr y) ++ rlines (rdr y) = lines
  /\ (rpc (rdr y) = RDone -> sent_lines tr = lines).
Proof.
  intros Hw Hrun. pose proof (run_reach _ _ _ _ Hrun) as Hr.
  destruct (inv_order_reach _ _ Hw Hr) as [I1 _].
  split; [eexists; symmetry; exact I1|]. split; [done|].
  intros Hd. destruct (inv_reader_reach _ _ Hr) as (_ & _ & _ & H4).
  unfold window_lines in I1. rewrite Hd in I1, H4. rewrite H4 in I1.
  by rewrite !app_nil_r in I1.
Qed.

(** *** Panics and waits *)

Lemma step_no_panic a y y' evs tr :
  (1 <= window cfg)%nat -> lend = EOF -> n <> 0 ->
  reach y0 y tr -> step a y = Some (y', evs) -> dead y' = false.
Proof.
  intros Hw Hend Hn Hr Hs. destruct a as [k|i|i ans|].
  - by eapply reader_never_dies.
  - destruct (inv_ctl_reach _ _ Hr) as (I1 & _ & I3 & _).
    destruct y as [[inp cn ct ii ni er ds] [rl re bf pc] pw mw c d]. simpl in *.
    step_cases Hs; try done.
    destruct c; simpl in *; try done; specialize (I1 ltac:(lia)); sum_look;
      simpl in *; lia.
  - destruct (inv_bounds_reach _ _ Hr) as (_ & _ & _ & _ & _ & _ & B7).
    destruct y as [[inp cn ct ii ni er ds] [rl re bf pc] pw mw c d]. simpl in *.
    step_cases Hs; try done. lia.
  - destruct (inv_ctl_reach _ _ Hr) as (_ & _ & I3 & _).
    destruct y as [[inp cn ct ii ni er ds] [rl re bf pc] pw mw c d]. simpl in *.
    step_cases Hs; try done.
Qed.

Lemma sum_pos_lookup {A} (w : A -> nat) (l : list A) :
  (0 < sum_list_with w l)%nat -> exists i x, l !! i = Some x /\ (0 < w x)%nat.
Proof.
  induction l as [|a l IH]; simpl; [lia|]. intros H.
  destruct (w a) eqn:E.
  - destruct (IH ltac:(lia)) as (i & x & Hi & Hx). by exists (S i), x.
  - exists 0%nat, a. split; [done|lia].
Qed.

Lemma p_alive_split (l : list parse_pc) :
  sum_list_with p_alive l
  = (sum_list_with p_ready l + sum_list_with p_receiving l
     + sum_list_with p_sending l)%nat.
Proof. induction l as [|[] l IH]; simpl; lia. Qed.

(** With the raw-line queue empty and open, the line source can run. *)
Lemma reader_can_step y tr :
  reach y0 y tr -> dead y = false ->
  items (input (st y)) = [] -> closed (input (st y)) = false ->
  exists y' evs, step (AReader 0) y = Some (y', evs).
Proof.
  intros Hr Hd Hq Hcl.
  destruct (inv_reader_reach _ _ Hr) as (_ & I2 & _ & I4).
  destruct (inv_bounds_reach _ _ Hr) as (B1 & _).
  destruct y as [[[it cp cl] cn ct ii ni er ds] [rl re bf pc] pw mw c d]. simpl in *.
  subst. unfold step, die, readLines_step, readLines_next, readLine, chan_send,
    chan_close; simpl.
  destruct pc; simpl in *; try done.
  all: repeat (case_match; simplify_eq; simpl in * ); eauto.
  all: exfalso; lia.
Qed.

(** A mutation worker that has not returned can run when the triple
    queue is not empty or is closed. *)
Lemma mut_can_step y i pc (ans : Edge + error) :
  dead y = false -> mws y !! i = Some pc -> pc <> MExit ->
  items (cnq (st y)) <> [] \/ closed (cnq (st y)) = true ->
  exists y' evs, step (AMut i ans) y = Some (y', evs).
Proof.
  intros Hd Hi Hpc Hq.
  destruct y as [[inp [it cp cl] ct ii ni er ds] r pw mw c d]. simpl in *.
  subst. unfold step, die, handleNQuads_step, chan_recv, owns, Error, GetOrCreate; simpl.
  rewrite Hi. destruct pc; simpl in *; try done.
  all: repeat (case_match; simplify_eq; simpl in * ); eauto.
  all: destruct Hq; done.
Qed.

(** X4. No panic.  With a window of at least one line, a stream that ends
    in [io.EOF], [numInstances] other than zero and a [*maxRoutines] that
    is not negative, no run of [LoadEdges] panics: the process is alive in
    every state, and whatever goroutine runs next leaves it alive. *)
Theorem never_panics acts y tr :
  (1 <= window cfg)%nat -> lend = EOF -> n <> 0 -> 0 <= maxRoutines cfg ->
  run acts y0 = Some (y, tr) ->
  dead y = false
  /\ (forall a y' evs, step a y = Some (y', evs) -> dead y' = false).
Proof.
  intros Hw Hend Hn Hm Hrun. pose proof (run_reach _ _ _ _ Hrun) as Hr.
  split; [|intros a y' evs Hs; by eapply step_no_panic].
  clear Hrun. induction Hr as [|a y tr y' evs Hr IH Hs].
  - simpl. lia.
  - by eapply step_no_panic.
Qed.

(** While the register is empty and [LoadEdges] has not returned, some
    goroutine can run. *)
Lemma some_step y tr (ans : Edge + error) :
  0 < maxRoutines cfg ->
  reach y0 y tr ->
  dead y = false ->
  Error (st y) = None ->
  (co_rank (co y) < 4)%nat ->
  exists a y' evs,
    step a y = Some (y', evs)
    /\ (forall i ans', a = AMut i ans' -> ans' = ans).
Proof.
  intros Hm Hr Hd He Hc.
  destruct (inv_ctl_reach _ _ Hr) as (_ & _ & I3 & _).
  pose proof (inv_exit_reach _ _ Hr) as Hex.
  destruct (inv_bounds_reach _ _ Hr) as (_ & B2 & _).
  destruct (inv_len_reach _ _ Hr) as [_ Hlen].
  assert (Hmain : (exists y' evs, step AMain y = Some (y', evs)) ->
            exists a y' evs, step a y = Some (y', evs)
              /\ (forall i ans', a = AMut i ans' -> ans' = ans)).
  { intros (y' & evs & Hs). by exists AMain, y', evs. }
  assert (Hmut : forall i pc, mws y !! i = Some pc -> pc <> MExit ->
            items (cnq (st y)) <> [] \/ closed (cnq (st y)) = true ->
            exists a y' evs, step a y = Some (y', evs)
              /\ (forall i ans', a = AMut i ans' -> ans' = ans)).
  { intros i pc Hi Hpc Hq.
    destruct (mut_can_step y i pc ans Hd Hi Hpc Hq) as (y' & evs & Hs).
    exists (AMut i ans), y', evs. split; [done|]. by intros ? ? [= _ ->]. }
  assert (Hpar : forall i, (exists y' evs, step (AParse i) y = Some (y', evs)) ->
            exists a y' evs, step a y = Some (y', evs)
              /\ (forall i ans', a = AMut i ans' -> ans' = ans)).
  { intros i (y' & evs & Hs). by exists (AParse i), y', evs. }
  destruct (co y) eqn:Eco; simpl in Hc; try lia.
  - (* [pwg.Wait()] *)
    destruct (forallb is_PExit (pws y)) eqn:Hall.
    { apply Hmain. destruct y as [s r pw mw c d]. simpl in *. subst.
      unfold step, LoadEdges_step. simpl. rewrite Hall. eauto. }
    assert (Hal : (0 < sum_list_with p_alive (pws y))%nat).
    { destruct (sum_list_with p_alive (pws y)) eqn:E; [|lia].
      apply pwg_Wait in E. congruence. }
    rewrite p_alive_split in Hal.
    destruct (sum_list_with p_ready (pws y)) eqn:Hrdy.
    2:{ destruct (sum_pos_lookup p_ready (pws y) ltac:(lia)) as (i & pc & Hi & Hpc).
        apply (Hpar i). destruct y as [[inp cn ct ii ni er ds] r pw mw c d].
        simpl in *. subst. unfold step, parseStream_step, Error. simpl. rewrite Hi.
        destruct pc; simpl in *; try lia; repeat case_match; simplify_eq; eauto. }
    destruct (sum_list_with p_receiving (pws y)) eqn:Hrcv.
    2:{ destruct (sum_pos_lookup p_receiving (pws y) ltac:(lia)) as (i & pc & Hi & Hpc).
        destruct pc; simpl in Hpc; try lia.
        destruct (items (input (st y))) as [|l rest] eqn:Hq.
        - destruct (closed (input (st y))) eqn:Hcl.
          + apply (Hpar i). destruct y as [[inp cn ct ii ni er ds] r pw mw c d].
            simpl in *. subst. unfold step, parseStream_step, chan_recv. simpl.
            rewrite Hi, Hq, Hcl. eauto.
          + destruct (reader_can_step y tr Hr Hd Hq Hcl) as (y' & evs & Hs).
            exists (AReader 0), y', evs. split; [done|]. intros; discriminate.
        - apply (Hpar i). destruct y as [[inp cn ct ii ni er ds] r pw mw c d].
          simpl in *. subst. unfold step, parseStream_step, chan_recv. simpl.
          rewrite Hi, Hq. eauto. }
    destruct (sum_pos_lookup p_sending (pws y) ltac:(lia)) as (i & pc & Hi & Hpc).
    destruct pc as [| | |nq| |]; simpl in Hpc; try lia.
    destruct (Z.of_nat (length (items (cnq (st y)))) <? capacity (cnq (st y))) eqn:Hroom.
    { apply (Hpar i). destruct y as [[inp cn ct ii ni er ds] r pw mw c d].
      simpl in *. subst. unfold step, parseStream_step, chan_send. simpl.
      rewrite Hi, I3, Hroom. eauto. }
    destruct (lookup_lt_is_Some_2 (mws y) 0%nat ltac:(lia)) as [pc Hpc0].
    apply (Hmut 0%nat pc Hpc0).
    + intros ->. pose proof (sum_lookup m_exited _ _ _ Hpc0) as Hx. simpl in Hx.
      destruct (Hex He ltac:(lia)) as [Hcl _]. rewrite I3 in Hcl. done.
    + left. intros Hq. rewrite Hq, B2 in Hroom. simpl in Hroom. lia.
  - (* [close(s.cnq)] *)
    apply Hmain. destruct y as [s r pw mw c d]. simpl in *. subst.
    unfold step, die, LoadEdges_step. simpl. repeat case_match; simplify_eq; eauto.
  - (* [wg.Wait()] *)
    destruct (forallb is_MExit (mws y)) eqn:Hall.
    { apply Hmain. destruct y as [s r pw mw c d]. simpl in *. subst.
      unfold step, LoadEdges_step. simpl. rewrite Hall. eauto. }
    assert (Hal : (0 < sum_list_with m_alive (mws y))%nat).
    { destruct (sum_list_with m_alive (mws y)) eqn:E; [|lia].
      apply wg_Wait in E. congruence. }
    destruct (sum_pos_lookup m_alive (mws y) Hal) as (i & pc & Hi & Hpc).
    apply (Hmut i pc Hi); [intros ->; simpl in Hpc; lia|]. right. by rewrite I3.
  - (* the return *)
    apply Hmain. destruct y as [s r pw mw c d]. simpl in *. subst.
    unfold step, LoadEdges_step. simpl. eauto.
Qed.

(** *** [printCounters] *)

Local Abbreviation m0 := (LoadEdges_printing lines lend idx n).

Lemma omap_PEv (evs : list event) :
  omap pipeline_event (map PEv evs) = evs /\ omap printed (map PEv evs) = [].
Proof.
  induction evs as [|e evs [IH1 IH2]]; [done|].
  split; [exact (f_equal (cons e) IH1)|exact IH2].
Qed.

Lemma omap_PLog (rs : list report) :
  omap pipeline_event (map PLog rs) = [] /\ omap printed (map PLog rs) = rs.
Proof.
  induction rs as [|r rs [IH1 IH2]]; [done|].
  split; [exact IH1|exact (f_equal (cons r) IH2)].
Qed.

(** [printCounters] and the ticker leave the pipeline alone: what the
    pipeline does beside them is a run of the pipeline. *)
Lemma preach_base m tr :
  preach m0 m tr -> reach y0 (base m) (omap pipeline_event tr).
Proof.
  induction 1 as [|a m tr m' evs _ IH Hs]; [constructor|].
  rewrite omap_app. unfold pstep in Hs.
  destruct (dead (base m)); [done|]. destruct a as [a| |].
  - destruct (step a (base m)) as [[y evs']|] eqn:E; [|done].
    injection Hs as <- <-. rewrite (proj1 (omap_PEv _)). by eapply reach_step.
  - repeat case_match; simplify_eq; simpl; by rewrite app_nil_r.
  - repeat case_match; simplify_eq; simpl.
    rewrite (proj1 (omap_PLog _)). by rewrite app_nil_r.
Qed.

Lemma prun_preach acts m m' tr tr0 :
  preach m0 m tr0 -> prun acts m = Some (m', tr) -> preach m0 m' (tr0 ++ tr).
Proof.
  revert m tr tr0. induction acts as [|a acts IH]; intros m tr tr0 H0 H; simpl in H.
  - injection H as <- <-. by rewrite app_nil_r.
  - destruct (pstep a m) as [[m1 evs]|] eqn:Hs; [|done].
    destruct (prun acts m1) as [[m2 evs']|] eqn:E; [|done].
    injection H as <- <-. rewrite app_assoc. eapply IH; [|done].
    by eapply preach_step.
Qed.

Lemma prun_base acts (m m' : psys) tr :
  prun acts m = Some (m', tr) ->
  run (omap pipeline_action acts) (base m) = Some (base m', omap pipeline_event tr).
Proof.
  revert m tr. induction acts as [|a acts IH]; intros m tr H; simpl in H.
  - by injection H as <- <-.
  - destruct (pstep a m) as [[m1 evs]|] eqn:Hs; [|done].
    destruct (prun acts m1) as [[m2 evs']|] eqn:E; [|done].
    injection H as <- <-. specialize (IH _ _ E). rewrite omap_app.
    unfold pstep in Hs. destruct (dead (base m)); [done|]. destruct a as [a| |].
    + destruct (step a (base m)) as [[y evs'']|] eqn:E'; [|done].
      injection Hs as <- <-.
      change (omap pipeline_action (PDo a :: acts)) with (a :: omap pipeline_action acts).
      rewrite (proj1 (omap_PEv _)), (run_cons _ _ _ _ _ E').
      cbn [base] in IH. by rewrite IH.
    + repeat case_match; simplify_eq; exact IH.
    + repeat case_match; simplify_eq.
      rewrite (proj1 (omap_PLog _)). exact IH.
Qed.

Lemma ascending_snoc lo l x :
  ascending lo l -> top lo l < x -> ascending lo (l ++ [x]).
Proof.
  revert lo. induction l as [|a l IH]; intros lo; simpl.
  - unfold top. simpl. done.
  - intros [H1 H2] H3. split; [done|]. apply IH; [done|]. exact H3.
Qed.

Lemma top_snoc lo l x : top lo (l ++ [x]) = x.
Proof. unfold top. by rewrite foldl_app. Qed.

Lemma ascending_bounds lo l :
  ascending lo l ->
  Forall (fun x => lo < x <= top lo l) l /\ Z.of_nat (length l) <= top lo l - lo.
Proof.
  revert lo. induction l as [|a l IH]; intros lo; simpl.
  - intros _. unfold top. simpl. split; [constructor|lia].
  - intros [H1 H2]. destruct (IH _ H2) as [F L].
    change (top lo (a :: l)) with (top a l). split; [|lia].
    constructor; [lia|]. eapply Forall_impl; [exact F|]. simpl. intros; lia.
Qed.

Lemma inv_print_reach m tr :
  Z.of_nat (length lines) < 2 ^ 64 ->
  preach m0 m tr -> inv_print m tr.
Proof.
  intros Hlines. induction 1 as [|a m tr m' evs Hp IH Hs].
  - unfold inv_print, top; simpl. repeat split; (done || lia).
  - pose proof (preach_base _ _ Hp) as Hr.
    destruct (counters_exact _ _ Hlines Hr) as (_ & _ & Ed & _).
    destruct (inv_bounds_reach _ _ Hr) as (_ & _ & _ & B4 & _).
    destruct IH as (I1 & I2 & I3 & I4 & I5).
    unfold inv_print, reports in *. rewrite !omap_app, adds_app, map_app.
    unfold pstep in Hs. destruct (dead (base m)); [done|].
    destruct m as [y C [pv pc]]. destruct a as [a| |]; simpl in *.
    + destruct (step a y) as [[y1 evs']|] eqn:E; [|done].
      injection Hs as <- <-. simpl.
      rewrite (proj1 (omap_PEv _)), (proj2 (omap_PEv _)). simpl.
      rewrite !app_nil_r. repeat split; (done || lia).
    + repeat case_match; simplify_eq; simpl; rewrite !app_nil_r, ?Nat.add_0_r; done.
    + unfold printCounters_step, print_floor, print_holds in *; simpl in *.
      destruct pc; simpl in *; simplify_eq; simpl in *;
        repeat (case_match; simplify_eq; simpl in * ).
      all: rewrite ?app_nil_r, ?Nat.add_0_r.
      all: try (repeat split; (done || lia)).
      (* the entry is printed *)
      repeat split; try done; try lia.
      * apply ascending_snoc; [done|lia].
      * rewrite top_snoc. lia.
      * apply Forall_app. split; [done|]. constructor; [|constructor]. simpl.
        split; [lia|done].
Qed.

(** X14. [printCounters].  Beside the pipeline, on an input of fewer than
    [2^64] lines: the goroutine and its ticker never touch the shared
    state, so the pipeline's part of a run is a run of the pipeline; an
    entry is printed only when [processed] has moved since the last one, so
    the values of [processed] in the entries go strictly up from above zero
    and there are at most [processed] entries; every entry shows a value of
    [processed] that the counter has reached, a [len_cnq] within the
    capacity of the triple queue, and as [pending] the difference
    [parsed - ignored - processed] of the values it shows, in [uint64]. *)
Theorem printCounters_reports pacts m tr :
  Z.of_nat (length lines) < 2 ^ 64 ->
  prun pacts (LoadEdges_printing lines lend idx n) = Some (m, tr) ->
  run (omap pipeline_action pacts) y0 = Some (base m, omap pipeline_event tr)
  /\ ascending 0 (map r_processed (reports tr))
  /\ Forall (fun r => 0 < r_processed r <= processed (ctr (st (base m)))
                      /\ 0 <= r_len_cnq r <= 10000
                      /\ r_pending r
                         = u64 (u64 (r_parsed r - r_ignored r) - r_processed r))
            (reports tr)
  /\ Z.of_nat (length (reports tr)) <= processed (ctr (st (base m))).
Proof.
  intros Hlines Hrun. split; [by apply (prun_base _ m0)|].
  pose proof (prun_preach _ _ _ _ _ (preach_refl m0) Hrun) as Hp. simpl in Hp.
  pose proof (preach_base _ _ Hp) as Hr.
  destruct (counters_exact _ _ Hlines Hr) as (_ & _ & Ed & _).
  destruct (inv_print_reach _ _ Hlines Hp) as (I1 & I2 & I3 & I4 & I5).
  destruct (ascending_bounds _ _ I1) as [F L].
  assert (Hfl : print_floor (prt m) <= prev (prt m)).
  { unfold print_floor. destruct (kpc (prt m)); lia. }
  split; [done|]. split.
  - apply List.Forall_map in F.
    eapply Forall_impl; [apply Forall_and; split; [exact F|exact I5]|].
    simpl. intros r [? [? ?]]. repeat split; (done || lia).
  - rewrite length_map in L. lia.
Qed.

(** X5. No deadlock while the register is empty.  With at least one
    mutation worker, in every state of every run in which the process is
    alive, no error is registered and [LoadEdges] has not returned, some
    goroutine can take a step, whatever [nq.ToEdge()] would answer. *)
Theorem progress_without_error acts y tr (ans : Edge + error) :
  0 < maxRoutines cfg ->
  run acts y0 = Some (y, tr) ->
  dead y = false ->
  Error (st y) = None ->
  (co_rank (co y) < 4)%nat ->
  exists a y' evs,
    step a y = Some (y', evs)
    /\ (forall i ans', a = AMut i ans' -> ans' = ans).
Proof.
  intros Hm Hrun. apply (some_step y tr); [done|]. by eapply run_reach.
Qed.

(** *** The protocol of the queues *)

Lemma protocol_app op c tr1 tr2 :
  protocol op c (tr1 ++ tr2) =
    match protocol op c tr1 with
    | Some c' => protocol op c' tr2
    | None => None
    end.
Proof.
  revert c. induction tr1 as [|ev tr1 IH]; intros c; simpl; [done|].
  destruct (op c ev); [apply IH|done].
Qed.

Lemma inv_protocol_reach y tr : reach y0 y tr -> inv_protocol y tr.
Proof.
  induction 1 as [|a y tr y' evs _ IH Hs]; [done|].
  destruct y as [[inp cn ct ii ni er ds] [rl re bf pc] pw mw c d].
  destruct IH as [I1 I2]. unfold inv_protocol in *; simpl in *.
  step_cases Hs; rewrite !protocol_app, I1, I2; simpl.
  all: repeat match goal with H : closed _ = _ |- _ => rewrite H end; done.
Qed.

(** *** Where lines and triples come from *)

Lemma inv_prov_reach y tr : reach y0 y tr -> inv_prov idx n lines y tr.
Proof.
  induction 1 as [|a y tr y' evs Hr IH Hs].
  - unfold inv_prov; simpl. repeat split; try constructor.
    all: by apply Forall_replicate.
  - destruct (inv_bounds_reach _ _ Hr) as (_ & _ & _ & _ & _ & B6 & B7).
    destruct (inv_reader_reach _ _ (reach_step _ _ _ _ _ _ Hr Hs)) as (R1 & _).
    destruct y as [[inp cn ct ii ni er ds] [rl re bf pc] pw mw c d].
    destruct IH as (I1 & I2 & I3 & I4 & I5).
    unfold inv_prov in *; simpl in *. subst ii ni.
    step_cases Hs; rewrite ?app_nil_r.
    all: repeat match goal with
         | H : ?l !! ?i = Some ?x, F : Forall ?P ?l |- _ =>
             lazymatch goal with
             | _ : P x |- _ => fail
             | _ => pose proof (Forall_lookup_1 P l i x F H)
             end
         end; simpl in *.
    all: rewrite ?Forall_app, ?Forall_cons, ?Forall_nil in *.
    all: repeat split; try done; try tauto.
    all: try (apply Forall_insert; [tauto|simpl]); try done; try tauto.
    all: try (unfold ev_ok; simpl).
    all: try (rewrite <- R1, sent_lines_app; simpl; rewrite !elem_of_app;
              left; right; apply list_elem_of_here).
    + eexists. split; [eassumption|]. by_class.
    + split; [tauto|]. by_class.
Qed.

(** X17. The protocol of the queues.  In every run the trace keeps the
    protocol of both queues: only the line source sends on the raw-line
    queue and only it closes the queue, once, and nothing is sent after;
    only parse workers send on the triple queue and only [LoadEdges] closes
    it, once, and nothing is sent after; the queues are closed in the state
    exactly when the trace has closed them. *)
Theorem queues_closed_once acts y tr :
  run acts y0 = Some (y, tr) ->
  protocol input_op false tr = Some (closed (input (st y)))
  /\ protocol cnq_op false tr = Some (closed (cnq (st y))).
Proof.
  intros Hrun. by apply inv_protocol_reach, (run_reach acts).
Qed.

(** X18. Nothing is counted that was not read.  For an input of fewer
    than [2^64] lines, in every state of every run [parsed] with the lines
    queued or held by the parse workers is at most [read], and so is
    [processed + ignored]; [read] is at most the number of lines of the
    input. *)
Theorem read_bounds_the_rest acts y tr :
  Z.of_nat (length lines) < 2 ^ 64 ->
  run acts y0 = Some (y, tr) ->
  let c := ctr (st y) in
  parsed c + Z.of_nat (sum_list_with p_uncounted (pws y)
                       + sum_list_with p_holding (pws y)
                       + length (items (input (st y)))) <= read c
  /\ processed c + ignored c <= read c
  /\ read c <= Z.of_nat (length lines).
Proof.
  intros Hlines Hrun c. pose proof (run_reach _ _ _ _ Hrun) as Hr.
  destruct (counters_exact _ _ Hlines Hr) as (Er & Ep & Ed & Ei). fold c in Er, Ep, Ed, Ei.
  pose proof (inv_lines_reach _ _ Hr) as Hl. unfold inv_lines in Hl.
  destruct (inv_flow_reach _ _ Hr) as [Hf _].
  pose proof (inv_read_reach _ _ Hr) as Hrd. unfold inv_read, window_lines in Hrd.
  destruct (inv_reader_reach _ _ Hr) as (Hp & _ & _ & H4).
  apply Permutation_length in Hp. rewrite !length_app in Hp.
  unfold window_lines in Hp.
  assert (Hs : (length (sent_lines tr) <= adds c_read tr)%nat).
  { destruct (rpc (rdr y)); simpl in *; rewrite ?length_app in *; simpl in *; try lia.
    destruct (buf (rdr y)); [done|simpl in *; lia]. }
  assert (Hb : (adds c_read tr <= length lines)%nat).
  { destruct (rpc (rdr y)); simpl in *; rewrite ?length_app in *; simpl in *; lia. }
  repeat split; lia.
Qed.

(** X19. Only triples of the input, and only its own.  In every run every
    line sent on the raw-line queue is a line of the input, every triple
    sent on the triple queue is what [rdf.Parse] made of a line of the
    input, and [nq.ToEdge()] is called only on such triples that satisfy the
    modulo rule of this instance; the same holds of what the queues and the
    workers hold. *)
Theorem only_own_triples_converted acts y tr :
  run acts y0 = Some (y, tr) ->
  Forall (fun ev : event =>
            match ev.2 with
            | OpSendLine l => l ∈ lines
            | OpSendNQuad nq => from_input lines nq
            | OpToEdge nq =>
                from_input lines nq /\ modulo_rule idx n nq = Some true
            | _ => True
            end) tr
  /\ Forall (fun l => l ∈ lines) (items (input (st y)))
  /\ Forall (from_input lines) (items (cnq (st y))).
Proof.
  intros Hrun. pose proof (run_reach _ _ _ _ Hrun) as Hr.
  destruct (inv_prov_reach _ _ Hr) as (I1 & _ & I3 & _ & I5).
  split; [|done]. eapply Forall_impl; [exact I5|].
  intros [t o]. unfold ev_ok, mine. simpl. destruct o; try done.
  intros [H1 H2]. split; [done|].
  destruct (modulo_rule idx n nq) as [[|]|]; done.
Qed.

(** X20. The counters go up.  For an input of fewer than [2^64] lines no
    counter ever goes down: whatever runs after a state of a run, each of
    [read], [parsed], [processed] and [ignored] is at least what it was. *)
Theorem counters_go_up acts y tr acts' y' tr' :
  Z.of_nat (length lines) < 2 ^ 64 ->
  run acts y0 = Some (y, tr) ->
  run acts' y = Some (y', tr') ->
  read (ctr (st y)) <= read (ctr (st y'))
  /\ parsed (ctr (st y)) <= parsed (ctr (st y'))
  /\ processed (ctr (st y)) <= processed (ctr (st y'))
  /\ ignored (ctr (st y)) <= ignored (ctr (st y')).
Proof.
  intros Hlines Hrun Hrun'. pose proof (run_reach _ _ _ _ Hrun) as Hr.
  assert (Hr' : reach y0 y' (tr ++ tr')).
  { eapply reach_trans; [done|]. by eapply run_reach. }
  destruct (counters_exact _ _ Hlines Hr) as (-> & -> & -> & ->).
  destruct (counters_exact _ _ Hlines Hr') as (-> & -> & -> & ->).
  rewrite !adds_app. lia.
Qed.

(** *** To the return *)

(** Every step but a failed [ToEdge] brings the return nearer. *)
Lemma work_step a y y' evs :
  edge_given a -> step a y = Some (y', evs) -> dead y' = false ->
  (work y' < work y)%nat.
Proof.
  intros Ha Hs Hd. unfold work.
  destruct a as [k|i|i [e0|e0]|]; try done.
  - destruct y as [[inp cn ct ii ni er ds] [rl re bf pc] pw mw c d].
    unfold reader_work, window_lines. simpl.
    destruct pc; step_cases Hs; simplify_eq; simpl in *; try done.
    all: rewrite ?length_app, ?length_insert, ?length_drop; simpl.
    all: repeat match goal with
         | H : _ !! _ = Some _ |- _ => apply lookup_lt_Some in H
         | H : _ !! _ = None |- _ => apply lookup_ge_None in H
         end.
    all: lia.
  - destruct y as [[inp cn ct ii ni er ds] r pw mw c d].
    step_cases Hs; try done; rewrite ?length_app; simpl.
    all: sum_ins; simpl in *; lia.
  - destruct y as [[inp cn ct ii ni er ds] r pw mw c d].
    step_cases Hs; try done; rewrite ?length_app; simpl.
    all: sum_ins; simpl in *; lia.
  - destruct y as [[inp cn ct ii ni er ds] r pw mw c d].
    step_cases Hs; try done; simpl; lia.
Qed.

(** On an input without a malformed line, no step but a failed [ToEdge]
    brings an error. *)
Lemma clean_step a y y' evs tr :
  Forall (fun l => malformed l = false) lines ->
  reach y0 y tr ->
  err (st y) = None ->
  sum_list_with p_failing (pws y) = 0%nat ->
  sum_list_with m_failing (mws y) = 0%nat ->
  edge_given a -> step a y = Some (y', evs) ->
  err (st y') = None
  /\ sum_list_with p_failing (pws y') = 0%nat
  /\ sum_list_with m_failing (mws y') = 0%nat.
Proof.
  intros Hwf Hr He Hp Hm Ha Hs.
  destruct (inv_prov_reach _ _ Hr) as (_ & I2 & _).
  destruct y as [[inp cn ct ii ni er ds] r pw mw c d]. simpl in *. subst er.
  destruct a as [k|i|i [e0|e0]|]; try done.
  all: step_cases Hs; try done.
  all: sum_ins; sum_look; simpl in *; try (repeat split; (done || lia)).
  all: exfalso.
  all: match goal with
       | H : ?w !! _ = Some (PCheck ?l) |- _ =>
           pose proof (Forall_lookup_1 _ _ _ _ I2 H) as Hin; simpl in Hin;
           rewrite Forall_forall in Hwf; specialize (Hwf _ Hin)
       end.
  all: by_class.
Qed.

Lemma finishes (e0 : Edge) m y tr :
  0 < maxRoutines cfg -> (1 <= window cfg)%nat -> lend = EOF -> n <> 0 ->
  Forall (fun l => malformed l = false) lines ->
  reach y0 y tr ->
  dead y = false ->
  err (st y) = None ->
  sum_list_with p_failing (pws y) = 0%nat ->
  sum_list_with m_failing (mws y) = 0%nat ->
  (work y <= m)%nat ->
  exists acts' y' tr' k,
    run acts' y = Some (y', tr') /\ co y' = CDone k None
    /\ Forall edge_given acts' /\ (length acts' <= m)%nat.
Proof.
  intros Hmr Hw Hend Hn Hwf. revert y tr.
  induction m as [|m IH]; intros y tr Hr Hd He Hp Hm Hwork.
  - exists [], y, []. destruct (co y) as [| | | |k e] eqn:Hc;
      try (unfold work in Hwork; rewrite Hc in Hwork; simpl in Hwork; lia).
    destruct (inv_ctl_reach _ _ Hr) as (_ & _ & _ & I4).
    destruct (I4 _ _ Hc) as [_ E]. rewrite He in E. subst e.
    exists k. by repeat split.
  - destruct (co y) as [| | | |k e] eqn:Hc.
    5:{ exists [], y, []. destruct (inv_ctl_reach _ _ Hr) as (_ & _ & _ & I4).
        destruct (I4 _ _ Hc) as [_ E]. rewrite He in E. subst e.
        exists k. repeat split; try done. simpl. lia. }
    all: destruct (some_step y tr (inl e0) Hmr Hr Hd He
                     ltac:(rewrite Hc; simpl; lia)) as (a & y1 & evs & Hs & Hans).
    all: assert (Ha : edge_given a)
           by (destruct a as [| |i [|e]|]; try done; by specialize (Hans _ _ eq_refl)).
    all: pose proof (step_no_panic _ _ _ _ _ Hw Hend Hn Hr Hs) as Hd1.
    all: pose proof (work_step _ _ _ _ Ha Hs Hd1) as Hlt.
    all: destruct (clean_step _ _ _ _ _ Hwf Hr He Hp Hm Ha Hs) as (He1 & Hp1 & Hm1).
    all: destruct (IH y1 (tr ++ evs) ltac:(by eapply reach_step) Hd1 He1 Hp1 Hm1
                     ltac:(lia)) as (acts' & y' & tr' & k & Hrun & Hco & Hall & Hlen).
    all: exists (a :: acts'), y', (evs ++ tr'), k.
    all: rewrite (run_cons _ _ _ _ _ Hs), Hrun; repeat split; try done.
    all: try (by constructor).
    all: simpl; lia.
Qed.

(** X21. [LoadEdges] can always finish.  With at least one mutation
    worker, a window of at least one line, a stream that ends in [io.EOF],
    [numInstances] other than zero and an input without a line that
    [rdf.Parse] rejects: from every state of every run in which the process
    is alive, no error is registered and no worker is about to register one,
    there is a way on, with [nq.ToEdge()] giving an edge at every call, to
    the return of [LoadEdges] with a nil error, in no more than [work]
    steps: at most three steps of the line source, four of a parse worker
    and seven of a mutation worker for every line, and one for every
    goroutine to return.  In particular [LoadEdges] can return a nil error
    on every such input. *)
Theorem can_always_finish (e0 : Edge) acts y tr :
  0 < maxRoutines cfg -> (1 <= window cfg)%nat -> lend = EOF -> n <> 0 ->
  Forall (fun l => malformed l = false) lines ->
  run acts y0 = Some (y, tr) ->
  dead y = false ->
  Error (st y) = None ->
  Forall (fun pc => p_failing pc = 0%nat) (pws y) ->
  Forall (fun pc => m_failing pc = 0%nat) (mws y) ->
  exists acts' y' tr' k,
    run acts' y = Some (y', tr') /\ co y' = CDone k None
    /\ Forall edge_given acts' /\ (length acts' <= work y)%nat.
Proof.
  intros Hmr Hw Hend Hn Hwf Hrun Hd He Hp Hm.
  apply (finishes e0 (work y) y tr); try done.
  - by eapply run_reach.
  - by apply (sum_zero_Forall p_failing (fun pc => p_failing pc = 0%nat)).
  - by apply (sum_zero_Forall m_failing (fun pc => m_failing pc = 0%nat)).
Qed.
End Invariants.

(** ** [readLine] *)

Lemma append_assoc (a b c : string) : ((a ++ b) ++ c = a ++ (b ++ c))%string.
Proof. induction a as [|x a IH]; simpl; [done|]. by rewrite IH. Qed.

Lemma append_empty_r (a : string) : (a ++ EmptyString)%string = a.
Proof. induction a as [|x a IH]; simpl; [done|]. by rewrite IH. Qed.

Lemma readLine_loop_pieces pieces last rest e buf :
  readLine_loop (map (fun p => (p, true)) pieces ++ (last, false) :: rest) e buf
  = (None, (buf ++ foldr String.append last pieces)%string, rest).
Proof.
  revert buf. induction pieces as [|p pieces IH]; intros buf; simpl; [done|].
  by rewrite IH, append_assoc.
Qed.

Lemma readLine_loop_cut pieces e buf :
  readLine_loop (map (fun p => (p, true)) pieces) e buf
  = (Some e, (buf ++ foldr String.append EmptyString pieces)%string, []).
Proof.
  revert buf. induction pieces as [|p pieces IH]; intros buf; simpl.
  - by rewrite append_empty_r.
  - by rewrite IH, append_assoc.
Qed.

Lemma readLine_loop_lines frs e acc :
  match readLine_loop frs e acc with
  | (None, l, frs') => lines_of acc frs = l :: lines_of EmptyString frs'
  | (Some e', _, frs') => lines_of acc frs = [] /\ e' = e /\ frs' = []
  end.
Proof.
  revert acc. induction frs as [|[line [|]] frs IH]; intros acc; simpl; [done| |done].
  apply IH.
Qed.

(** X1. [readLine] puts a long line together.  When [ReadLine] gives a
    line in any number of pieces, all but the last with [isPrefix] set,
    [readLine] returns a nil error with the whole line in the buffer,
    whatever the buffer held before, and leaves the reader after the line;
    when the reader fails after pieces of a line, or at once, [readLine]
    returns that error, and the reader has nothing after it. *)
Theorem readLine_reassembles pieces last rest e old :
  readLine_buf (in_pieces pieces last ++ rest) e old
  = (None, foldr String.append last pieces, rest)
  /\ readLine_buf (map (fun p => (p, true)) pieces) e old
     = (Some e, foldr String.append EmptyString pieces, [])
  /\ readLine_buf [] e old = (Some e, EmptyString, []).
Proof.
  unfold readLine_buf, in_pieces. rewrite <- app_assoc. simpl.
  rewrite readLine_loop_pieces, readLine_loop_cut. done.
Qed.

(** X2. The line source reads lines.  [readLine] over the pieces that
    [ReadLine] gives does what the line source of the pipeline does with the
    lines these pieces hold: it returns a nil error with the next line and
    leaves a reader that holds the lines after it, or it returns the
    reader's error when no whole line is left. *)
Theorem readLine_reads_lines frs e old b pc :
  readLine (Reader (lines_of EmptyString frs) e b pc)
  = match readLine_buf frs e old with
    | (None, l, frs') => (inl l, lines_of EmptyString frs')
    | (Some e', _, _) => (inr e', [])
    end.
Proof.
  unfold readLine, readLine_buf. simpl.
  pose proof (readLine_loop_lines frs e EmptyString) as H.
  destruct (readLine_loop frs e EmptyString) as [[[e'|] l] frs'].
  - destruct H as (-> & -> & _). done.
  - by rewrite H.
Qed.

(** ** A full queue and no consumer *)

Lemma stuck_sending_step i a y y' evs :
  stuck_sending i y = true -> step a y = Some (y', evs) ->
  stuck_sending i y' = true
  /\ pws y' !! i = pws y !! i
  /\ items (cnq (st y')) = items (cnq (st y)).
Proof.
  unfold stuck_sending. intros Hst Hs.
  destruct y as [[inp cn ct ii ni er ds] [rl re bf pc] pw mw c d]. simpl in *.
  destruct c; try done. destruct (pw !! i) as [[| | |nq| |]|] eqn:Hi; try done.
  apply andb_prop in Hst as [Hm Hfull].
  assert (Hmx : forall j pc', mw !! j = Some pc' -> pc' = MExit).
  { intros j pc' Hj. apply wg_Wait in Hm.
    pose proof (sum_lookup m_alive _ _ _ Hj) as Hle. destruct pc'; simpl in *; (done || lia). }
  assert (Hnot : forallb is_PExit pw = false).
  { destruct (forallb is_PExit pw) eqn:E; [|done].
    apply pwg_Wait in E. pose proof (sum_lookup p_alive _ _ _ Hi). simpl in *. lia. }
  destruct a as [k|j|j ans|].
  - step_cases Hs; try congruence.
    all: rewrite ?Hm, ?Hfull; repeat split; (done || congruence).
  - destruct (Nat.eqb_spec j i) as [->|Hne].
    + step_cases Hs; try congruence; try lia.
      all: rewrite ?Hm, ?Hfull; repeat split; (done || congruence).
    + step_cases Hs; rewrite ?list_lookup_insert_ne in * by done;
        try congruence; try lia.
      all: rewrite ?Hm, ?Hfull; repeat split; (done || congruence).
  - unfold step in Hs; simpl in Hs. destruct d; [done|].
    destruct (mw !! j) as [pc'|] eqn:Hj; [|done].
    rewrite (Hmx _ _ Hj) in Hs. done.
  - unfold step, LoadEdges_step in Hs; simpl in Hs. rewrite Hnot in Hs.
    by destruct d.
Qed.

(** X15. A full triple queue with no one to empty it.  Once every mutation
    worker has returned (as each does when it sees an error registered)
    while the triple queue is full and a parse worker stands at line 193
    with a triple to send, nothing moves that worker: in every run from
    there it still stands at line 193 with its triple, the queue is as it
    was, no mutation worker runs, [pwg.Wait()] does not return, and so
    neither does [LoadEdges]. *)
Theorem full_queue_no_consumer i y acts y' tr :
  stuck_sending i y = true ->
  run acts y = Some (y', tr) ->
  stuck_sending i y' = true
  /\ pws y' !! i = pws y !! i
  /\ co y' = CWaitParse
  /\ items (cnq (st y')) = items (cnq (st y))
  /\ step AMain y' = None.
Proof.
  intros Hst Hrun.
  assert (H : stuck_sending i y' = true /\ pws y' !! i = pws y !! i
              /\ items (cnq (st y')) = items (cnq (st y))).
  { revert y tr Hst Hrun. induction acts as [|a acts IH]; intros y tr Hst Hrun.
    - injection Hrun as <- <-. done.
    - apply run_cons_inv in Hrun as (y1 & evs & tr' & Hs & Hr & ->).
      destruct (stuck_sending_step _ _ _ _ _ Hst Hs) as (Hst1 & Hp1 & Hq1).
      destruct (IH _ _ Hst1 Hr) as (Hst2 & Hp2 & Hq2).
      split; [done|]. split; congruence. }
  destruct H as (Hst' & Hp & Hq).
  split; [done|]. split; [done|].
  unfold stuck_sending in Hst'. unfold step, LoadEdges_step.
  destruct (co y'); try done.
  destruct (pws y' !! i) as [[| | |nq| |]|] eqn:Hi; try done.
  split; [done|]. split; [done|].
  destruct (forallb is_PExit (pws y')) eqn:E; [|by destruct (dead y')].
  apply pwg_Wait in E. pose proof (sum_lookup p_alive _ _ _ Hi). simpl in *. lia.
Qed.

(** ** After an error *)

Lemma drain_step a y y' evs e :
  err (st y) = Some e -> step a y = Some (y', evs) ->
  err (st y') = Some e
  /\ (mutations evs + sum_list_with m_before_mutation (mws y')
      <= sum_list_with m_before_mutation (mws y))%nat
  /\ (adds c_processed evs + sum_list_with m_before_count (mws y')
      <= sum_list_with m_before_count (mws y))%nat
  /\ (adds c_ignored evs + sum_list_with m_before_ignore (mws y')
      <= sum_list_with m_before_ignore (mws y))%nat
  /\ (triples_sent evs + sum_list_with p_sending (pws y')
      <= sum_list_with p_sending (pws y))%nat
  /\ (adds c_parsed evs + sum_list_with p_before_count (pws y')
      <= sum_list_with p_before_count (pws y))%nat.
Proof.
  intros He Hs.
  destruct y as [[inp cn ct ii ni er ds] [rl re bf pc] pw mw c d].
  simpl in He. subst er.
  unfold mutations, triples_sent, adds.
  step_cases Hs; sum_ins; simpl in *; repeat split; (done || lia).
Qed.

(** X16. After an error the pipeline drains.  From a state with an error
    registered, whatever runs: the error stays; a mutation is applied only
    by a worker that had passed the modulo rule before (lines 214-232), at
    most one each; [processed] and [ignored] move only for workers that held
    a triple past line 209, [parsed] and the triple queue only for parse
    workers that stood at lines 193-194, at most once each.  No line and no
    triple taken off a queue after the error is parsed or converted. *)
Theorem error_drains acts y y' tr e :
  Error (st y) = Some e ->
  run acts y = Some (y', tr) ->
  Error (st y') = Some e
  /\ (mutations tr + sum_list_with m_before_mutation (mws y')
      <= sum_list_with m_before_mutation (mws y))%nat
  /\ (adds c_processed tr + sum_list_with m_before_count (mws y')
      <= sum_list_with m_before_count (mws y))%nat
  /\ (adds c_ignored tr + sum_list_with m_before_ignore (mws y')
      <= sum_list_with m_before_ignore (mws y))%nat
  /\ (triples_sent tr + sum_list_with p_sending (pws y')
      <= sum_list_with p_sending (pws y))%nat
  /\ (adds c_parsed tr + sum_list_with p_before_count (pws y')
      <= sum_list_with p_before_count (pws y))%nat.
Proof.
  unfold Error. revert y tr. induction acts as [|a acts IH]; intros y tr He Hrun.
  - injection Hrun as <- <-. unfold mutations, triples_sent, adds. simpl.
    repeat split; (done || lia).
  - apply run_cons_inv in Hrun as (y1 & evs & tr' & Hs & Hr & ->).
    destruct (drain_step _ _ _ _ _ He Hs) as (He1 & A1 & A2 & A3 & A4 & A5).
    destruct (IH _ _ He1 Hr) as (He2 & B1 & B2 & B3 & B4 & B5).
    unfold mutations, triples_sent, adds in *. rewrite !sum_list_with_app.
    repeat split; (done || lia).
Qed.

(** ** The instances share the input *)

(** The sum of [f i] over [i < k]. *)
Fixpoint total (f : nat -> Z) (k : nat) : Z :=
  match k with
  | O => 0
  | S k' => total f k' + f k'
  end.

Lemma total_add f g k : total (fun i => f i + g i) k = total f k + total g k.
Proof. induction k as [|k IH]; simpl; lia. Qed.

Lemma total_zero k : total (fun _ => 0) k = 0.
Proof. induction k as [|k IH]; simpl; lia. Qed.

Lemma total_ext f g k : (forall i, (i < k)%nat -> f i = g i) -> total f k = total g k.
Proof.
  induction k as [|k IH]; intros H; simpl; [done|].
  rewrite IH, H; [done|lia|]. intros i Hi. apply H. lia.
Qed.

Lemma total_hit (r : Z) k :
  0 <= r ->
  total (fun i => if r =? Z.of_nat i then 1 else 0) k
  = if r <? Z.of_nat k then 1 else 0.
Proof.
  intros Hr. induction k as [|k IH]; simpl total.
  - destruct (r <? Z.of_nat 0) eqn:E; lia.
  - rewrite IH. repeat case_match; lia.
Qed.

(** Every triple satisfies the modulo rule of exactly one of [n] instances. *)
Lemma one_owner (n : nat) nq :
  (0 < n)%nat ->
  total (fun i => if mine (Z.of_nat i) (Z.of_nat n) nq then 1 else 0) n = 1.
Proof.
  intros Hn. unfold mine, modulo_rule, owns. simpl.
  destruct (Z.of_nat n =? 0) eqn:E; [lia|].
  set (r := u64 (Fingerprint64 (Predicate nq)) mod Z.of_nat n).
  assert (Hr : 0 <= r < Z.of_nat n) by (apply Z.mod_pos_bound; lia).
  rewrite (total_ext _ (fun i => if r =? Z.of_nat i then 1 else 0)).
  - rewrite total_hit by lia. case_match; lia.
  - intros i _. by destruct (r =? Z.of_nat i).
Qed.

Lemma shares_add_up (n : nat) (lines : list string) :
  (0 < n)%nat ->
  total (fun i => Z.of_nat (tally (line_mine (Z.of_nat i) (Z.of_nat n)) lines)) n
  = Z.of_nat (tally well_formed lines).
Proof.
  intros Hn. induction lines as [|l lines IH]; unfold tally in *; simpl.
  - apply total_zero.
  - rewrite <- (total_ext
      (fun i => (if line_mine (Z.of_nat i) (Z.of_nat n) l then 1 else 0)
                + Z.of_nat (sum_list_with
                    (fun x => if line_mine (Z.of_nat i) (Z.of_nat n) x
                              then 1%nat else 0%nat) lines))).
    2:{ intros i _. case_match; lia. }
    rewrite total_add, IH. unfold line_mine, well_formed.
    destruct (parse_line l) as [[nq|e]|].
    + rewrite (one_owner n nq Hn). lia.
    + rewrite total_zero. lia.
    + rewrite total_zero. lia.
Qed.

(** X10. The instances share the input.  Let [n >= 1] instances, each with
    at least one mutation worker, load the same input of fewer than [2^64]
    lines, instance [i] as [LoadEdges(reader, i, n)], and let each return a
    nil error, instance [i] with the count [ks i].  Then the counts add up
    to the number of lines of the input that are not blank: every triple
    was processed by one instance and by no other. *)
Theorem instances_share_input lines lend (n : nat) (ks : nat -> Z) :
  0 < maxRoutines cfg ->
  (0 < n)%nat ->
  Z.of_nat (length lines) < 2 ^ 64 ->
  (forall i, (i < n)%nat ->
     exists acts y tr,
       run acts (LoadEdges_start lines lend (Z.of_nat i) (Z.of_nat n)) = Some (y, tr)
       /\ co y = CDone (ks i) None) ->
  total ks n = Z.of_nat (tally nonblank lines).
Proof.
  intros Hm Hn Hlines Hruns.
  assert (Hk : forall i, (i < n)%nat ->
            ks i = Z.of_nat (tally (line_mine (Z.of_nat i) (Z.of_nat n)) lines)
            /\ tally malformed lines = 0%nat).
  { intros i Hi. destruct (Hruns i Hi) as (acts & y & tr & Hrun & Hc).
    pose proof (run_reach _ _ _ _ Hrun) as Hr.
    destruct (success_tallies _ _ _ _ _ _ _ Hm Hr Hc) as (H0 & H1 & _).
    destruct (success_state _ _ _ _ _ _ _ Hr Hc) as (_ & _ & _ & _ & _ & _ & ->).
    destruct (counters_exact _ _ _ _ _ _ Hlines Hr) as (_ & _ & -> & _).
    by rewrite H1. }
  rewrite (total_ext ks _ n (fun i Hi => proj1 (Hk i Hi))), shares_add_up by done.
  destruct (Hk 0%nat Hn) as [_ H0]. f_equal. clear -H0.
  unfold tally in *. induction lines as [|l lines IH]; simpl in *; [done|].
  unfold malformed, nonblank, well_formed in *.
  destruct (parse_line l) as [[?|?]|]; simpl in *; (lia || (rewrite IH; lia)).
Qed.
End Loader.

(** ** Stand-ins for the collaborators, to run the pipeline on inputs *)

Module Demo.

(** A triple [subject predicate object]. *)
Record NQuad : Type := Triple {
  Subject : string;
  Predicate : string;
  Object : string
}.

(** An edge, by entity and attribute. *)
Record Edge : Type := MkEdge {
  Entity : string;
  Attribute : string
}.

(** Splits at blanks. *)
Fixpoint words (acc : string) (l : string) : list string :=
  match l with
  | EmptyString => [acc]
  | String c rest =>
      if Ascii.eqb c " " then acc :: words EmptyString rest
      else words (acc ++ String c EmptyString)%string rest
  end.

(** Accepts exactly [s p o .]. *)
Definition rdf_Parse (line : string) : NQuad + error :=
  match words EmptyString line with
  | [s; p; o; dot] =>
      if String.eqb dot "." then inl (Triple s p o)
      else inr (OtherError "no terminating dot")
  | _ => inr (OtherError "not a triple")
  end.

(** The length of the name, as a fingerprint. *)
Definition Fingerprint64 (b : string) : Z := Z.of_nat (String.length b).

Definition posting_Key (e : Edge) : string :=
  (Entity e ++ "|" ++ Attribute e)%string.

Definition dsys : Type := @sys NQuad Edge.
Definition devent : Type := @event NQuad Edge.
Definition daction : Type := @action Edge.

Definition start (cfg : config) (lines : list string) (idx n : Z) : dsys :=
  LoadEdges_start cfg lines EOF idx n.

Definition exec (cfg : config) (acts : list daction) (y : dsys)
  : option (dsys * list devent) :=
  run Predicate rdf_Parse Fingerprint64 posting_Key cfg acts y.

(** The state a schedule leads to, and what was done on the way. *)
Definition state_after (cfg : config) (acts : list daction) (y : dsys) : dsys :=
  match exec cfg acts y with Some (y', _) => y' | None => y end.
Definition trace_of (cfg : config) (acts : list daction) (y : dsys) : list devent :=
  match exec cfg acts y with Some (_, tr) => tr | None => [] end.

(** Schedules are written with one letter per goroutine. *)
Definition R : daction := AReader 0.
Definition P (i : nat) : daction := AParse i.
Definition M (i : nat) : daction := AMut i (inl (MkEdge "a" "b")).
Definition T (i : nat) : daction := AMut i (inr E_TMP_ERROR).
Definition F (i : nat) : daction := AMut i (inr (OtherError "no such uid")).
Definition C : daction := AMain.

Definition abc : NQuad := Triple "a" "b" "c".

(** A window of two lines, one parse worker, one mutation worker. *)
Definition small : config := Config 2 1 1.
(** The source's window and one processor, with no mutation worker:
    [-maxroutines=0]. *)
Definition idle : config := Config 1000 1 0.
(** The source's values on one processor. *)
Definition stock : config := default_config 1.
(** Two parse workers. *)
Definition pair_of_parsers : config := Config 2 2 1.
(** A window of three lines, two workers at each stage. *)
Definition wide : config := Config 3 2 2.

(** The line source reads its one line and closes the queue; the parse
    worker parses it and sends the triple, without counting it yet. *)
Definition sent_not_counted : list daction := [R; R; R; R; P 0; P 0; P 0].

(** Scenario A of the specification, [a b c .] on one instance, with one
    transient failure of [ToEdge], to the return of [LoadEdges]. *)
Definition scenario_A : list daction :=
  sent_not_counted ++ [M 0; M 0; T 0; M 0; M 0; M 0; M 0; M 0]
    ++ [P 0; P 0; C; C; M 0; C; C].

(** The mutation worker has applied the edge and counted it; the parse
    worker has still not counted the triple. *)
Definition processed_first : list daction :=
  sent_not_counted ++ [M 0; M 0; M 0; M 0; M 0; M 0; M 0].

(** No mutation worker: the parse worker finishes, and so does [LoadEdges]. *)
Definition nobody_mutates : list daction :=
  [R; R; R; R; P 0; P 0; P 0; P 0; P 0; C; C; C; C].

(** Two malformed lines, one per parse worker; worker 1 reports first. *)
Definition two_errors : list daction :=
  [R; R; R; R; R; P 0; P 1; P 0; P 1; P 1; P 0; C; C; M 0; C; C].

(** A good line, a malformed one, a good one: parse worker 0 takes the first
    two and sets the register, with a line and a triple still queued. *)
Definition error_with_work_queued : list daction :=
  [R; R; R; R; R; R; R; P 0; P 0; P 0; P 0; P 0; P 0; P 0].

(** ... and on to the return of [LoadEdges]. *)
Definition error_to_the_end : list daction :=
  error_with_work_queued ++ [P 1; P 1; M 0; M 0; C; C; M 1; C; C].

Definition three_lines : list string := ["a b c ."; "x"; "a b c ."]%string.

(** A window of two lines on three: the draw picks slot 1, so the second
    line leaves first. *)
Definition shuffled : list daction :=
  [R; R; AReader 1; R; R; R; R; R; R].

(** Instance 0 of [n], its mutation worker holding the triple of [a b c .]
    that it has just dequeued. *)
Definition at_check (n : Z) : dsys :=
  state_after small (sent_not_counted ++ [M 0]) (start small ["a b c ."%string] 0 n).

(** The register set by parse worker 0, a line and a triple still queued. *)
Definition after_the_error : dsys :=
  Eval vm_compute in
    state_after wide error_with_work_queued (start wide three_lines 0 1).

(** Three transient failures and the edge for worker 0, with the parse
    worker and [LoadEdges] running in between. *)
Definition retries_among_others : list daction :=
  [T 0; P 0; T 0; T 0; M 0; P 0; M 0; C; M 0; C; M 0; M 0].

(** What a run shows of its end: the counters, the register, both queues,
    the workers and the coordinator. *)
Definition view (r : option (dsys * list devent)) :=
  option_map
    (fun p : dsys * list devent =>
       (ctr (st p.1), Error (st p.1), items (input (st p.1)),
        items (cnq (st p.1)), pws p.1, mws p.1, co p.1))
    r.


(** [k] times the schedule [l]. *)
Definition times {A : Type} (k : nat) (l : list A) : list A := concat (replicate k l).

(** A triple for each instance of two: the predicate [b] has fingerprint
    1 and [bb] has fingerprint 2. *)
Definition two_lines : list string := ["a b c ."; "a bb c ."]%string.

(** Both lines to the return of [LoadEdges] on an instance of two: the
    mutation worker takes three steps for the triple it leaves and seven for
    the one it keeps. *)
Definition two_to_the_end : list daction :=
  times 6 [R] ++ times 9 [P 0] ++ times 10 [M 0] ++ [C; C; M 0; C; C].

(** A triple and a blank line, to the return of [LoadEdges]. *)
Definition with_blank_line : list string := ["a b c ."; "  "]%string.
Definition blank_to_the_end : list daction :=
  times 6 [R] ++ times 7 [P 0] ++ times 7 [M 0] ++ [C; C; M 0; C; C].

(** The first of three lines is parsed and its edge applied; the second
    does not parse, and the run goes on to the return of [LoadEdges]. *)
Definition error_after_one : list daction :=
  times 7 [R] ++ times 4 [P 0] ++ times 7 [M 0] ++ times 3 [P 0]
  ++ [P 1; P 1; C; C; M 0; M 1; C; C].

(** A window of one line, one parse worker, one mutation worker. *)
Definition narrow : config := Config 1 1 1.

(** 10002 triples: one for the mutation worker, 10000 for the queue, one
    for the parse worker. *)
Definition flood : list string := replicate (Z.to_nat 10002) "a b c ."%string.

(** A line from the source through the parse worker. *)
Definition one_line_through : list daction := [R; R; R; P 0; P 0; P 0; P 0].

(** The mutation worker takes the first triple and [ToEdge] fails for
    good; before the worker registers the error the parse worker fills the
    queue and stands with one more triple; then the error is registered and
    the mutation worker returns. *)
Definition jam : list daction :=
  [R] ++ one_line_through ++ [M 0; M 0; F 0]
  ++ times (Z.to_nat 10000) one_line_through
  ++ [R; R; R; P 0; P 0] ++ [F 0].

Definition dpsys : Type := @psys NQuad Edge.
Definition dpevent : Type := @pevent NQuad Edge.
Definition dpaction : Type := @paction Edge.

Definition pexec (cfg : config) (acts : list dpaction) (m : dpsys)
  : option (dpsys * list dpevent) :=
  prun Predicate rdf_Parse Fingerprint64 posting_Key cfg acts m.

(** Scenario A with a tick after the mutation worker has counted its edge
    and before the parse worker has counted the triple: [printCounters]
    loads the counters and prints. *)
Definition printing : list dpaction :=
  map PDo (sent_not_counted ++ [M 0; M 0; T 0; M 0; M 0; M 0; M 0; M 0])
  ++ [PTick; PPrint; PPrint; PPrint; PPrint; PPrint; PPrint]
  ++ map PDo [P 0; P 0; C; C; M 0; C; C].

End Demo.

(** ** The theorems on concrete runs *)

Section Runs.

Import Demo.

(** One triple on instance 0 of 2: the predicate [b] has fingerprint 1, so
    the worker ignores the triple. *)
Lemma sharding_rule_witness :
  let y := at_check 2 in
  mws y !! 0%nat = Some (MCheck abc)
  /\ owns Demo.Predicate Demo.Fingerprint64 (st y) abc = Some false
  /\ view (exec small [M 0; M 0] y)
     = Some (Counters 1 0 0 1, None, [], [], [PCount], [MRecv], CWaitParse).
Proof.
  intros y.
  destruct (sharding_rule Demo.Predicate Demo.rdf_Parse Demo.Fingerprint64
              Demo.posting_Key small y 0 abc
              (inl (MkEdge "a" "b")) (inl (MkEdge "a" "b")))
    as (_ & _ & _ & H4 & _);
    [reflexivity | reflexivity | reflexivity | vm_compute; discriminate |].
  split; [reflexivity|]. split; [reflexivity|].
  exact (eq_trans (f_equal view (H4 eq_refl)) eq_refl).
Defined.

(** C2 fails with no mutation worker: [LoadEdges] returns [(0, nil)] with
    one triple parsed, still in the queue, neither processed nor ignored. *)
Lemma completed_run_counts_counterexample :
  exists y tr,
    exec idle nobody_mutates (start idle ["a b c ."%string] 0 1) = Some (y, tr)
    /\ co y = CDone 0 None
    /\ parsed (ctr (st y)) = 1
    /\ processed (ctr (st y)) + ignored (ctr (st y)) = 0
    /\ items (cnq (st y)) = [abc].
Proof. eexists _, _. split; [vm_compute; reflexivity|]. by repeat split. Qed.

(** Scenario A to its end: one line read, parsed and processed. *)
Lemma completed_run_counts_witness :
  exists y tr,
    exec small scenario_A (start small ["a b c ."%string] 0 1) = Some (y, tr)
    /\ co y = CDone 1 None
    /\ parsed (ctr (st y)) = processed (ctr (st y)) + ignored (ctr (st y))
    /\ items (cnq (st y)) = [].
Proof.
  eexists _, _. split; [vm_compute; reflexivity|].
  destruct (completed_run_counts Demo.Predicate Demo.rdf_Parse Demo.Fingerprint64
              Demo.posting_Key small ["a b c ."%string] EOF 0 1 scenario_A _ _ 1
              eq_refl ltac:(vm_compute; reflexivity) eq_refl)
    as (_ & H2 & H3).
  split; [reflexivity|]. split; [|exact H3].
  apply H2. vm_compute. reflexivity.
Defined.

(** Two parse workers fail on a line each; the register keeps the error of
    the one that called [SetError] first, and [LoadEdges] returns it. *)
Lemma first_error_wins_witness :
  exists y tr,
    exec pair_of_parsers two_errors
      (start pair_of_parsers ["x"; "p q r s"]%string 0 1) = Some (y, tr)
    /\ set_errors tr = [OtherError "no terminating dot"; OtherError "not a triple"]
    /\ Error (st y) = Some (OtherError "no terminating dot")
    /\ co y = CDone 0 (Some (OtherError "no terminating dot")).
Proof.
  eexists _, _. split; [vm_compute; reflexivity|].
  destruct (first_error_wins Demo.Predicate Demo.rdf_Parse Demo.Fingerprint64
              Demo.posting_Key pair_of_parsers ["x"; "p q r s"]%string EOF 0 1
              two_errors _ _ ltac:(vm_compute; reflexivity))
    as (_ & H2 & _).
  split; [reflexivity|]. split; [|reflexivity].
  exact (eq_trans H2 eq_refl).
Defined.

(** Scenario A: at the return every worker has returned, the queue is
    closed, and the count returned is the counter. *)
Lemma shutdown_order_witness :
  exists y tr,
    exec small scenario_A (start small ["a b c ."%string] 0 1) = Some (y, tr)
    /\ closed (cnq (st y)) = true
    /\ Forall (fun pc => pc = PExit) (pws y)
    /\ Forall (fun pc => pc = MExit) (mws y)
    /\ co y = CDone 1 None
    /\ processed (ctr (st y)) = 1.
Proof.
  eexists _, _. split; [vm_compute; reflexivity|].
  destruct (shutdown_order Demo.Predicate Demo.rdf_Parse Demo.Fingerprint64
              Demo.posting_Key small ["a b c ."%string] EOF 0 1
              scenario_A _ _ ltac:(vm_compute; reflexivity))
    as (H1 & _ & H3 & H4).
  split; [reflexivity|]. split; [exact (H1 eq_refl)|].
  split; [apply H3; exact (le_S _ _ (le_n 3))|].
  split; [reflexivity|].
  destruct (H4 1 None eq_refl) as [H5 _]. symmetry. exact H5.
Defined.

(** Three lines through a window of two, the draw taking slot 1: the lines
    leave in another order, and they are the same lines. *)
Lemma line_source_keeps_lines_witness :
  exists y tr,
    exec small shuffled (start small ["l1"; "l2"; "l3"]%string 0 1) = Some (y, tr)
    /\ rpc (rdr y) = RDone
    /\ sent_lines tr = ["l2"; "l1"; "l3"]%string
    /\ sent_lines tr ≡ₚ ["l1"; "l2"; "l3"]%string.
Proof.
  eexists _, _. split; [vm_compute; reflexivity|].
  destruct (line_source_keeps_lines Demo.Predicate Demo.rdf_Parse Demo.Fingerprint64
              Demo.posting_Key small ["l1"; "l2"; "l3"]%string EOF 0 1
              shuffled _ _ ltac:(vm_compute; lia) eq_refl
              ltac:(vm_compute; reflexivity))
    as (_ & H2 & _).
  split; [reflexivity|]. split; [reflexivity|].
  exact (H2 eq_refl).
Defined.

(** Three transient failures, then the edge: [processed] goes from 0 to 1.
    Three transient failures, then another error: it is recorded, and
    [processed] stays 0.  With the other goroutines running in between, the
    worker makes the same calls and is back at the head of its loop. *)
Lemma retry_converges_witness :
  let y := at_check 1 in
  let y1 := state_after small [M 0] y in
  view (exec small (M 0 :: replicate 3 (T 0) ++ M 0 :: replicate 4 (M 0)) y)
    = Some (Counters 1 0 1 0, None, [], [], [PCount], [MRecv], CWaitParse)
  /\ view (exec small (M 0 :: replicate 3 (T 0) ++ [F 0; M 0]) y)
    = Some (Counters 1 0 0 0, Some (OtherError "no such uid"), [], [],
            [PCount], [MExit], CWaitParse)
  /\ view (exec small retries_among_others y1)
    = Some (Counters 1 1 1 0, None, [], [], [PExit], [MRecv], CWaitMut)
  /\ mws (state_after small retries_among_others y1) !! 0%nat = Some MRecv
  /\ ops_of (TMut 0) (trace_of small retries_among_others y1)
    = retries abc 3 ++
      [OpToEdge abc; OpGetOrCreate 0 "a|b"; OpAddMutation 0 (MkEdge "a" "b");
       OpDecr 0; OpAdd c_processed].
Proof.
  intros y y1.
  destruct (retry_converges Demo.Predicate Demo.rdf_Parse Demo.Fingerprint64
              Demo.posting_Key small y 0 abc 3 (MkEdge "a" "b")
              (OtherError "no such uid") (inl (MkEdge "a" "b"))
              eq_refl eq_refl eq_refl eq_refl)
    as (H1 & _ & H3 & H4 & _).
  destruct (H3 eq_refl) as (H5 & _).
  destruct (H4 y1 retries_among_others
              (state_after small retries_among_others y1)
              (trace_of small retries_among_others y1)
              (inl (MkEdge "a" "b")) (inl (MkEdge "a" "b"))
              (inl (MkEdge "a" "b")) (inl (MkEdge "a" "b"))
              eq_refl ltac:(vm_compute; reflexivity) eq_refl)
    as (H6 & _).
  split; [exact (eq_trans (f_equal view H1) eq_refl)|].
  split; [exact (eq_trans (f_equal view H5) eq_refl)|].
  split; [vm_compute; reflexivity|].
  split; [exact H6|]. vm_compute. reflexivity.
Defined.

(** C7 fails in scenario A with the source's window and 3000 mutation
    workers: worker 0 has counted the triple as processed while the parse
    worker has not yet counted it as parsed; the [pending] figure of
    [printCounters] would wrap around. *)
Lemma counters_order_counterexample :
  exists y tr,
    exec stock processed_first (start stock ["a b c ."%string] 0 1) = Some (y, tr)
    /\ pws y = [PCount]
    /\ parsed (ctr (st y)) = 0
    /\ processed (ctr (st y)) = 1
    /\ ignored (ctr (st y)) = 0
    /\ parsed (ctr (st y)) < processed (ctr (st y)) + ignored (ctr (st y))
    /\ pending (ctr (st y)) = 2 ^ 64 - 1.
Proof. eexists _, _. split; [vm_compute; reflexivity|]. by repeat split. Qed.

(** The same state: the one uncounted triple accounts for the difference. *)
Lemma counters_order_witness :
  exists y tr,
    exec small processed_first (start small ["a b c ."%string] 0 1) = Some (y, tr)
    /\ sum_list_with p_uncounted (pws y) = 1%nat
    /\ processed (ctr (st y)) + ignored (ctr (st y)) <= parsed (ctr (st y)) + 1.
Proof.
  eexists _, _. split; [vm_compute; reflexivity|].
  destruct (counters_order Demo.Predicate Demo.rdf_Parse Demo.Fingerprint64
              Demo.posting_Key small ["a b c ."%string] EOF 0 1
              processed_first _ _ eq_refl ltac:(vm_compute; reflexivity))
    as (H1 & _).
  split; [reflexivity|]. exact H1.
Defined.

(** Scenario A: handle 0 is taken, used and released once by worker 0. *)
Lemma lease_released_once_witness :
  exists y tr,
    exec small scenario_A (start small ["a b c ."%string] 0 1) = Some (y, tr)
    /\ lease_run LFree (ops_of (TMut 0) tr) = Some LFree
    /\ gets 0 tr = 1%nat
    /\ decrs 0 tr = 1%nat.
Proof.
  eexists _, _. split; [vm_compute; reflexivity|].
  destruct (lease_released_once Demo.Predicate Demo.rdf_Parse Demo.Fingerprint64
              Demo.posting_Key small ["a b c ."%string] EOF 0 1
              scenario_A _ _ ltac:(vm_compute; reflexivity))
    as (H1 & _ & H3).
  split; [exact (H1 0%nat MExit eq_refl)|]. split; [reflexivity|].
  refine (eq_trans (H3 0%nat _) eq_refl). repeat constructor.
Defined.

(** [numInstances = 0]: the first worker to check a triple takes the
    process down. *)
Lemma modulo_by_zero_witness :
  let y := at_check 0 in
  mws y !! 0%nat = Some (MCheck abc)
  /\ option_map (fun p : dsys * list devent => (dead p.1, p.2))
       (step Demo.Predicate Demo.rdf_Parse Demo.Fingerprint64 Demo.posting_Key
          small (M 0) y)
     = Some (true, [(TMut 0, OpDie)]).
Proof.
  intros y.
  destruct (modulo_by_zero Demo.Predicate Demo.rdf_Parse Demo.Fingerprint64
              Demo.posting_Key small y 0 abc (inl (MkEdge "a" "b"))
              eq_refl eq_refl eq_refl)
    as (_ & H2 & _).
  destruct (H2 eq_refl) as (H3 & _).
  split; [reflexivity|].
  exact (eq_trans (f_equal (option_map _) H3) eq_refl).
Defined.

(** With the register set by parse worker 0, parse worker 1 still takes the
    queued line and mutation worker 1 the queued triple; both return, and
    the counters stay at 3 read, 1 parsed, 0 processed, 0 ignored. *)
Lemma error_checked_after_dequeue_witness :
  let y := after_the_error in
  view (Some (y, []))
    = Some (Counters 3 1 0 0, Some (OtherError "not a triple"),
            ["a b c ."%string], [abc], [PExit; PRecv], [MRecv; MRecv], CWaitParse)
  /\ view (exec wide [P 1; P 1] y)
    = Some (Counters 3 1 0 0, Some (OtherError "not a triple"),
            [], [abc], [PExit; PExit], [MRecv; MRecv], CWaitParse)
  /\ view (exec wide [M 1; M 1] y)
    = Some (Counters 3 1 0 0, Some (OtherError "not a triple"),
            ["a b c ."%string], [], [PExit; PRecv], [MRecv; MExit], CWaitParse).
Proof.
  intros y.
  destruct (error_checked_after_dequeue Demo.Predicate Demo.rdf_Parse
              Demo.Fingerprint64 Demo.posting_Key wide three_lines EOF 0 1
              error_with_work_queued y
              (trace_of wide error_with_work_queued (start wide three_lines 0 1))
              1 (OtherError "not a triple") (inl (MkEdge "a" "b"))
              ltac:(vm_compute; reflexivity) eq_refl eq_refl)
    as (H1 & H2).
  split; [reflexivity|]. split.
  - exact (eq_trans (f_equal view (proj1 (H1 _ _ eq_refl eq_refl))) eq_refl).
  - exact (eq_trans (f_equal view (proj1 (H2 _ _ eq_refl eq_refl))) eq_refl).
Defined.

(** That run to its end: [LoadEdges] returns [(0, err)]; of three lines read
    one was parsed, and that triple was neither processed nor ignored. *)
Example error_leaves_items_uncounted :
  view (exec wide error_to_the_end (start wide three_lines 0 1))
    = Some (Counters 3 1 0 0, Some (OtherError "not a triple"), [], [],
            [PExit; PExit], [MExit; MExit],
            CDone 0 (Some (OtherError "not a triple"))).
Proof. vm_compute. reflexivity. Qed.

(** Scenario B of the specification: the same line on instance 1 of 2 is
    processed, on instance 0 of 2 it is ignored. *)
Example scenario_B :
  view (exec small scenario_A (start small ["a b c ."%string] 1 2))
    = Some (Counters 1 1 1 0, None, [], [], [PExit], [MExit], CDone 1 None)
  /\ view (exec small
             (sent_not_counted ++ [M 0; M 0; M 0; P 0; P 0; C; C; M 0; C; C])
             (start small ["a b c ."%string] 0 2))
    = Some (Counters 1 1 0 1, None, [], [], [PExit], [MExit], CDone 0 None).
Proof. split; vm_compute; reflexivity. Qed.


(** *** More of the code on concrete runs *)

(** Three lines on a window of three, two workers at each stage: with a
    line and a triple queued after the error, both queues and the window are
    within their bounds. *)
Lemma queues_bounded_witness :
  exists y tr,
    exec wide error_with_work_queued (start wide three_lines 0 1) = Some (y, tr)
    /\ Z.of_nat (length (items (input (st y)))) <= 10000
    /\ Z.of_nat (length (items (cnq (st y)))) <= 10000
    /\ (length (buf (rdr y)) <= 3)%nat.
Proof.
  eexists _, _. split; [vm_compute; reflexivity|].
  destruct (queues_bounded Demo.Predicate Demo.rdf_Parse Demo.Fingerprint64
              Demo.posting_Key wide three_lines EOF 0 1 error_with_work_queued _ _
              ltac:(vm_compute; reflexivity))
    as (_ & _ & H3 & H4 & H5 & _).
  split; [exact H3|]. split; [exact H4|exact H5].
Defined.

(** Scenario A runs to its end with the process alive. *)
Lemma never_panics_witness :
  exists y tr,
    exec small scenario_A (start small ["a b c ."%string] 0 1) = Some (y, tr)
    /\ dead y = false.
Proof.
  eexists _, _. split; [vm_compute; reflexivity|].
  exact (proj1 (never_panics Demo.Predicate Demo.rdf_Parse Demo.Fingerprint64
                  Demo.posting_Key small ["a b c ."%string] EOF 0 1 scenario_A _ _
                  (le_S _ _ (le_n 1)) eq_refl ltac:(discriminate)
                  ltac:(vm_compute; discriminate) ltac:(vm_compute; reflexivity))).
Defined.

(** With the triple of [a b c .] in the queue and the parse worker about
    to count it, some goroutine can run. *)
Lemma progress_without_error_witness :
  exists y tr a y' evs,
    exec small sent_not_counted (start small ["a b c ."%string] 0 1) = Some (y, tr)
    /\ step Demo.Predicate Demo.rdf_Parse Demo.Fingerprint64 Demo.posting_Key
         small a y = Some (y', evs).
Proof.
  destruct (progress_without_error Demo.Predicate Demo.rdf_Parse Demo.Fingerprint64
              Demo.posting_Key small ["a b c ."%string] EOF 0 1 sent_not_counted _ _
              (inl (MkEdge "a" "b"))
              ltac:(vm_compute; reflexivity) ltac:(vm_compute; reflexivity)
              eq_refl eq_refl (le_S _ _ (le_S _ _ (le_S _ _ (le_n 1)))))
    as (a & y' & evs & Hs & _).
  eexists _, _, a, y', evs. split; [vm_compute; reflexivity|exact Hs].
Defined.

(** Scenario A: one line, and [read] is 1 once the line source is done. *)
Lemma read_counts_lines_witness :
  exists y tr,
    exec small scenario_A (start small ["a b c ."%string] 0 1) = Some (y, tr)
    /\ rpc (rdr y) = RDone
    /\ read (ctr (st y)) = 1.
Proof.
  eexists _, _. split; [vm_compute; reflexivity|].
  split; [reflexivity|].
  exact (proj2 (read_counts_lines Demo.Predicate Demo.rdf_Parse Demo.Fingerprint64
                  Demo.posting_Key small ["a b c ."%string] EOF 0 1 scenario_A _ _
                  ltac:(vm_compute; reflexivity) ltac:(vm_compute; reflexivity))
               eq_refl).
Defined.

(** Scenario A returns a nil error: its one line is well formed. *)
Lemma malformed_line_is_reported_witness :
  exists y tr,
    exec small scenario_A (start small ["a b c ."%string] 0 1) = Some (y, tr)
    /\ co y = CDone 1 None
    /\ Forall (fun l => malformed Demo.rdf_Parse l = false) ["a b c ."%string].
Proof.
  eexists _, _. split; [vm_compute; reflexivity|].
  split; [reflexivity|].
  exact (proj1 (malformed_line_is_reported Demo.Predicate Demo.rdf_Parse
                  Demo.Fingerprint64 Demo.posting_Key small ["a b c ."%string]
                  EOF 0 1 scenario_A _ _ 1
                  ltac:(vm_compute; reflexivity) eq_refl)).
Defined.

(** A triple and a blank line: two lines read, one parsed, one blank. *)
Lemma success_counts_lines_witness :
  exists y tr,
    exec small blank_to_the_end (start small with_blank_line 0 1) = Some (y, tr)
    /\ co y = CDone 1 None
    /\ read (ctr (st y)) = 2
    /\ parsed (ctr (st y)) = 1
    /\ read (ctr (st y)) = parsed (ctr (st y)) + 1.
Proof.
  eexists _, _. split; [vm_compute; reflexivity|].
  split; [reflexivity|].
  exact (success_counts_lines Demo.Predicate Demo.rdf_Parse Demo.Fingerprint64
           Demo.posting_Key small with_blank_line EOF 0 1 blank_to_the_end _ _ 1
           ltac:(vm_compute; reflexivity) ltac:(vm_compute; reflexivity) eq_refl).
Defined.

(** Two triples on instance 0 of 2: it keeps the one with predicate [bb]
    and leaves the other. *)
Lemma success_counts_share_witness :
  exists y tr,
    exec small two_to_the_end (start small two_lines 0 2) = Some (y, tr)
    /\ co y = CDone 1 None
    /\ processed (ctr (st y)) = 1
    /\ ignored (ctr (st y)) = 1.
Proof.
  eexists _, _. split; [vm_compute; reflexivity|].
  split; [reflexivity|].
  exact (proj2 (success_counts_share Demo.Predicate Demo.rdf_Parse
                  Demo.Fingerprint64 Demo.posting_Key small two_lines EOF 0 2
                  two_to_the_end _ _ 1
                  ltac:(vm_compute; reflexivity) ltac:(vm_compute; reflexivity)
                  ltac:(vm_compute; reflexivity) eq_refl)).
Defined.

(** The same two triples on both instances of two: each returns 1, and
    the input has two lines that are not blank. *)
Lemma instances_share_input_witness :
  total (fun _ => 1) 2 = Z.of_nat (tally (nonblank Demo.rdf_Parse) two_lines).
Proof.
  apply (instances_share_input Demo.Predicate Demo.rdf_Parse Demo.Fingerprint64
           Demo.posting_Key small two_lines EOF 2 (fun _ => 1)).
  - vm_compute. reflexivity.
  - exact (le_S _ _ (le_n 1)).
  - vm_compute. reflexivity.
  - intros [|[|i]] Hi.
    + exists two_to_the_end. eexists _, _. split; [vm_compute; reflexivity|reflexivity].
    + exists two_to_the_end. eexists _, _. split; [vm_compute; reflexivity|reflexivity].
    + exfalso. lia.
Defined.

(** A run that returns an error after one edge was applied: the count
    returned is 1, the number of mutations. *)
Lemma returned_count_is_mutations_witness :
  exists y tr e,
    exec wide error_after_one (start wide three_lines 0 1) = Some (y, tr)
    /\ co y = CDone 1 (Some e)
    /\ 1 = Z.of_nat (mutations tr)
    /\ lookups tr = mutations tr
    /\ releases tr = mutations tr.
Proof.
  eexists _, _, _. split; [vm_compute; reflexivity|].
  split; [reflexivity|].
  exact (returned_count_is_mutations Demo.Predicate Demo.rdf_Parse Demo.Fingerprint64
           Demo.posting_Key wide three_lines EOF 0 1 error_after_one _ _ _ _
           ltac:(vm_compute; reflexivity) ltac:(vm_compute; reflexivity) eq_refl).
Defined.

(** Scenario A returns a nil error: the stream was read to its end and
    the raw-line queue is closed and empty. *)
Lemma failed_read_never_succeeds_witness :
  exists y tr,
    exec small scenario_A (start small ["a b c ."%string] 0 1) = Some (y, tr)
    /\ co y = CDone 1 None
    /\ rpc (rdr y) = RDone
    /\ closed (input (st y)) = true
    /\ items (input (st y)) = [].
Proof.
  eexists _, _. split; [vm_compute; reflexivity|].
  split; [reflexivity|].
  destruct (failed_read_never_succeeds Demo.Predicate Demo.rdf_Parse
              Demo.Fingerprint64 Demo.posting_Key small ["a b c ."%string]
              EOF 0 1 scenario_A _ _ 1 ltac:(vm_compute; reflexivity) eq_refl)
    as (_ & H2 & H3 & H4 & _).
  split; [exact H2|]. split; [exact H3|exact H4].
Defined.

(** Two lines on a window of two leave in their order. *)
Lemma short_input_in_order_witness :
  exists y tr,
    exec small (times 6 [R]) (start small two_lines 0 1) = Some (y, tr)
    /\ rpc (rdr y) = RDone
    /\ sent_lines tr = two_lines.
Proof.
  eexists _, _. split; [vm_compute; reflexivity|].
  split; [reflexivity|].
  destruct (short_input_in_order Demo.Predicate Demo.rdf_Parse Demo.Fingerprint64
              Demo.posting_Key small two_lines EOF 0 1 (times 6 [R]) _ _
              (le_n 2) ltac:(vm_compute; reflexivity))
    as (_ & _ & H3).
  exact (H3 eq_refl).
Defined.

(** Scenario A beside [printCounters]: the one entry shows [processed] at
    1 with [parsed] still at 0, and so a [pending] of [2^64 - 1]. *)
Lemma printCounters_reports_witness :
  exists m tr,
    pexec small printing (LoadEdges_printing small ["a b c ."%string] EOF 0 1)
      = Some (m, tr)
    /\ reports tr = [Report 1 1 0 0 18446744073709551615 0]
    /\ co (base m) = CDone 1 None
    /\ ascending 0 (map r_processed (reports tr))
    /\ Z.of_nat (length (reports tr)) <= processed (ctr (st (base m))).
Proof.
  eexists _, _. split; [vm_compute; reflexivity|].
  split; [reflexivity|]. split; [reflexivity|].
  destruct (printCounters_reports Demo.Predicate Demo.rdf_Parse Demo.Fingerprint64
              Demo.posting_Key small ["a b c ."%string] EOF 0 1 printing _ _
              ltac:(vm_compute; reflexivity) ltac:(vm_compute; reflexivity))
    as (_ & H2 & _ & H4).
  split; [exact H2|exact H4].
Defined.

(** 10002 triples, one mutation worker and a permanent failure of
    [ToEdge] on the first: the error is registered, the mutation worker has
    returned, the queue holds 10000 triples and the parse worker stands at
    line 193; [LoadEdges] is left at [pwg.Wait()]. *)
Lemma full_queue_no_consumer_witness :
  let y := state_after narrow jam (start narrow flood 0 1) in
  (stuck_sending 0 y && bool_decide (is_Some (Error (st y)))) = true
  /\ step Demo.Predicate Demo.rdf_Parse Demo.Fingerprint64 Demo.posting_Key
       narrow AMain y = None.
Proof.
  intros y.
  assert (H : (stuck_sending 0 y && bool_decide (is_Some (Error (st y)))) = true)
    by (vm_compute; reflexivity).
  split; [exact H|].
  exact (proj2 (proj2 (proj2 (proj2
    (full_queue_no_consumer Demo.Predicate Demo.rdf_Parse Demo.Fingerprint64
       Demo.posting_Key narrow 0 y [] y [] (proj1 (andb_prop _ _ H)) eq_refl))))).
Defined.

(** After the error of parse worker 0, with a line and a triple still
    queued, the run goes on to the return of [LoadEdges]: nothing more is
    sent, mutated or counted. *)
Lemma error_drains_witness :
  exists y' tr,
    exec wide [P 1; P 1; M 0; M 0; C; C; M 1; C; C] after_the_error = Some (y', tr)
    /\ Error (st y') = Some (OtherError "not a triple")
    /\ (mutations tr + sum_list_with m_before_mutation (mws y') <= 0)%nat
    /\ (adds c_processed tr + sum_list_with m_before_count (mws y') <= 0)%nat
    /\ (triples_sent tr + sum_list_with p_sending (pws y') <= 0)%nat.
Proof.
  eexists _, _. split; [vm_compute; reflexivity|].
  destruct (error_drains Demo.Predicate Demo.rdf_Parse Demo.Fingerprint64
              Demo.posting_Key wide [P 1; P 1; M 0; M 0; C; C; M 1; C; C]
              after_the_error _ _ (OtherError "not a triple")
              eq_refl ltac:(vm_compute; reflexivity))
    as (H1 & H2 & H3 & _ & H5 & _).
  split; [exact H1|]. split; [exact H2|]. split; [exact H3|exact H5].
Defined.

(** Scenario A: its trace keeps the protocol of both queues and ends with
    both closed. *)
Lemma queues_closed_once_witness :
  exists y tr,
    exec small scenario_A (start small ["a b c ."%string] 0 1) = Some (y, tr)
    /\ protocol input_op false tr = Some true
    /\ protocol cnq_op false tr = Some true.
Proof.
  eexists _, _. split; [vm_compute; reflexivity|].
  exact (queues_closed_once Demo.Predicate Demo.rdf_Parse Demo.Fingerprint64
           Demo.posting_Key small ["a b c ."%string] EOF 0 1 scenario_A _ _
           ltac:(vm_compute; reflexivity)).
Defined.

(** The triple of [a b c .] is sent and not yet counted: [parsed] is 0,
    one parse worker stands at line 194, and [read] is 1. *)
Lemma read_bounds_the_rest_witness :
  exists y tr,
    exec small sent_not_counted (start small ["a b c ."%string] 0 1) = Some (y, tr)
    /\ pws y = [PCount]
    /\ parsed (ctr (st y)) + 1 <= read (ctr (st y))
    /\ read (ctr (st y)) <= 1.
Proof.
  eexists _, _. split; [vm_compute; reflexivity|].
  split; [reflexivity|].
  destruct (read_bounds_the_rest Demo.Predicate Demo.rdf_Parse Demo.Fingerprint64
              Demo.posting_Key small ["a b c ."%string] EOF 0 1 sent_not_counted _ _
              ltac:(vm_compute; reflexivity) ltac:(vm_compute; reflexivity))
    as (H1 & _ & H3).
  split; [exact H1|exact H3].
Defined.

(** Three lines, the second malformed: the line still queued after the
    error is a line of the input, and the triple queued is the parse of
    one. *)
Lemma only_own_triples_converted_witness :
  exists y tr,
    exec wide error_with_work_queued (start wide three_lines 0 1) = Some (y, tr)
    /\ items (input (st y)) = ["a b c ."%string]
    /\ items (cnq (st y)) = [abc]
    /\ Forall (fun l => l ∈ three_lines) (items (input (st y)))
    /\ Forall (from_input Demo.rdf_Parse three_lines) (items (cnq (st y))).
Proof.
  eexists _, _. split; [vm_compute; reflexivity|].
  split; [reflexivity|]. split; [reflexivity|].
  exact (proj2 (only_own_triples_converted Demo.Predicate Demo.rdf_Parse
                  Demo.Fingerprint64 Demo.posting_Key wide three_lines EOF 0 1
                  error_with_work_queued _ _ ltac:(vm_compute; reflexivity))).
Defined.

(** Scenario A in two parts: the counters at its end are at least what
    they were when the triple had been sent. *)
Lemma counters_go_up_witness :
  exists y tr y' tr',
    exec small sent_not_counted (start small ["a b c ."%string] 0 1) = Some (y, tr)
    /\ exec small
         ([M 0; M 0; T 0; M 0; M 0; M 0; M 0; M 0] ++ [P 0; P 0; C; C; M 0; C; C]) y
       = Some (y', tr')
    /\ read (ctr (st y)) <= read (ctr (st y'))
    /\ parsed (ctr (st y)) <= parsed (ctr (st y'))
    /\ processed (ctr (st y)) <= processed (ctr (st y'))
    /\ ignored (ctr (st y)) <= ignored (ctr (st y')).
Proof.
  eexists _, _, _, _. split; [vm_compute; reflexivity|].
  split; [vm_compute; reflexivity|].
  exact (counters_go_up Demo.Predicate Demo.rdf_Parse Demo.Fingerprint64
           Demo.posting_Key small ["a b c ."%string] EOF 0 1 sent_not_counted _ _
           ([M 0; M 0; T 0; M 0; M 0; M 0; M 0; M 0] ++ [P 0; P 0; C; C; M 0; C; C])
           _ _ ltac:(vm_compute; reflexivity) ltac:(vm_compute; reflexivity)
           ltac:(vm_compute; reflexivity)).
Defined.

(** From the start on [a b c .] there is a way to the return of
    [LoadEdges] with a nil error. *)
Lemma can_always_finish_witness :
  exists acts' y' tr' k,
    exec small acts' (start small ["a b c ."%string] 0 1) = Some (y', tr')
    /\ co y' = CDone k None.
Proof.
  destruct (can_always_finish Demo.Predicate Demo.rdf_Parse Demo.Fingerprint64
              Demo.posting_Key small ["a b c ."%string] EOF 0 1 (MkEdge "a" "b")
              [] _ _
              ltac:(vm_compute; reflexivity) (le_S _ _ (le_n 1)) eq_refl
              ltac:(discriminate) ltac:(vm_compute; repeat constructor)
              eq_refl eq_refl eq_refl
              ltac:(vm_compute; repeat constructor)
              ltac:(vm_compute; repeat constructor))
    as (acts' & y' & tr' & k & H1 & H2 & _).
  exists acts', y', tr', k. split; [exact H1|exact H2].
Defined.
End Runs.
